(** * csig: signature index, query engine and indexing pipeline

    A shallow embedding of the Python sources [csig_core.py], [csig_db.py],
    [csig.py] and [csig_indexer.py], followed by the properties that the
    specification states about them.

    Conventions.
    - A Python [str] is the list of its code points ([list Z]); [bytes] is a
      list of numbers in [0, 255].
    - Python's Unicode tables ([str.lower], the alphanumeric class behind the
      regular-expression class [\w]) are a parameter of the development
      (class [UnicodeTables]).
    - Code that can raise returns [option] or a sum type.
    - [time.time()] and the results of operating-system calls are inputs. *)

From Stdlib Require Import ZArith List String Ascii Lia.
From stdpp Require Import base option list gmap sorting.

Local Open Scope Z_scope.

(* ===================================================================== *)
(** * Part I: definitions                                                 *)
(* ===================================================================== *)

(** ** Python strings *)

(** An ASCII literal of the source as a list of code points. *)
Definition lit (s : string) : list Z :=
  (fun a => Z.of_N (N_of_ascii a)) <$> list_ascii_of_string s.

(** [c.lower()] on the ASCII range, where Python maps [A-Z] to [a-z]. *)
Definition ascii_lower_cp (c : Z) : Z :=
  if (65 <=? c) && (c <=? 90) then c + 32 else c.

(** [c.isalnum()] on the ASCII range. *)
Definition ascii_is_alnum (c : Z) : bool :=
  ((48 <=? c) && (c <=? 57)) || ((65 <=? c) && (c <=? 90))
  || ((97 <=? c) && (c <=? 122)).

Definition is_ascii (c : Z) : Prop := 0 <= c < 128.

(** The parts of Python's Unicode database the sources rely on, with what
    the database fixes on the ASCII range. *)
Class UnicodeTables := {
  (** [s.lower()] *)
  str_lower : list Z -> list Z;
  (** [c.isalnum()] for one code point; [\w] is this class plus [_] *)
  is_alnum : Z -> bool;
  str_lower_ascii :
    forall s, Forall is_ascii s -> str_lower s = ascii_lower_cp <$> s;
  is_alnum_ascii : forall c, is_ascii c -> is_alnum c = ascii_is_alnum c
}.

(** The tables that leave every code point above the ASCII range alone.
    They agree with Python on ASCII text and on every code point that is
    its own lower case and is not alphanumeric; they serve the closed
    examples and are never a default instance. *)
Definition ascii_tables : UnicodeTables :=
  {| str_lower := fun s => ascii_lower_cp <$> s;
     is_alnum := ascii_is_alnum;
     str_lower_ascii := fun s _ => eq_refl;
     is_alnum_ascii := fun c _ => eq_refl |}.

(** [s.encode("utf-8", errors="ignore")]: a lone surrogate cannot be encoded
    and is dropped. *)
Definition utf8_encode_cp (c : Z) : list Z :=
  if c <? 128 then [c]
  else if c <? 2048 then
    [Z.lor 192 (Z.shiftr c 6); Z.lor 128 (Z.land c 63)]
  else if (55296 <=? c) && (c <=? 57343) then []
  else if c <? 65536 then
    [Z.lor 224 (Z.shiftr c 12); Z.lor 128 (Z.land (Z.shiftr c 6) 63);
     Z.lor 128 (Z.land c 63)]
  else
    [Z.lor 240 (Z.shiftr c 18); Z.lor 128 (Z.land (Z.shiftr c 12) 63);
     Z.lor 128 (Z.land (Z.shiftr c 6) 63); Z.lor 128 (Z.land c 63)].

Definition utf8_encode (s : list Z) : list Z := s ≫= utf8_encode_cp.

(** [c.isspace()]; also the regular-expression class [\s] on [str]. *)
Definition is_space (c : Z) : bool :=
  ((9 <=? c) && (c <=? 13)) || ((28 <=? c) && (c <=? 32))
  || (c =? 133) || (c =? 160) || (c =? 5760)
  || ((8192 <=? c) && (c <=? 8202))
  || (c =? 8232) || (c =? 8233) || (c =? 8239) || (c =? 8287)
  || (c =? 12288).

(** The regular-expression class [\w] on [str]. *)
Definition is_word `{UnicodeTables} (c : Z) : bool := is_alnum c || (c =? 95).

Fixpoint lstrip (s : list Z) : list Z :=
  match s with
  | c :: s' => if is_space c then lstrip s' else s
  | [] => []
  end.

Definition rstrip (s : list Z) : list Z := reverse (lstrip (reverse s)).

(** [s.strip()] *)
Definition strip (s : list Z) : list Z := rstrip (lstrip s).

(** [s.startswith(p)] *)
Fixpoint starts_with (p s : list Z) : bool :=
  match p, s with
  | [], _ => true
  | _ :: _, [] => false
  | a :: p', b :: s' => (a =? b) && starts_with p' s'
  end.

(** [s.endswith(p)] *)
Definition ends_with (p s : list Z) : bool :=
  starts_with (reverse p) (reverse s).

(** [s.find(sub)], with [None] for -1. *)
Fixpoint find (sub s : list Z) : option nat :=
  if starts_with sub s then Some 0%nat
  else match s with
       | [] => None
       | _ :: s' => S <$> find sub s'
       end.

(** [sub in s] *)
Definition contains (sub s : list Z) : bool := bool_decide (is_Some (find sub s)).

(** [s.split(sep, 1)] when [sep] occurs in [s]: the text before and after
    the leftmost occurrence. *)
Definition split_once (sep s : list Z) : option (list Z * list Z) :=
  i ← find sep s; Some (take i s, drop (i + length sep) s).

(** [s.replace(old, new)] for a non-empty [old]: occurrences are replaced
    from left to right without overlap. [skip] counts the characters of a
    replaced occurrence that are still to be passed over. *)
Fixpoint str_replace_go (old new : list Z) (skip : nat) (s : list Z) : list Z :=
  match s with
  | [] => []
  | c :: s' =>
      match skip with
      | S k => str_replace_go old new k s'
      | O =>
          if starts_with old s
          then new ++ str_replace_go old new (length old - 1) s'
          else c :: str_replace_go old new 0 s'
      end
  end.

Definition str_replace (old new s : list Z) : list Z := str_replace_go old new 0 s.

(** [re.sub(r"\s+", " ", s)]: every maximal run of white space becomes one
    space. *)
Fixpoint collapse_space (in_run : bool) (s : list Z) : list Z :=
  match s with
  | [] => []
  | c :: s' =>
      if is_space c
      then (if in_run then collapse_space true s'
            else 32 :: collapse_space true s')
      else c :: collapse_space false s'
  end.

(** [re.sub(r"\bw\b", "", s)] for a literal [w] made of word characters:
    an occurrence of [w] is removed when the character before it and the
    character after it are not word characters. [prev] is the character
    before the current position. *)
Fixpoint delete_word_go `{UnicodeTables} (w : list Z) (prev : option Z)
    (skip : nat) (s : list Z) : list Z :=
  match s with
  | [] => []
  | c :: s' =>
      match skip with
      | S k => delete_word_go w (Some c) k s'
      | O =>
          let before := match prev with Some p => negb (is_word p) | None => true end in
          let after := match drop (length w) s with
                       | n :: _ => negb (is_word n)
                       | [] => true
                       end in
          if starts_with w s && before && after
          then delete_word_go w (Some c) (length w - 1) s'
          else c :: delete_word_go w (Some c) 0 s'
      end
  end.

Definition delete_word `{UnicodeTables} (w s : list Z) : list Z :=
  delete_word_go w None 0 s.

(** [re.search(r"\w+\s*\(", s) is not None]. [armed] holds when the text
    read so far ends with word characters followed by white space only. *)
Fixpoint search_word_paren `{UnicodeTables} (armed : bool) (s : list Z) : bool :=
  match s with
  | [] => false
  | c :: s' =>
      if armed && (c =? 40) then true
      else if is_word c then search_word_paren true s'
      else if is_space c then search_word_paren armed s'
      else search_word_paren false s'
  end.

(** [sep.join(parts)] *)
Fixpoint join (sep : list Z) (parts : list (list Z)) : list Z :=
  match parts with
  | [] => []
  | [p] => p
  | p :: ps => p ++ sep ++ join sep ps
  end.

(** Lexicographic comparison of two sequences of numbers: Python's order on
    [str] (by code point), and [memcmp] followed by the comparison of the
    lengths on byte strings. *)
Fixpoint list_compare (a b : list Z) : comparison :=
  match a, b with
  | [], [] => Eq
  | [], _ :: _ => Lt
  | _ :: _, [] => Gt
  | x :: a', y :: b' =>
      match x ?= y with
      | Eq => list_compare a' b'
      | c => c
      end
  end.

(** Comparison of tuples: the first component that differs decides. *)
Definition lex (c1 c2 : comparison) : comparison :=
  match c1 with
  | Eq => c2
  | _ => c1
  end.

Definition not_gt (c : comparison) : bool :=
  match c with
  | Gt => false
  | _ => true
  end.

(** A stable sort: [list.sort(key=...)] and the rows of an [ORDER BY] taken
    in scan order. [insert_sorted] puts an element before the first one that
    is not smaller, so equal elements keep their order. *)
Fixpoint insert_sorted {A} (le : A -> A -> bool) (x : A) (l : list A) : list A :=
  match l with
  | [] => [x]
  | y :: l' => if le x y then x :: l else y :: insert_sorted le x l'
  end.

Fixpoint stable_sort {A} (le : A -> A -> bool) (l : list A) : list A :=
  match l with
  | [] => []
  | x :: l' => insert_sorted le x (stable_sort le l')
  end.

(** A value of type [Optional[str]] in a condition: [None] and [""] are
    false. *)
Definition truthy (o : option (list Z)) : bool :=
  match o with
  | Some (_ :: _) => true
  | _ => false
  end.

(** [s or None] *)
Definition or_none (s : list Z) : option (list Z) :=
  match s with
  | [] => None
  | _ => Some s
  end.

(** ** csig_core.py *)

Module CsigCore.

Record Query := {
  name : option (list Z);
  normalised_signature : option (list Z)
}.

Record Location := {
  file_name : list Z;
  line : Z;
  column : Z
}.

(** The dataclass [Function]; its fields carry the prefix [fn_]. *)
Record Function := {
  fn_name : list Z;
  fn_location : Location;
  fn_return_type : list Z;
  fn_parameters : list (list Z * option (list Z));
  fn_is_variadic : bool;
  fn_signature_norm : option (list Z)
}.

(** The dialect under which the normalisation collaborator is called. *)
Inductive Language := LangC | LangCpp.

(** [sig_part if sig_part.rstrip().endswith(";") else f"{sig_part};"] *)
Definition with_semicolon (sig_part : list Z) : list Z :=
  if ends_with (lit ";") (rstrip sig_part) then sig_part
  else sig_part ++ lit ";".

Definition _build_fake_declaration `{UnicodeTables} (sig_part : list Z) : list Z :=
  if negb (contains (lit "(") sig_part) || negb (contains (lit ")") sig_part)
  then with_semicolon sig_part
  else if contains (lit "__q__") sig_part then with_semicolon sig_part
  else if search_word_paren false sig_part && negb (contains (lit " (") sig_part)
  then with_semicolon sig_part
  else
    match find (lit "(") sig_part with
    | None => with_semicolon sig_part
    | Some k =>
        let ret := strip (take k sig_part) in
        let params := strip (drop k sig_part) in
        ret ++ lit " __q__ " ++ params ++ lit ";"
    end.

(** The outcome of [parse_query]: the calls made to the normalisation
    collaborator, in order, and the query returned ([None] when the
    collaborator's exception propagates). *)
Record ParseOutcome := {
  calls : list (Language * list Z);
  returned : option Query
}.

(** [parse_query(query_str, index)]. [normalise lang text] is the
    collaborator [normalise_signature_with_language]; it gives [None] when
    it raises. *)
Definition parse_query `{UnicodeTables}
    (normalise : Language -> list Z -> option (list Z))
    (query_str : list Z) : ParseOutcome :=
  let '(name, sig_part) :=
    match split_once (lit "::") query_str with
    | Some (name_part, sig_part) => (or_none (strip name_part), strip sig_part)
    | None => (None, strip query_str)
    end in
  match sig_part with
  | [] => {| calls := [];
             returned := Some {| name := name; normalised_signature := None |} |}
  | _ =>
      let fake := _build_fake_declaration sig_part in
      let '(log, norm) :=
        match normalise LangC fake with
        | Some norm => ([(LangC, fake)], Some norm)
        | None => ([(LangC, fake); (LangCpp, fake)], normalise LangCpp fake)
        end in
      match norm with
      | None => {| calls := log; returned := None |}
      | Some norm =>
          let norm := delete_word (lit "__q__") norm in
          let norm := strip (str_replace (lit " ;") [] norm) in
          let norm := strip (collapse_space false norm) in
          {| calls := log;
             returned := Some {| name := name;
                                 normalised_signature := or_none norm |} |}
      end
  end.

(** *** Edit distance *)

(** [xs[i] = v]; Python raises [IndexError] out of range. *)
Definition set_item {A} (xs : list A) (i : nat) (v : A) : option (list A) :=
  if decide (i < length xs)%nat then Some (<[i:=v]> xs) else None.

(** [for x in xs: s = body(s, x)], stopping at the first exception. *)
Fixpoint for_each {S A} (body : S -> A -> option S) (xs : list A) (s : S)
  : option S :=
  match xs with
  | [] => Some s
  | x :: xs' => s' ← body s x; for_each body xs' s'
  end.

Definition min3 (x y z : nat) : nat := Nat.min x (Nat.min y z).

(** Body of the inner loop of [levenshtein_distance], for one [j]. *)
Definition lev_inner (ai : Z) (b_bytes : list Z) (prev : list nat)
    (cur : list nat) (j : nat) : option (list nat) :=
  bj ← b_bytes !! (j - 1)%nat;
  let cost := if decide (ai = bj) then 0%nat else 1%nat in
  c1 ← cur !! (j - 1)%nat;
  p1 ← prev !! j;
  p2 ← prev !! (j - 1)%nat;
  set_item cur j (min3 (c1 + 1) (p1 + 1) (p2 + cost)).

(** Body of the outer loop, for one [i]; the state is [(prev, cur)]. *)
Definition lev_outer (a_bytes b_bytes : list Z) (m : nat)
    (rows : list nat * list nat) (i : nat) : option (list nat * list nat) :=
  let '(prev, cur) := rows in
  cur0 ← set_item cur 0 i;
  ai ← a_bytes !! (i - 1)%nat;
  cur' ← for_each (lev_inner ai b_bytes prev) (seq 1 m) cur0;
  Some (cur', prev).

(** The rolling-row computation on two byte strings. *)
Definition lev_bytes (a_bytes b_bytes : list Z) : option nat :=
  let n := length a_bytes in
  let m := length b_bytes in
  if decide (n = 0)%nat then Some m
  else if decide (m = 0)%nat then Some n
  else
    let prev := seq 0 (m + 1) in
    let cur := replicate (m + 1) 0%nat in
    rows ← for_each (lev_outer a_bytes b_bytes m) (seq 1 n) (prev, cur);
    rows.1 !! m.

(** [levenshtein_distance(a, b)]; [None] stands for an [IndexError]. *)
Definition levenshtein_distance `{UnicodeTables} (a b : list Z) : option nat :=
  lev_bytes (utf8_encode (str_lower a)) (utf8_encode (str_lower b)).

(** The textbook recurrence on prefixes: [lev_rec a b i j] is the value of
    the dynamic-programming table at row [i], column [j]. *)
Fixpoint lev_rec (a b : list Z) (i : nat) : nat -> nat :=
  match i with
  | O => fun j => j
  | S i' =>
      fix row (j : nat) : nat :=
        match j with
        | O => S i'
        | S j' =>
            min3 (row j' + 1) (lev_rec a b i' (S j') + 1)
              (lev_rec a b i' j'
               + (if decide (a !! i' = b !! j') then 0 else 1))
        end
  end%nat.

(** *** Language dispatch and the signature of a function *)

(** [str(language).strip().lower() in {"c++", "cpp", "cxx", "cc"}] *)
Definition is_cpp_language `{UnicodeTables} (language : list Z) : bool :=
  bool_decide (str_lower (strip language)
               ∈ [lit "c++"; lit "cpp"; lit "cxx"; lit "cc"]).

Definition _clang_language_arg `{UnicodeTables} (language : list Z) : list Z :=
  if is_cpp_language language then lit "-xc++" else lit "-xc".

(** The list [param_types] that the code builds in three places: the types
    of the parameters, followed by ["..."] for a variadic function. *)
Definition param_types_of (function : Function) : list (list Z) :=
  let param_types := fst <$> fn_parameters function in
  if fn_is_variadic function then param_types ++ [lit "..."] else param_types.

(** [Function.normalised_signature(index, language)]; [None] when the
    collaborator raises. The collaborator sees the language only through
    [_clang_language_arg]. *)
Definition function_normalised_signature `{UnicodeTables}
    (normalise : Language -> list Z -> option (list Z))
    (function : Function) (language : list Z) : option (list Z) :=
  let proto :=
    fn_return_type function ++ lit " __f__("
      ++ join (lit ", ") (param_types_of function) ++ lit ");" in
  sig ← normalise (if is_cpp_language language then LangCpp else LangC) proto;
  let sig := delete_word (lit "__f__") sig in
  let sig := strip (str_replace (lit " ;") [] sig) in
  Some (strip (collapse_space false sig)).

(** [score_function(func, query, index)]; [None] when the collaborator
    raises. *)
Definition score_function `{UnicodeTables}
    (normalise : Language -> list Z -> option (list Z))
    (func : Function) (query : Query) : option nat :=
  s1 ← match name query with
       | Some n => levenshtein_distance (fn_name func) n
       | None => Some 0%nat
       end;
  s2 ← match normalised_signature query with
       | Some sig =>
           fsig ← function_normalised_signature normalise func (lit "c");
           levenshtein_distance fsig sig
       | None => Some 0%nat
       end;
  Some (s1 + s2)%nat.

(** *** Include paths of the default compiler *)

(** The line boundaries of [str.splitlines]. *)
Definition is_line_boundary (c : Z) : bool :=
  ((10 <=? c) && (c <=? 13)) || ((28 <=? c) && (c <=? 30))
  || (c =? 133) || (c =? 8232) || (c =? 8233).

(** [s.splitlines()]: the lines without their boundaries; a carriage return
    followed by a line feed is one boundary, and a boundary at the very end
    opens no further line. *)
Fixpoint splitlines (s : list Z) : list (list Z) :=
  match s with
  | [] => []
  | c :: s' =>
      if is_line_boundary c then
        [] :: match s' with
              | d :: s'' =>
                  if (c =? 13) && (d =? 10) then splitlines s'' else splitlines s'
              | [] => []
              end
      else
        match splitlines s' with
        | [] => [[c]]
        | l :: ls => (c :: l) :: ls
        end
  end.

(** The three marker lines in the output of [cc -xc -E -v -]; the first one
    holds two quotation marks (code point 34). *)
Definition start_marker : list Z :=
  lit "#include " ++ [34] ++ lit "..." ++ [34] ++ lit " search starts here:".

Definition mid_marker : list Z := lit "#include <...> search starts here:".

Definition end_marker : list Z := lit "End of search list.".

(** [lines.index(x)], with [None] for the [ValueError]. *)
Fixpoint index_of (x : list Z) (lines : list (list Z)) : option nat :=
  match lines with
  | [] => None
  | l :: lines' =>
      if bool_decide (l = x) then Some 0%nat else S <$> index_of x lines'
  end.

(** The loop over [lines[start_idx:]]. *)
Fixpoint include_args_loop (lines : list (list Z)) : list (list Z) :=
  match lines with
  | [] => []
  | l :: rest =>
      if bool_decide (l = mid_marker) then include_args_loop rest
      else if bool_decide (l = end_marker) then []
      else
        match l with
        | [] => include_args_loop rest
        | _ :: _ => lit "-isystem" :: l :: include_args_loop rest
        end
  end.

(** What [subprocess.run] gives: an [OSError], or the return code and the
    text of the standard error stream. *)
Inductive RunOutcome :=
| RunOSError
| RunCompleted (returncode : Z) (stderr : list Z).

(** [clang_c_include_path_args()]; [None] stands for the [RuntimeError]. *)
Definition clang_c_include_path_args (proc : RunOutcome) : option (list (list Z)) :=
  match proc with
  | RunOSError => None
  | RunCompleted returncode stderr =>
      if negb (returncode =? 0) then None
      else
        let lines := strip <$> splitlines stderr in
        match index_of start_marker lines with
        | None => Some []
        | Some i => Some (include_args_loop (drop (i + 1) lines))
        end
  end.

(** *** Functions of a translation unit *)

Inductive CursorKind := FUNCTION_DECL | PARM_DECL | OTHER_KIND.

(** A cursor of libclang, with what [iter_functions] reads of it:
    [location.file] ([None] when the cursor has no file), the spellings of
    the cursor, of its type and of its result type, the answer of
    [type.is_function_variadic()] ([None] when it raises), the children. *)
#[warnings="-register-all"] Inductive Cursor := {
  cu_kind : CursorKind;
  cu_file : option (list Z);
  cu_line : Z;
  cu_column : Z;
  cu_spelling : list Z;
  cu_type_spelling : list Z;
  cu_result_type_spelling : list Z;
  cu_is_function_variadic : option bool;
  cu_children : list Cursor
}.

(** The test on the file of a declaration when [only_from_file] is given;
    [resolve p] is [str(Path(p).resolve())], [None] when it raises. *)
Definition in_file (resolve : list Z -> option (list Z))
    (only_from_file only_path loc_file : list Z) : bool :=
  match resolve loc_file with
  | Some p => bool_decide (p = only_path)
  | None => bool_decide (loc_file = only_from_file)
  end.

(** The parameters of a declaration: its children of kind [PARM_DECL]. *)
Definition params_of (children : list Cursor)
  : list (list Z * option (list Z)) :=
  omap (fun child =>
          match cu_kind child with
          | PARM_DECL => Some (cu_type_spelling child, or_none (cu_spelling child))
          | _ => None
          end) children.

(** The inner function [collect]; [only] is the pair of [only_from_file]
    and [only_path]. *)
Definition collect (resolve : list Z -> option (list Z))
    (only : option (list Z * list Z)) (node : Cursor) : list Function :=
  match cu_kind node, cu_file node with
  | FUNCTION_DECL, Some loc_file =>
      if match only with
         | Some (only_from_file, only_path) =>
             in_file resolve only_from_file only_path loc_file
         | None => true
         end
      then [{| fn_name := cu_spelling node;
               fn_location := {| file_name := loc_file; line := cu_line node;
                                 column := cu_column node |};
               fn_return_type := cu_result_type_spelling node;
               fn_parameters := params_of (cu_children node);
               fn_is_variadic := default false (cu_is_function_variadic node);
               fn_signature_norm := None |}]
      else []
  | _, _ => []
  end.

(** The inner function [visit]: the node, then its children from left to
    right. *)
Fixpoint visit (collect_ : Cursor -> list Function) (node : Cursor)
  : list Function :=
  collect_ node
  ++ match node with
     | Build_Cursor _ _ _ _ _ _ _ _ children =>
         (fix visit_all (cs : list Cursor) : list Function :=
            match cs with
            | [] => []
            | c :: cs' => visit collect_ c ++ visit_all cs'
            end) children
     end.

(** [iter_functions(tu, only_from_file=...)]; [tu] is the cursor of the
    translation unit, and [None] stands for the exception of the first
    [resolve]. *)
Definition iter_functions (resolve : list Z -> option (list Z)) (tu : Cursor)
    (only_from_file : option (list Z)) : option (list Function) :=
  match only_from_file with
  | None => Some (visit (collect resolve None) tu)
  | Some f =>
      only_path ← resolve f;
      Some (visit (collect resolve (Some (f, only_path))) tu)
  end.

End CsigCore.

(** ** csig_db.py

    The store is one SQLite connection. A table is the list of its rows in
    rowid order; [AUTOINCREMENT] hands out the number after the largest one
    ever used. The writer commits after each file and nothing is ever rolled
    back, so statements act on the store directly. *)

Module CsigDb.
Import CsigCore.

(** A row of [files]; the fields carry the alias [fi] of the queries. *)
Record FileRow := {
  fi_id : Z;
  fi_path : list Z;
  fi_mtime : Z;
  fi_size : Z;
  fi_parsed_at : option Z;
  fi_last_error : option (list Z)
}.

(** A row of [functions]; the fields carry the alias [f] of the queries.
    [f_params_json] holds the value whose JSON text is stored. *)
Record FunctionRow := {
  f_id : Z;
  f_file_id : Z;
  f_name : list Z;
  f_return_type : list Z;
  f_params_json : list (list Z * option (list Z));
  f_signature_norm : list Z;
  f_line : Z;
  f_column : Z
}.

Record Db := {
  files : list FileRow;
  functions : list FunctionRow;
  (** largest [files.id] ever used *)
  files_seq : Z;
  (** largest [functions.id] ever used *)
  functions_seq : Z
}.

(** The store after [init_db] on a new file. *)
Definition init_db : Db :=
  {| files := []; functions := []; files_seq := 0; functions_seq := 0 |}.

(** [UPDATE files SET ... WHERE id = ?] *)
Definition update_files (db : Db) (file_id : Z) (upd : FileRow -> FileRow) : Db :=
  {| files := (fun r => if decide (fi_id r = file_id) then upd r else r) <$> files db;
     functions := functions db;
     files_seq := files_seq db;
     functions_seq := functions_seq db |}.

Definition set_mtime_size (mtime size : Z) (r : FileRow) : FileRow :=
  {| fi_id := fi_id r; fi_path := fi_path r; fi_mtime := mtime; fi_size := size;
     fi_parsed_at := fi_parsed_at r; fi_last_error := fi_last_error r |}.

Definition get_or_create_file (db : Db) (path : list Z) (mtime size : Z) : Db * Z :=
  match List.find (fun r => bool_decide (fi_path r = path)) (files db) with
  | Some row => (update_files db (fi_id row) (set_mtime_size mtime size), fi_id row)
  | None =>
      let new_id := files_seq db + 1 in
      ({| files := files db ++
                   [{| fi_id := new_id; fi_path := path; fi_mtime := mtime;
                       fi_size := size; fi_parsed_at := None;
                       fi_last_error := None |}];
          functions := functions db;
          files_seq := new_id;
          functions_seq := functions_seq db |}, new_id)
  end.

(** The text stored in [signature_norm] for one function. *)
Definition stored_signature (function : Function) : list Z :=
  if truthy (fn_signature_norm function) then default [] (fn_signature_norm function)
  else
    let param_types := fst <$> fn_parameters function in
    let param_types :=
      if fn_is_variadic function then param_types ++ [lit "..."] else param_types in
    fn_return_type function ++ lit " ( " ++ join (lit ", ") param_types ++ lit " )".

(** sqlite3 binds a [str] parameter as UTF-8: a text with a surrogate code
    point cannot be encoded, and the statement raises [UnicodeEncodeError]
    instead of running. File names that are not valid UTF-8 reach Python
    as such texts. *)
Definition binds_text (s : list Z) : bool :=
  forallb (fun c => negb ((55296 <=? c) && (c <=? 57343))) s.

(** The texts of one tuple of [payload] can be bound; [params_json] is
    ASCII, since [json.dumps] escapes with [ensure_ascii=True]. *)
Definition binds_function (function : Function) : bool :=
  binds_text (fn_name function) && binds_text (fn_return_type function)
  && binds_text (stored_signature function).

(** One tuple of [payload], stored under the number [id]. *)
Definition function_row (file_id : Z) (id : Z) (function : Function) : FunctionRow :=
  {| f_id := id;
     f_file_id := file_id;
     f_name := fn_name function;
     f_return_type := fn_return_type function;
     f_params_json := fn_parameters function;
     f_signature_norm := stored_signature function;
     f_line := line (fn_location function);
     f_column := column (fn_location function) |}.

(** [executemany("INSERT INTO functions ...", payload)]: the rows get the
    numbers [seq + 1], [seq + 2], ... in order. *)
Fixpoint insert_functions (file_id : Z) (seq : Z) (functions : list Function)
  : list FunctionRow :=
  match functions with
  | [] => []
  | function :: rest =>
      function_row file_id (seq + 1) function
        :: insert_functions file_id (seq + 1) rest
  end.

Definition replace_functions_for_file (db : Db) (file_id : Z)
    (functions_ : list Function) : Db :=
  let kept := filter (fun r => f_file_id r ≠ file_id) (functions db) in
  {| files := files db;
     functions := kept ++ insert_functions file_id (functions_seq db) functions_;
     files_seq := files_seq db;
     functions_seq := functions_seq db + Z.of_nat (length functions_) |}.

(** [now] is the value of [time.time()]. *)
Definition mark_file_parsed (db : Db) (file_id : Z) (mtime size : Z) (now : Z) : Db :=
  update_files db file_id (fun r =>
    {| fi_id := fi_id r; fi_path := fi_path r; fi_mtime := mtime; fi_size := size;
       fi_parsed_at := Some now; fi_last_error := None |}).

Definition mark_file_error (db : Db) (file_id : Z) (mtime size : Z)
    (error : list Z) (now : Z) : Db :=
  update_files db file_id (fun r =>
    {| fi_id := fi_id r; fi_path := fi_path r; fi_mtime := mtime; fi_size := size;
       fi_parsed_at := Some now; fi_last_error := Some error |}).

(** The dictionary built from the rows of [files]; a later row with the same
    path would replace an earlier one. *)
Definition iter_file_states (db : Db) : gmap (list Z) (Z * Z) :=
  foldl (fun m r => <[fi_path r := (fi_mtime r, fi_size r)]> m) ∅ (files db).


(** The row of [files] of one path. *)
Definition file_of (db : Db) (path : list Z) : option FileRow :=
  List.find (fun r => bool_decide (fi_path r = path)) (files db).

(** *** Candidate fetch *)

(** SQLite's [LIKE]: [%] stands for any text, [_] for any one character, and
    other characters match without regard to ASCII case. *)
Fixpoint like (pattern : list Z) : list Z -> bool :=
  match pattern with
  | [] => fun s => match s with [] => true | _ :: _ => false end
  | c :: pattern' =>
      if c =? 37 then
        fix any (s : list Z) : bool :=
          like pattern' s
          || match s with [] => false | _ :: s' => any s' end
      else if c =? 95 then
        fun s => match s with [] => false | _ :: s' => like pattern' s' end
      else
        fun s => match s with
                 | [] => false
                 | d :: s' => (ascii_lower_cp c =? ascii_lower_cp d) && like pattern' s'
                 end
  end.

(** [COLLATE NOCASE]: the UTF-8 texts are compared byte by byte after the
    ASCII capitals are folded. *)
Definition nocase_compare (a b : list Z) : comparison :=
  list_compare (ascii_lower_cp <$> utf8_encode a) (ascii_lower_cp <$> utf8_encode b).

(** A row of the join of [functions] with [files]. *)
Definition Joined : Type := FunctionRow * FileRow.

Definition join_files (db : Db) : list Joined :=
  r ← functions db;
  fi ← filter (fun fi => fi_id fi = f_file_id r) (files db);
  [(r, fi)].

(** [ORDER BY f.name COLLATE NOCASE, fi.path COLLATE NOCASE, f.line,
    f.column] *)
Definition order_compare (x y : Joined) : comparison :=
  lex (nocase_compare (f_name x.1) (f_name y.1))
    (lex (nocase_compare (fi_path x.2) (fi_path y.2))
       (lex (f_line x.1 ?= f_line y.1) (f_column x.1 ?= f_column y.1))).

Definition order_le (x y : Joined) : bool := not_gt (order_compare x y).

(** [LIMIT ?]: a negative number is no limit. *)
Definition sql_limit {A} (limit : Z) (rows : list A) : list A :=
  if limit <? 0 then rows else take (Z.to_nat limit) rows.

(** The [SELECT] of [fetch_candidates] with the condition [where_]. Rows
    that the order does not tell apart stay in scan order. *)
Definition select_candidates (db : Db) (where_ : Joined -> bool) (limit : Z)
  : list Joined :=
  sql_limit limit (stable_sort order_le (filter (fun x => where_ x = true) (join_files db))).

(** The dictionary made of one row. *)
Record Candidate := {
  c_id : Z;
  c_path : list Z;
  c_name : list Z;
  c_return_type : list Z;
  c_params : list (list Z * option (list Z));
  c_signature_norm : list Z;
  c_line : Z;
  c_column : Z
}.

Definition candidate_of_row (x : Joined) : Candidate :=
  {| c_id := f_id x.1;
     c_path := fi_path x.2;
     c_name := f_name x.1;
     c_return_type := f_return_type x.1;
     c_params := f_params_json x.1;
     c_signature_norm := f_signature_norm x.1;
     c_line := f_line x.1;
     c_column := f_column x.1 |}.

(** The condition built from the query; [None] when [where] stays empty. *)
Definition where_clause (query : Query) : option (Joined -> bool) :=
  let by_name x :=
    like (lit "%" ++ default [] (name query) ++ lit "%") (f_name x.1) in
  let by_sig x :=
    like (lit "%" ++ default [] (normalised_signature query) ++ lit "%")
      (f_signature_norm x.1) in
  if truthy (name query) && truthy (normalised_signature query)
  then Some (fun x => by_name x || by_sig x)
  else if truthy (name query) then Some by_name
  else if truthy (normalised_signature query) then Some by_sig
  else None.

Definition fetch_candidates (db : Db) (query : Query) (limit : Z) : list Candidate :=
  let where_ := where_clause query in
  let rows := select_candidates db (default (fun _ => true) where_) limit in
  let rows :=
    match rows, where_ with
    | [], Some _ => select_candidates db (fun _ => true) limit
    | _, _ => rows
    end in
  candidate_of_row <$> rows.

(** [SELECT COUNT( * ) FROM files WHERE last_error IS NOT NULL] *)
Definition get_error_file_count (db : Db) : Z :=
  Z.of_nat (length (filter (fun r => fi_last_error r <> None) (files db))).

End CsigDb.

(** ** csig.py: ranking *)

Module Csig.
Import CsigCore CsigDb.

(** The score of one row. *)
Definition score `{UnicodeTables} (query : Query) (row : Candidate) : option nat :=
  s1 ← (if truthy (name query)
        then levenshtein_distance (c_name row) (default [] (name query))
        else Some 0%nat);
  s2 ← (if truthy (normalised_signature query)
        then levenshtein_distance (c_signature_norm row)
               (default [] (normalised_signature query))
        else Some 0%nat);
  Some (s1 + s2)%nat.

(** The order of the sort keys [(score, name.lower(), path.lower(), line,
    column)]. *)
Definition key_compare `{UnicodeTables} (x y : nat * Candidate) : comparison :=
  lex (Nat.compare x.1 y.1)
    (lex (list_compare (str_lower (c_name x.2)) (str_lower (c_name y.2)))
       (lex (list_compare (str_lower (c_path x.2)) (str_lower (c_path y.2)))
          (lex (c_line x.2 ?= c_line y.2) (c_column x.2 ?= c_column y.2)))).

Definition key_le `{UnicodeTables} (x y : nat * Candidate) : bool :=
  not_gt (key_compare x y).

(** [rank_candidates(candidates, query, top)]; [None] stands for an
    exception of [levenshtein_distance]. *)
Definition rank_candidates `{UnicodeTables} (candidates : list Candidate)
    (query : Query) (top : Z) : option (list Candidate) :=
  scored ← mapM (fun row => s ← score query row; Some (s, row)) candidates;
  let scored := stable_sort key_le scored in
  Some (snd <$> take (Z.to_nat (Z.max 0 top)) scored).

(** What [_cmd_search] prints the rows of, for the parsed [query]: the
    candidates fetched with [limit=max(200, top * 20)], ranked. *)
Definition search_rows `{UnicodeTables} (db : Db) (query : Query) (top : Z)
  : option (list Candidate) :=
  rank_candidates (fetch_candidates db query (Z.max 200 (top * 20))) query top.

End Csig.

(** ** csig_tui.py: the search of the interactive UI *)

Module CsigTui.
Import CsigCore CsigDb Csig.

(** [_rank_candidates(candidates, query, top)], the copy of the ranking
    that the UI keeps for itself: the same scores, sort keys and cut. *)
Definition _rank_candidates `{UnicodeTables} (candidates : list Candidate)
    (query : Query) (top : Z) : option (list Candidate) :=
  scored ← mapM (fun row => s ← score query row; Some (s, row)) candidates;
  let scored := stable_sort key_le scored in
  Some (snd <$> take (Z.to_nat (Z.max 0 top)) scored).

(** What [_search_sync] returns: the rows for the table, or the single row
    with the key [error] that stands for an exception. *)
Inductive SearchRows :=
  | Rows (rows : list Candidate)
  | ErrorRow.

(** [CsigApp._search_sync(query_text)]. [clang_index] is [None] when
    [configure_libclang_from_env] or [Index.create] raises and otherwise
    the normaliser of the index; [store] is [None] when [open_db] or the
    query of the store raises. *)
Definition _search_sync `{UnicodeTables}
    (clang_index : option (Language -> list Z -> option (list Z)))
    (store : option Db) (query_text : list Z) : SearchRows :=
  let value := strip query_text in
  match value with
  | [] => Rows []
  | _ :: _ =>
      match clang_index with
      | None => ErrorRow
      | Some normalise =>
          match returned (parse_query normalise value) with
          | None => ErrorRow
          | Some query =>
              match store with
              | None => ErrorRow
              | Some db =>
                  let candidates := fetch_candidates db query 300 in
                  match _rank_candidates candidates query 50 with
                  | Some rows => Rows rows
                  | None => ErrorRow
                  end
              end
          end
      end
  end.

End CsigTui.

(** ** csig_indexer.py

    The pipeline runs one discovery thread, [workers] worker threads and one
    writer thread over two queues, a cancellation flag and the progress
    tracker. Each thread is a small machine whose steps are the operations
    on what the threads share; the run is every interleaving of those
    steps. *)

Module CsigIndexer.
Import CsigCore CsigDb.

(** *** Progress tracker *)

(** The dictionary [_progress]. *)
Record Progress := {
  files_total : Z;
  files_queued : Z;
  files_done : Z;
  files_skipped : Z;
  files_indexed : Z;
  files_failed : Z;
  functions_total : Z;
  running : bool;
  canceled : bool;
  start_time : option Z;
  end_time : option Z
}.

(** The keys that [inc] is called with. *)
Inductive Counter :=
| FilesTotal | FilesQueued | FilesDone | FilesSkipped | FilesIndexed
| FilesFailed | FunctionsTotal.

Definition counter_eqb (a b : Counter) : bool :=
  match a, b with
  | FilesTotal, FilesTotal | FilesQueued, FilesQueued | FilesDone, FilesDone
  | FilesSkipped, FilesSkipped | FilesIndexed, FilesIndexed
  | FilesFailed, FilesFailed | FunctionsTotal, FunctionsTotal => true
  | _, _ => false
  end.

(** The tracker of [_ProgressTracker.__init__]. *)
Definition new_tracker : Progress :=
  {| files_total := 0; files_queued := 0; files_done := 0; files_skipped := 0;
     files_indexed := 0; files_failed := 0; functions_total := 0;
     running := false; canceled := false; start_time := None; end_time := None |}.

(** [_progress[key] = int(_progress.get(key, 0)) + int(delta)] *)
Definition add_counter (p : Progress) (kd : Counter * Z) : Progress :=
  let '(key, delta) := kd in
  let bump (k : Counter) (v : Z) : Z :=
    if counter_eqb k key then v + delta else v in
  {| files_total := bump FilesTotal (files_total p);
     files_queued := bump FilesQueued (files_queued p);
     files_done := bump FilesDone (files_done p);
     files_skipped := bump FilesSkipped (files_skipped p);
     files_indexed := bump FilesIndexed (files_indexed p);
     files_failed := bump FilesFailed (files_failed p);
     functions_total := bump FunctionsTotal (functions_total p);
     running := running p; canceled := canceled p;
     start_time := start_time p; end_time := end_time p |}.

(** [tracker.inc] with its keyword arguments as a list: all the counters
    named change under one acquisition of the lock. *)
Definition inc (p : Progress) (increments : list (Counter * Z)) : Progress :=
  foldl add_counter p increments.

(** [tracker.set(running=..., canceled=..., start_time=..., end_time=...)] *)
Definition set_run (p : Progress) (running_ canceled_ : bool)
    (start_time_ end_time_ : option Z) : Progress :=
  {| files_total := files_total p; files_queued := files_queued p;
     files_done := files_done p; files_skipped := files_skipped p;
     files_indexed := files_indexed p; files_failed := files_failed p;
     functions_total := functions_total p;
     running := running_; canceled := canceled_;
     start_time := start_time_; end_time := end_time_ |}.

(** *** Parsing one file *)

Definition C_EXTENSIONS : list (list Z) := [lit ".c"].

Definition CPP_EXTENSIONS : list (list Z) :=
  [lit ".cc"; lit ".cpp"; lit ".cxx"; lit ".c++"].

Definition HEADER_EXTENSIONS : list (list Z) :=
  [lit ".h"; lit ".hh"; lit ".hpp"; lit ".hxx"].

(** [_language_candidates_for_path(path)], as a function of
    [Path(path).suffix.lower()]. *)
Definition _language_candidates_for_path (suffix : list Z) : list (list Z) :=
  if bool_decide (suffix ∈ C_EXTENSIONS) then [lit "c"]
  else if bool_decide (suffix ∈ CPP_EXTENSIONS) then [lit "c++"]
  else if bool_decide (suffix ∈ HEADER_EXTENSIONS) then [lit "c"; lit "c++"]
  else [lit "c"].

(** What [index.parse] gives for one language argument: an exception with
    its text, or a translation unit with the texts of its diagnostics of
    severity [Error] and above and its cursor. *)
Inductive ParseAttempt :=
| ParseRaised (exc : list Z)
| Parsed (errors : list (list Z)) (tu : Cursor).

(** The assignment to [function.signature_norm] in [parse_source_file]: the
    normalised signature, or the text made of the types when the
    normalisation raises. *)
Definition set_signature_norm `{UnicodeTables}
    (normalise : Language -> list Z -> option (list Z)) (language : list Z)
    (function : Function) : Function :=
  {| fn_name := fn_name function;
     fn_location := fn_location function;
     fn_return_type := fn_return_type function;
     fn_parameters := fn_parameters function;
     fn_is_variadic := fn_is_variadic function;
     fn_signature_norm :=
       Some match function_normalised_signature normalise function language with
            | Some sig => sig
            | None =>
                fn_return_type function ++ lit " ( "
                  ++ join (lit ", ") (param_types_of function) ++ lit " )"
            end |}.

(** The loop of [parse_source_file] over the languages still to try;
    [parse arg] is [index.parse] for this path with the language argument
    [arg]. [None] stands for an exception that leaves the function. *)
Fixpoint parse_languages `{UnicodeTables} (parse : list Z -> ParseAttempt)
    (normalise : Language -> list Z -> option (list Z))
    (resolve : list Z -> option (list Z)) (path : list Z)
    (languages : list (list Z)) (parse_errors : list (list Z))
  : option (list Function * option (list Z)) :=
  match languages with
  | [] =>
      match parse_errors with
      | [] => Some ([], Some (lit "Unsupported file type"))
      | _ :: _ => Some ([], Some (join [10] parse_errors))
      end
  | language :: languages' =>
      match parse (_clang_language_arg language) with
      | ParseRaised exc =>
          parse_languages parse normalise resolve path languages'
            (parse_errors ++ [language ++ lit ": libclang parse failed: " ++ exc])
      | Parsed (e :: errors) _ =>
          parse_languages parse normalise resolve path languages'
            (parse_errors ++ [language ++ lit ": " ++ join [10] (e :: errors)])
      | Parsed [] tu =>
          match iter_functions resolve tu (Some path) with
          | Some functions =>
              Some (set_signature_norm normalise language <$> functions, None)
          | None => None
          end
      end
  end.

(** [parse_source_file(path, mtime, size, index)] for an index that is not
    [None]; [suffix] is [Path(path).suffix.lower()]. *)
Definition parse_source_file `{UnicodeTables} (parse : list Z -> ParseAttempt)
    (normalise : Language -> list Z -> option (list Z))
    (resolve : list Z -> option (list Z)) (path suffix : list Z)
  : option (list Function * option (list Z)) :=
  parse_languages parse normalise resolve path
    (_language_candidates_for_path suffix) [].

(** What [_worker_loop] puts in the result of a task that it does not drop:
    the error of the index that could not be created ([create_exc] is the
    text of the exception of [cindex.Index.create()]), what
    [parse_source_file] returned, or no function and the text [traceback]
    of [traceback.format_exc] when it raised. *)
Definition worker_parse (create_exc : option (list Z))
    (returned : option (list Function * option (list Z)))
    (traceback : list Z) : list Function * option (list Z) :=
  match create_exc with
  | Some exc => ([], Some (lit "Failed to initialize libclang index: " ++ exc))
  | None =>
      match returned with
      | Some parsed => parsed
      | None => ([], Some traceback)
      end
  end.

(** *** Queue items *)

(** A task [(path, mtime, size)]. *)
Definition Task : Type := list Z * Z * Z.

(** A result [{path, mtime, size, functions, error}]. *)
Record Result := {
  r_path : list Z;
  r_mtime : Z;
  r_size : Z;
  r_functions : list Function;
  r_error : option (list Z)
}.

(** *** Discovery *)

Inductive StatResult :=
| StatOk (mtime size : Z)
| StatOSError.

(** What the operating system answers for one file name of the walk:
    [Path(filename).suffix.lower()], the resolved path ([None] when an
    exception other than the [OSError] of [stat] escapes the loop body at
    this file), and the result of [stat]. *)
Record FileEntry := {
  fe_suffix : list Z;
  fe_path : option (list Z);
  fe_stat : StatResult
}.

(** [C_EXTENSIONS | CPP_EXTENSIONS | HEADER_EXTENSIONS] *)
Definition source_extensions : list (list Z) :=
  [lit ".c"; lit ".cc"; lit ".cpp"; lit ".cxx"; lit ".c++";
   lit ".h"; lit ".hh"; lit ".hpp"; lit ".hxx"].

(** The point that [_discover_files] has reached. [dirs] are the
    directories that [os.walk] has still to yield, each with its file
    names. *)
Inductive Discovery :=
| DWalk (dirs : list (list FileEntry))
| DFiles (filenames : list FileEntry) (dirs : list (list FileEntry))
| DCounted (task : Task) (filenames : list FileEntry) (dirs : list (list FileEntry))
| DQueued (filenames : list FileEntry) (dirs : list (list FileEntry))
| DFinally (sentinels_left : nat) (raised : bool)
| DDone (raised : bool).

(** What one step of discovery does to the shared objects. *)
Inductive DiscAction :=
| DALocal
| DAInc (increments : list (Counter * Z))
| DAPut (item : option Task).

(** One step of [_discover_files]; [cancel] is [cancel_event.is_set()] at
    this step. *)
Definition discover_step (workers : nat) (known_states : gmap (list Z) (Z * Z))
    (cancel : bool) (d : Discovery) : option (DiscAction * Discovery) :=
  match d with
  | DWalk [] => Some (DALocal, DFinally workers false)
  | DWalk (filenames :: dirs) =>
      if cancel then Some (DALocal, DFinally workers false)
      else Some (DALocal, DFiles filenames dirs)
  | DFiles [] dirs => Some (DALocal, DWalk dirs)
  | DFiles (e :: filenames) dirs =>
      if cancel then Some (DALocal, DWalk dirs)
      else if negb (bool_decide (fe_suffix e ∈ source_extensions))
      then Some (DALocal, DFiles filenames dirs)
      else
        match fe_path e with
        | None => Some (DALocal, DFinally workers true)
        | Some file_path =>
            match fe_stat e with
            | StatOSError => Some (DALocal, DFiles filenames dirs)
            | StatOk mtime size =>
                Some (DAInc [(FilesTotal, 1)],
                      DCounted (file_path, mtime, size) filenames dirs)
            end
        end
  | DCounted (file_path, mtime, size) filenames dirs =>
      if bool_decide (known_states !! file_path = Some (mtime, size))
      then Some (DAInc [(FilesSkipped, 1); (FilesDone, 1)], DFiles filenames dirs)
      else Some (DAPut (Some (file_path, mtime, size)), DQueued filenames dirs)
  | DQueued filenames dirs =>
      Some (DAInc [(FilesQueued, 1)], DFiles filenames dirs)
  | DFinally (S k) raised => Some (DAPut None, DFinally k raised)
  | DFinally O raised => Some (DALocal, DDone raised)
  | DDone _ => None
  end.

(** *** Workers *)

(** The point that one [_worker_loop] has reached: waiting in
    [task_queue.get()], holding a task, holding the sentinel, or returned. *)
Inductive Worker :=
| WGet
| WTask (task : Task)
| WSentinel
| WExit.

Definition worker_get (item : option Task) : Worker :=
  match item with
  | None => WSentinel
  | Some task => WTask task
  end.

(** The handling of one task: nothing is put when the run is cancelled;
    otherwise the result made of what the parser collaborator gave
    ([functions], [error]), which also stands for the result with
    [index_error] and for the one made of a parser exception. *)
Definition worker_task (cancel : bool) (task : Task)
    (parsed : list Function * option (list Z)) : option Result :=
  if cancel then None
  else
    let '(path, mtime, size) := task in
    Some {| r_path := path; r_mtime := mtime; r_size := size;
            r_functions := parsed.1; r_error := parsed.2 |}.

(** *** Writer *)

(** The body of the loop of [_writer_loop] for one result, when none of its
    statements raises; [now] is [time.time()]. *)
Definition apply_result (db : Db) (tracker : Progress) (item : Result) (now : Z)
  : Db * Progress :=
  let '(db, file_id) :=
    get_or_create_file db (r_path item) (r_mtime item) (r_size item) in
  if truthy (r_error item) then
    (mark_file_error db file_id (r_mtime item) (r_size item)
       (default [] (r_error item)) now,
     inc tracker [(FilesFailed, 1); (FilesDone, 1)])
  else
    let db := replace_functions_for_file db file_id (r_functions item) in
    let db := mark_file_parsed db file_id (r_mtime item) (r_size item) now in
    (db, inc tracker [(FilesIndexed, 1); (FilesDone, 1);
                      (FunctionsTotal, Z.of_nat (length (r_functions item)))]).

(** Every statement of the loop body for this result can bind its
    parameters: the path in [get_or_create_file], then the error text in
    [mark_file_error], or the texts of the functions in
    [replace_functions_for_file]. When one cannot, the statement raises;
    [_writer_loop] has no [except], so the exception leaves the loop,
    [db.close()] in [finally] drops what the body has written since the
    last [commit], and the thread ends. *)
Definition binds_result (item : Result) : bool :=
  binds_text (r_path item)
  && (if truthy (r_error item) then binds_text (default [] (r_error item))
      else forallb binds_function (r_functions item)).

Record Writer := {
  finished_workers : nat;
  (** the loop is left and the connection closed *)
  closed : bool;
  (** the loop was left by an exception *)
  crashed : bool
}.

(** *** The run *)

Record System := {
  discovery : Discovery;
  worker_threads : list Worker;
  writer : Writer;
  task_queue : list (option Task);
  result_queue : list (option Result);
  cancel_event : bool;
  tracker : Progress;
  db : Db;
  (** everything ever put on the task queue, oldest first *)
  task_puts : list (option Task);
  (** everything ever put on the result queue, with the worker that put it *)
  result_puts : list (nat * option Result)
}.

(** [workers] as [run_index] fixes it; [cpu_count] is [os.cpu_count()]. *)
Definition effective_workers (workers : Z) (cpu_count : option Z) : nat :=
  if workers <=? 0
  then Z.to_nat (Z.max 1 (match cpu_count with Some n => if n =? 0 then 1 else n | None => 1 end))
  else Z.to_nat workers.

(** [maxsize] of the task queue. *)
Definition task_queue_maxsize (workers : nat) : nat := Nat.max 16 (workers * 8).

(** The fixed data of a run: the tree as the walk finds it, the number of
    workers, and the snapshot [known_states]. *)
Record Run := {
  walk : list (list FileEntry);
  workers : nat;
  known_states : gmap (list Z) (Z * Z)
}.

(** The run of [run_index] on the store [db0]. *)
Definition run_of (tree : list (list FileEntry)) (workers_ : nat) (db0 : Db) : Run :=
  {| walk := tree; workers := workers_; known_states := iter_file_states db0 |}.

(** The state when the threads are started. [cancel] is the state of the
    caller's event, [now] the start time. *)
Definition start (R : Run) (db0 : Db) (cancel : bool) (now : Z) : System :=
  {| discovery := DWalk (walk R);
     worker_threads := replicate (workers R) WGet;
     writer := {| finished_workers := 0; closed := false; crashed := false |};
     task_queue := [];
     result_queue := [];
     cancel_event := cancel;
     tracker := set_run new_tracker true false (Some now) None;
     db := db0;
     task_puts := [];
     result_puts := [] |}.

(** One step of one thread, or the setting of the cancellation flag by the
    caller or by the progress callback. *)
Inductive step (R : Run) (s : System) : System -> Prop :=
| step_cancel :
    step R s
      {| discovery := discovery s; worker_threads := worker_threads s;
         writer := writer s; task_queue := task_queue s;
         result_queue := result_queue s; cancel_event := true;
         tracker := tracker s; db := db s;
         task_puts := task_puts s; result_puts := result_puts s |}
| step_discovery_local d' :
    discover_step (workers R) (known_states R) (cancel_event s) (discovery s)
      = Some (DALocal, d') ->
    step R s
      {| discovery := d'; worker_threads := worker_threads s;
         writer := writer s; task_queue := task_queue s;
         result_queue := result_queue s; cancel_event := cancel_event s;
         tracker := tracker s; db := db s;
         task_puts := task_puts s; result_puts := result_puts s |}
| step_discovery_inc increments d' :
    discover_step (workers R) (known_states R) (cancel_event s) (discovery s)
      = Some (DAInc increments, d') ->
    step R s
      {| discovery := d'; worker_threads := worker_threads s;
         writer := writer s; task_queue := task_queue s;
         result_queue := result_queue s; cancel_event := cancel_event s;
         tracker := inc (tracker s) increments; db := db s;
         task_puts := task_puts s; result_puts := result_puts s |}
| step_discovery_put item d' :
    discover_step (workers R) (known_states R) (cancel_event s) (discovery s)
      = Some (DAPut item, d') ->
    (length (task_queue s) < task_queue_maxsize (workers R))%nat ->
    step R s
      {| discovery := d'; worker_threads := worker_threads s;
         writer := writer s; task_queue := task_queue s ++ [item];
         result_queue := result_queue s; cancel_event := cancel_event s;
         tracker := tracker s; db := db s;
         task_puts := task_puts s ++ [item]; result_puts := result_puts s |}
| step_worker_get i item rest :
    worker_threads s !! i = Some WGet ->
    task_queue s = item :: rest ->
    step R s
      {| discovery := discovery s;
         worker_threads := <[i := worker_get item]> (worker_threads s);
         writer := writer s; task_queue := rest;
         result_queue := result_queue s; cancel_event := cancel_event s;
         tracker := tracker s; db := db s;
         task_puts := task_puts s; result_puts := result_puts s |}
| step_worker_cancelled i task parsed :
    worker_threads s !! i = Some (WTask task) ->
    worker_task (cancel_event s) task parsed = None ->
    step R s
      {| discovery := discovery s;
         worker_threads := <[i := WGet]> (worker_threads s);
         writer := writer s; task_queue := task_queue s;
         result_queue := result_queue s; cancel_event := cancel_event s;
         tracker := tracker s; db := db s;
         task_puts := task_puts s; result_puts := result_puts s |}
| step_worker_result i task parsed result :
    worker_threads s !! i = Some (WTask task) ->
    worker_task (cancel_event s) task parsed = Some result ->
    step R s
      {| discovery := discovery s;
         worker_threads := <[i := WGet]> (worker_threads s);
         writer := writer s; task_queue := task_queue s;
         result_queue := result_queue s ++ [Some result];
         cancel_event := cancel_event s;
         tracker := tracker s; db := db s;
         task_puts := task_puts s;
         result_puts := result_puts s ++ [(i, Some result)] |}
| step_worker_sentinel i :
    worker_threads s !! i = Some WSentinel ->
    step R s
      {| discovery := discovery s;
         worker_threads := <[i := WExit]> (worker_threads s);
         writer := writer s; task_queue := task_queue s;
         result_queue := result_queue s ++ [None];
         cancel_event := cancel_event s;
         tracker := tracker s; db := db s;
         task_puts := task_puts s;
         result_puts := result_puts s ++ [(i, None)] |}
| step_writer_sentinel rest :
    closed (writer s) = false ->
    (finished_workers (writer s) < workers R)%nat ->
    result_queue s = None :: rest ->
    step R s
      {| discovery := discovery s; worker_threads := worker_threads s;
         writer := {| finished_workers := finished_workers (writer s) + 1;
                      closed := false; crashed := crashed (writer s) |};
         task_queue := task_queue s;
         result_queue := rest; cancel_event := cancel_event s;
         tracker := tracker s; db := db s;
         task_puts := task_puts s; result_puts := result_puts s |}
| step_writer_result item rest now :
    closed (writer s) = false ->
    (finished_workers (writer s) < workers R)%nat ->
    result_queue s = Some item :: rest ->
    binds_result item = true ->
    step R s
      {| discovery := discovery s; worker_threads := worker_threads s;
         writer := writer s; task_queue := task_queue s;
         result_queue := rest; cancel_event := cancel_event s;
         tracker := (apply_result (db s) (tracker s) item now).2;
         db := (apply_result (db s) (tracker s) item now).1;
         task_puts := task_puts s; result_puts := result_puts s |}
| step_writer_raise item rest :
    (** sqlite3 raises in the body for this result, because a text cannot
        be bound or for a reason of its own: the result is lost, nothing of
        it is committed or counted, and the thread ends *)
    closed (writer s) = false ->
    (finished_workers (writer s) < workers R)%nat ->
    result_queue s = Some item :: rest ->
    step R s
      {| discovery := discovery s; worker_threads := worker_threads s;
         writer := {| finished_workers := finished_workers (writer s);
                      closed := true; crashed := true |};
         task_queue := task_queue s;
         result_queue := rest; cancel_event := cancel_event s;
         tracker := tracker s; db := db s;
         task_puts := task_puts s; result_puts := result_puts s |}
| step_writer_close :
    closed (writer s) = false ->
    ~ (finished_workers (writer s) < workers R)%nat ->
    step R s
      {| discovery := discovery s; worker_threads := worker_threads s;
         writer := {| finished_workers := finished_workers (writer s);
                      closed := true; crashed := crashed (writer s) |};
         task_queue := task_queue s;
         result_queue := result_queue s; cancel_event := cancel_event s;
         tracker := tracker s; db := db s;
         task_puts := task_puts s; result_puts := result_puts s |}.

(** The choice of the scheduler and of the environment at one step: which
    thread moves, with what the parser collaborator or the clock gives.
    In a move the writer raises exactly when a text cannot be bound. *)
Inductive Move :=
| MCancel
| MDiscover
| MWorkerGet (i : nat)
| MWorkerTask (i : nat) (parsed : list Function * option (list Z))
| MWorkerSentinel (i : nat)
| MWriter (now : Z).

(** The state after one move, when the thread can move. *)
Definition move (R : Run) (m : Move) (s : System) : option System :=
  match m with
  | MCancel =>
      Some {| discovery := discovery s; worker_threads := worker_threads s;
              writer := writer s; task_queue := task_queue s;
              result_queue := result_queue s; cancel_event := true;
              tracker := tracker s; db := db s;
              task_puts := task_puts s; result_puts := result_puts s |}
  | MDiscover =>
      match discover_step (workers R) (known_states R) (cancel_event s) (discovery s) with
      | Some (DALocal, d') =>
          Some {| discovery := d'; worker_threads := worker_threads s;
                  writer := writer s; task_queue := task_queue s;
                  result_queue := result_queue s; cancel_event := cancel_event s;
                  tracker := tracker s; db := db s;
                  task_puts := task_puts s; result_puts := result_puts s |}
      | Some (DAInc increments, d') =>
          Some {| discovery := d'; worker_threads := worker_threads s;
                  writer := writer s; task_queue := task_queue s;
                  result_queue := result_queue s; cancel_event := cancel_event s;
                  tracker := inc (tracker s) increments; db := db s;
                  task_puts := task_puts s; result_puts := result_puts s |}
      | Some (DAPut item, d') =>
          if decide (length (task_queue s) < task_queue_maxsize (workers R))%nat
          then Some {| discovery := d'; worker_threads := worker_threads s;
                       writer := writer s; task_queue := task_queue s ++ [item];
                       result_queue := result_queue s;
                       cancel_event := cancel_event s;
                       tracker := tracker s; db := db s;
                       task_puts := task_puts s ++ [item];
                       result_puts := result_puts s |}
          else None
      | None => None
      end
  | MWorkerGet i =>
      match worker_threads s !! i, task_queue s with
      | Some WGet, item :: rest =>
          Some {| discovery := discovery s;
                  worker_threads := <[i := worker_get item]> (worker_threads s);
                  writer := writer s; task_queue := rest;
                  result_queue := result_queue s; cancel_event := cancel_event s;
                  tracker := tracker s; db := db s;
                  task_puts := task_puts s; result_puts := result_puts s |}
      | _, _ => None
      end
  | MWorkerTask i parsed =>
      match worker_threads s !! i with
      | Some (WTask task) =>
          match worker_task (cancel_event s) task parsed with
          | None =>
              Some {| discovery := discovery s;
                      worker_threads := <[i := WGet]> (worker_threads s);
                      writer := writer s; task_queue := task_queue s;
                      result_queue := result_queue s;
                      cancel_event := cancel_event s;
                      tracker := tracker s; db := db s;
                      task_puts := task_puts s; result_puts := result_puts s |}
          | Some result =>
              Some {| discovery := discovery s;
                      worker_threads := <[i := WGet]> (worker_threads s);
                      writer := writer s; task_queue := task_queue s;
                      result_queue := result_queue s ++ [Some result];
                      cancel_event := cancel_event s;
                      tracker := tracker s; db := db s;
                      task_puts := task_puts s;
                      result_puts := result_puts s ++ [(i, Some result)] |}
          end
      | _ => None
      end
  | MWorkerSentinel i =>
      match worker_threads s !! i with
      | Some WSentinel =>
          Some {| discovery := discovery s;
                  worker_threads := <[i := WExit]> (worker_threads s);
                  writer := writer s; task_queue := task_queue s;
                  result_queue := result_queue s ++ [None];
                  cancel_event := cancel_event s;
                  tracker := tracker s; db := db s;
                  task_puts := task_puts s;
                  result_puts := result_puts s ++ [(i, None)] |}
      | _ => None
      end
  | MWriter now =>
      if closed (writer s) then None
      else if decide (finished_workers (writer s) < workers R)%nat then
        match result_queue s with
        | [] => None
        | None :: rest =>
            Some {| discovery := discovery s; worker_threads := worker_threads s;
                    writer := {| finished_workers := finished_workers (writer s) + 1;
                                 closed := false; crashed := crashed (writer s) |};
                    task_queue := task_queue s;
                    result_queue := rest; cancel_event := cancel_event s;
                    tracker := tracker s; db := db s;
                    task_puts := task_puts s; result_puts := result_puts s |}
        | Some item :: rest =>
            if binds_result item then
              Some {| discovery := discovery s; worker_threads := worker_threads s;
                      writer := writer s; task_queue := task_queue s;
                      result_queue := rest; cancel_event := cancel_event s;
                      tracker := (apply_result (db s) (tracker s) item now).2;
                      db := (apply_result (db s) (tracker s) item now).1;
                      task_puts := task_puts s; result_puts := result_puts s |}
            else
              Some {| discovery := discovery s; worker_threads := worker_threads s;
                      writer := {| finished_workers := finished_workers (writer s);
                                   closed := true; crashed := true |};
                      task_queue := task_queue s;
                      result_queue := rest; cancel_event := cancel_event s;
                      tracker := tracker s; db := db s;
                      task_puts := task_puts s; result_puts := result_puts s |}
        end
      else
        Some {| discovery := discovery s; worker_threads := worker_threads s;
                writer := {| finished_workers := finished_workers (writer s);
                             closed := true; crashed := crashed (writer s) |};
                task_queue := task_queue s;
                result_queue := result_queue s; cancel_event := cancel_event s;
                tracker := tracker s; db := db s;
                task_puts := task_puts s; result_puts := result_puts s |}
  end.

(** The state after a schedule. *)
Fixpoint moves (R : Run) (schedule : list Move) (s : System) : option System :=
  match schedule with
  | [] => Some s
  | m :: schedule' => s' ← move R m s; moves R schedule' s'
  end.

(** The states that a run passes through. *)
Definition reachable (R : Run) (db0 : Db) (cancel : bool) (now : Z)
    (s : System) : Prop :=
  rtc (step R) (start R db0 cancel now) s.

(** All threads have returned: [run_index] has joined them. *)
Definition joined (s : System) : Prop :=
  (exists raised, discovery s = DDone raised)
  /\ Forall (fun w => w = WExit) (worker_threads s)
  /\ closed (writer s) = true.

(** The summary that [run_index] returns from a state with all threads
    joined; [now] is the end time. *)
Definition summary (s : System) (now : Z) : Progress :=
  set_run (tracker s) false (cancel_event s) (start_time (tracker s)) (Some now).

End CsigIndexer.

(** ** Vocabulary of the statements *)

(** A three-way comparison that behaves like one: swapping the arguments
    swaps the answer, equal elements compare alike, and [Lt] composes. *)
Record CmpOrder {A} (cmp : A -> A -> comparison) : Prop := {
  cmp_opp : forall x y, cmp y x = CompOpp (cmp x y);
  cmp_eq_l : forall x y z, cmp x y = Eq -> cmp x z = cmp y z;
  cmp_lt_trans : forall x y z, cmp x y = Lt -> cmp y z = Lt -> cmp x z = Lt
}.

(** Every element is at most every later one. *)
Definition sorted_by {A} (le : A -> A -> bool) (l : list A) : Prop :=
  StronglySorted (fun x y => le x y = true) l.

(** The score of a row as a number, and the row with its score as the sort
    sees it. *)
Definition score_value `{UnicodeTables} (query : CsigCore.Query)
    (row : CsigDb.Candidate) : nat :=
  default 0%nat (Csig.score query row).

Definition scored_row `{UnicodeTables} (query : CsigCore.Query)
    (row : CsigDb.Candidate) : nat * CsigDb.Candidate :=
  (score_value query row, row).

(** *** The orders as the specification words them

    These follow the text of the specification, not the comparisons of
    the code: tuples are compared component by component, the first
    component that differs deciding, and texts are compared code by code,
    a proper prefix coming first. *)










(** The number of elements of a list that pass a test. *)
Definition count_if {A} (f : A -> bool) (l : list A) : nat :=
  length (filter (fun x => f x = true) l).

Definition is_some {A} (o : option A) : bool :=
  match o with Some _ => true | None => false end.

Definition is_none {A} (o : option A) : bool :=
  match o with Some _ => false | None => true end.

Definition holds_task (w : CsigIndexer.Worker) : bool :=
  match w with CsigIndexer.WTask _ => true | _ => false end.

(** The worker has taken its sentinel from the task queue. *)
Definition took_sentinel (w : CsigIndexer.Worker) : bool :=
  match w with CsigIndexer.WSentinel | CsigIndexer.WExit => true | _ => false end.

Definition has_exited (w : CsigIndexer.Worker) : bool :=
  match w with CsigIndexer.WExit => true | _ => false end.

(** The files that are on their way from discovery to the writer: tasks in
    the task queue, tasks held by a worker, results in the result queue. *)
Definition in_flight (s : CsigIndexer.System) : Z :=
  Z.of_nat (count_if is_some (CsigIndexer.task_queue s)
            + count_if holds_task (CsigIndexer.worker_threads s)
            + count_if is_some (CsigIndexer.result_queue s)).

(** Discovery has counted a file in [files_total] and not yet skipped or
    enqueued it. *)
Definition counted (d : CsigIndexer.Discovery) : Z :=
  match d with CsigIndexer.DCounted _ _ _ => 1 | _ => 0 end.

(** The termination sentinels that discovery has put on the task queue. *)
Definition sentinels_put (s : CsigIndexer.System) : nat :=
  count_if is_none (CsigIndexer.task_puts s).

(** The termination sentinels that discovery has still to put. *)
Definition sentinels_due (workers_ : nat) (d : CsigIndexer.Discovery) : nat :=
  match d with
  | CsigIndexer.DFinally k _ => k
  | CsigIndexer.DDone _ => 0
  | _ => workers_
  end.

(** The completion sentinels that worker [i] has put on the result queue. *)
Definition worker_sentinels (i : nat) (s : CsigIndexer.System) : nat :=
  count_if (fun put => Nat.eqb put.1 i && is_none put.2) (CsigIndexer.result_puts s).

(** A bound on the number of steps that discovery has still to take. *)
Definition discovery_measure (workers_ : nat) (d : CsigIndexer.Discovery) : nat :=
  let files_steps (filenames : list CsigIndexer.FileEntry) := (3 * length filenames + 1)%nat in
  let dirs_steps (dirs : list (list CsigIndexer.FileEntry)) :=
    (foldr (fun filenames n => files_steps filenames + 1 + n) 0 dirs + workers_ + 2)%nat in
  match d with
  | CsigIndexer.DWalk dirs => dirs_steps dirs
  | CsigIndexer.DFiles filenames dirs => files_steps filenames + dirs_steps dirs
  | CsigIndexer.DCounted _ filenames dirs => 2 + files_steps filenames + dirs_steps dirs
  | CsigIndexer.DQueued filenames dirs => 1 + files_steps filenames + dirs_steps dirs
  | CsigIndexer.DFinally k _ => k + 1
  | CsigIndexer.DDone _ => 0
  end%nat.

(** The task that discovery makes of a file name, if it makes one: the
    extension is a source extension, the path resolves and [stat] answers. *)
Definition valid_task (e : CsigIndexer.FileEntry) : option CsigIndexer.Task :=
  if bool_decide (CsigIndexer.fe_suffix e ∈ CsigIndexer.source_extensions) then
    match CsigIndexer.fe_path e, CsigIndexer.fe_stat e with
    | Some file_path, CsigIndexer.StatOk mtime size => Some (file_path, mtime, size)
    | _, _ => None
    end
  else None.

Definition tasks_of_files (filenames : list CsigIndexer.FileEntry)
  : list CsigIndexer.Task :=
  omap valid_task filenames.

(** The files of a tree that discovery counts when nothing stops it. *)
Definition tasks_of_dirs (dirs : list (list CsigIndexer.FileEntry))
  : list CsigIndexer.Task :=
  tasks_of_files (concat dirs).

(** The files that discovery has still to decide on. *)
Definition remaining (d : CsigIndexer.Discovery) : list CsigIndexer.Task :=
  match d with
  | CsigIndexer.DWalk dirs => tasks_of_dirs dirs
  | CsigIndexer.DFiles filenames dirs => tasks_of_files filenames ++ tasks_of_dirs dirs
  | CsigIndexer.DCounted task filenames dirs =>
      task :: tasks_of_files filenames ++ tasks_of_dirs dirs
  | CsigIndexer.DQueued filenames dirs => tasks_of_files filenames ++ tasks_of_dirs dirs
  | CsigIndexer.DFinally _ _ | CsigIndexer.DDone _ => []
  end.

(** An exception has ended the walk. *)
Definition raised (d : CsigIndexer.Discovery) : bool :=
  match d with
  | CsigIndexer.DFinally _ r | CsigIndexer.DDone r => r
  | _ => false
  end.

Definition task_of_result (r : CsigIndexer.Result) : CsigIndexer.Task :=
  (CsigIndexer.r_path r, CsigIndexer.r_mtime r, CsigIndexer.r_size r).

Definition task_of_worker (w : CsigIndexer.Worker) : option CsigIndexer.Task :=
  match w with CsigIndexer.WTask task => Some task | _ => None end.

(** The tasks on their way from discovery to the writer. *)
Definition pending (s : CsigIndexer.System) : list CsigIndexer.Task :=
  omap id (CsigIndexer.task_queue s)
  ++ omap task_of_worker (CsigIndexer.worker_threads s)
  ++ omap (fmap task_of_result) (CsigIndexer.result_queue s).

(** The store knows the file with this modification time and size. *)
Definition stored (db : CsigDb.Db) (task : CsigIndexer.Task) : Prop :=
  CsigDb.iter_file_states db !! task.1.1 = Some (task.1.2, task.2).

(** A path of the tree has one modification time and one size. *)
Definition stat_functional (tree : list (list CsigIndexer.FileEntry)) : Prop :=
  forall t1 t2 : CsigIndexer.Task,
    t1 ∈ tasks_of_dirs tree -> t2 ∈ tasks_of_dirs tree ->
    t1.1.1 = t2.1.1 -> t1 = t2.

(** What the schema of [files] guarantees: paths and numbers are unique, and
    no number exceeds the counter of [AUTOINCREMENT]. *)
Definition well_formed (db : CsigDb.Db) : Prop :=
  NoDup (CsigDb.fi_path <$> CsigDb.files db)
  /\ NoDup (CsigDb.fi_id <$> CsigDb.files db)
  /\ Forall (fun r => CsigDb.fi_id r <= CsigDb.files_seq db) (CsigDb.files db).

(** Data of the examples: the functions of the test suite. *)
Definition example_function (path name_ : list Z) (line_ : Z) : CsigCore.Function :=
  {| CsigCore.fn_name := name_;
     CsigCore.fn_location :=
       {| CsigCore.file_name := path; CsigCore.line := line_; CsigCore.column := 1 |};
     CsigCore.fn_return_type := lit "int";
     CsigCore.fn_parameters := [(lit "int", Some (lit "x"))];
     CsigCore.fn_is_variadic := false;
     CsigCore.fn_signature_norm := Some (lit "int ( int )") |}.

(** A successful result for [a.c] with the functions [foo] and [bar], and a
    failed one for the same file. *)
Definition example_result_ok : CsigIndexer.Result :=
  {| CsigIndexer.r_path := lit "a.c"; CsigIndexer.r_mtime := 1; CsigIndexer.r_size := 10;
     CsigIndexer.r_functions :=
       [example_function (lit "a.c") (lit "foo") 1;
        example_function (lit "a.c") (lit "bar") 2];
     CsigIndexer.r_error := None |}.

Definition example_result_error : CsigIndexer.Result :=
  {| CsigIndexer.r_path := lit "a.c"; CsigIndexer.r_mtime := 2; CsigIndexer.r_size := 11;
     CsigIndexer.r_functions := [];
     CsigIndexer.r_error := Some (lit "c: a.c:1:1: error: expected identifier") |}.

(** A later successful result for [a.c], now with the one function [baz]. *)
Definition example_result_baz : CsigIndexer.Result :=
  {| CsigIndexer.r_path := lit "a.c"; CsigIndexer.r_mtime := 3; CsigIndexer.r_size := 12;
     CsigIndexer.r_functions := [example_function (lit "a.c") (lit "baz") 1];
     CsigIndexer.r_error := None |}.

(** The store after the successful result has been applied to a new
    store at time 100. *)
Definition example_db : CsigDb.Db :=
  (CsigIndexer.apply_result CsigDb.init_db CsigIndexer.new_tracker
     example_result_ok 100).1.

(** A tree with the one directory that holds [a.c] and [notes.txt]. *)
Definition example_tree : list (list CsigIndexer.FileEntry) :=
  [[ {| CsigIndexer.fe_suffix := lit ".c";
        CsigIndexer.fe_path := Some (lit "/src/a.c");
        CsigIndexer.fe_stat := CsigIndexer.StatOk 1 10 |};
     {| CsigIndexer.fe_suffix := lit ".txt";
        CsigIndexer.fe_path := Some (lit "/src/notes.txt");
        CsigIndexer.fe_stat := CsigIndexer.StatOk 1 5 |} ]].

(** A first run over the tree on a new store with one worker: discovery
    enqueues [a.c], the worker parses it, the writer applies the result. *)
Definition example_schedule1 : list CsigIndexer.Move :=
  [CsigIndexer.MDiscover; CsigIndexer.MDiscover; CsigIndexer.MDiscover;
   CsigIndexer.MWorkerGet 0;
   CsigIndexer.MWorkerTask 0 ([example_function (lit "/src/a.c") (lit "a") 1], None);
   CsigIndexer.MDiscover; CsigIndexer.MDiscover; CsigIndexer.MDiscover;
   CsigIndexer.MWriter 100;
   CsigIndexer.MDiscover; CsigIndexer.MDiscover; CsigIndexer.MDiscover;
   CsigIndexer.MWorkerGet 0; CsigIndexer.MWorkerSentinel 0;
   CsigIndexer.MWriter 101; CsigIndexer.MWriter 102].

Definition example_run1 : CsigIndexer.Run :=
  CsigIndexer.run_of example_tree 1 CsigDb.init_db.

Definition example_start1 : CsigIndexer.System :=
  CsigIndexer.start example_run1 CsigDb.init_db false 99.

(** The state at the end of the first run. *)
Definition example_end1 : CsigIndexer.System :=
  default example_start1 (CsigIndexer.moves example_run1 example_schedule1 example_start1).

(** The second run over the same tree, on the store that the first left. *)
Definition example_schedule2 : list CsigIndexer.Move :=
  [CsigIndexer.MDiscover; CsigIndexer.MDiscover; CsigIndexer.MDiscover;
   CsigIndexer.MDiscover; CsigIndexer.MDiscover; CsigIndexer.MDiscover;
   CsigIndexer.MDiscover; CsigIndexer.MDiscover;
   CsigIndexer.MWorkerGet 0; CsigIndexer.MWorkerSentinel 0;
   CsigIndexer.MWriter 201; CsigIndexer.MWriter 202].

Definition example_run2 : CsigIndexer.Run :=
  CsigIndexer.run_of example_tree 1 (CsigIndexer.db example_end1).

Definition example_start2 : CsigIndexer.System :=
  CsigIndexer.start example_run2 (CsigIndexer.db example_end1) false 200.

Definition example_end2 : CsigIndexer.System :=
  default example_start2 (CsigIndexer.moves example_run2 example_schedule2 example_start2).

(** A run over the tree that is cancelled before it starts: discovery
    leaves the walk at once and puts the sentinel, the worker passes it on,
    the writer counts it. *)
Definition example_schedule_cancelled : list CsigIndexer.Move :=
  [CsigIndexer.MDiscover; CsigIndexer.MDiscover;
   CsigIndexer.MWorkerGet 0; CsigIndexer.MWorkerSentinel 0;
   CsigIndexer.MWriter 100; CsigIndexer.MDiscover; CsigIndexer.MWriter 101].

Definition example_start_cancelled : CsigIndexer.System :=
  CsigIndexer.start example_run1 CsigDb.init_db true 99.

Definition example_end_cancelled : CsigIndexer.System :=
  default example_start_cancelled
    (CsigIndexer.moves example_run1 example_schedule_cancelled example_start_cancelled).









(** A header that is C++ only: parsed as C, libclang reports an error;
    parsed as C++, it gives a translation unit without declarations. *)
Definition example_tu : CsigCore.Cursor :=
  {| CsigCore.cu_kind := CsigCore.OTHER_KIND; CsigCore.cu_file := None;
     CsigCore.cu_line := 0; CsigCore.cu_column := 0;
     CsigCore.cu_spelling := lit "/src/a.h";
     CsigCore.cu_type_spelling := []; CsigCore.cu_result_type_spelling := [];
     CsigCore.cu_is_function_variadic := None; CsigCore.cu_children := [] |}.

Definition example_parse_cpp (arg : list Z) : CsigIndexer.ParseAttempt :=
  if bool_decide (arg = lit "-xc++") then CsigIndexer.Parsed [] example_tu
  else CsigIndexer.Parsed [lit "/src/a.h:1:1: error: unknown type name"] example_tu.

(** The candidates of the ranking test: [subtract] and [add] of [a.c]. *)
Definition example_candidates : list CsigDb.Candidate :=
  [ {| CsigDb.c_id := 1; CsigDb.c_path := lit "a.c"; CsigDb.c_name := lit "subtract";
       CsigDb.c_return_type := lit "int";
       CsigDb.c_params := [(lit "int", Some (lit "x"))];
       CsigDb.c_signature_norm := lit "int ( int , int )";
       CsigDb.c_line := 20; CsigDb.c_column := 1 |};
    {| CsigDb.c_id := 2; CsigDb.c_path := lit "a.c"; CsigDb.c_name := lit "add";
       CsigDb.c_return_type := lit "int";
       CsigDb.c_params := [(lit "int", Some (lit "x"))];
       CsigDb.c_signature_norm := lit "int ( int , int )";
       CsigDb.c_line := 10; CsigDb.c_column := 1 |} ].

Definition example_query : CsigCore.Query :=
  {| CsigCore.name := Some (lit "add");
     CsigCore.normalised_signature := Some (lit "int ( int , int )") |}.

(** A query whose name matches no function of [example_db]. *)
Definition example_query_nomatch : CsigCore.Query :=
  {| CsigCore.name := Some (lit "zzz"); CsigCore.normalised_signature := None |}.

(** The first [k] entries of row [i] of the edit-distance table. *)
Definition lev_row (a b : list Z) (i k : nat) : list nat :=
  CsigCore.lev_rec a b i <$> seq 0 k.

(** What the schema and the code guarantee of the store as a whole: the
    rows of [files] are well formed, the numbers of the rows of [functions]
    are unique and not above the counter of [AUTOINCREMENT], and every row
    of [functions] refers to a row of [files]. *)
Definition store_integrity (db : CsigDb.Db) : Prop :=
  well_formed db
  /\ NoDup (CsigDb.f_id <$> CsigDb.functions db)
  /\ Forall (fun r => CsigDb.f_id r <= CsigDb.functions_seq db) (CsigDb.functions db)
  /\ Forall (fun r => CsigDb.f_file_id r ∈ CsigDb.fi_id <$> CsigDb.files db)
       (CsigDb.functions db).




(** Discovery has put a task on the queue and not yet counted it in
    [files_queued]. *)
Definition enqueued (d : CsigIndexer.Discovery) : Z :=
  match d with CsigIndexer.DQueued _ _ => 1 | _ => 0 end.

(** The tasks that discovery has put on the task queue, the tasks of the
    results that the workers have put on the result queue, and the tasks
    that wait in the task queue or in the hands of a worker. *)
Definition queued_tasks (s : CsigIndexer.System) : list CsigIndexer.Task :=
  omap id (CsigIndexer.task_puts s).

Definition parsed_tasks (s : CsigIndexer.System) : list CsigIndexer.Task :=
  omap (fun put : nat * option CsigIndexer.Result => task_of_result <$> put.2)
    (CsigIndexer.result_puts s).

Definition waiting_tasks (s : CsigIndexer.System) : list CsigIndexer.Task :=
  omap id (CsigIndexer.task_queue s)
  ++ omap task_of_worker (CsigIndexer.worker_threads s).

(** No counter of [q] is below that of [p], and the other fields are the
    same. *)
Definition counters_le (p q : CsigIndexer.Progress) : Prop :=
  CsigIndexer.files_total p <= CsigIndexer.files_total q
  /\ CsigIndexer.files_queued p <= CsigIndexer.files_queued q
  /\ CsigIndexer.files_done p <= CsigIndexer.files_done q
  /\ CsigIndexer.files_skipped p <= CsigIndexer.files_skipped q
  /\ CsigIndexer.files_indexed p <= CsigIndexer.files_indexed q
  /\ CsigIndexer.files_failed p <= CsigIndexer.files_failed q
  /\ CsigIndexer.functions_total p <= CsigIndexer.functions_total q
  /\ CsigIndexer.running p = CsigIndexer.running q
  /\ CsigIndexer.canceled p = CsigIndexer.canceled q
  /\ CsigIndexer.start_time p = CsigIndexer.start_time q
  /\ CsigIndexer.end_time p = CsigIndexer.end_time q.

(** The three tests that make [_build_fake_declaration] leave the text as
    it is, up to the semicolon. *)
Definition kept_as_written `{UnicodeTables} (s : list Z) : bool :=
  negb (contains (lit "(") s) || negb (contains (lit ")") s)
  || contains (lit "__q__") s
  || search_word_paren false s && negb (contains (lit " (") s).

(** Every white-space character of the text is one space (code point 32)
    that does not follow another white-space character; [after_space] says
    whether the text comes after a white-space character. *)
Fixpoint single_spaced (after_space : bool) (s : list Z) : bool :=
  match s with
  | [] => true
  | c :: s' =>
      if is_space c then (c =? 32) && negb after_space && single_spaced true s'
      else single_spaced false s'
  end.


(* ===================================================================== *)
(** * Part II: properties                                                 *)
(* ===================================================================== *)

(** ** Orders given by a comparison, and the stable sort *)

Section Orders.

Lemma cmp_eq_r {A} (cmp : A -> A -> comparison) (H : CmpOrder cmp) x y z :
  cmp y z = Eq -> cmp x z = cmp x y.
Proof.
  intros Hyz.
  assert (Hzy : cmp z y = Eq) by (rewrite (cmp_opp _ H), Hyz; reflexivity).
  pose proof (cmp_eq_l _ H z y x Hzy) as Hx.
  rewrite (cmp_opp _ H x z), (cmp_opp _ H x y) in Hx.
  destruct (cmp x z), (cmp x y); simpl in Hx; congruence.
Qed.

Lemma CmpOrder_Z : CmpOrder Z.compare.
Proof.
  split.
  - intros x y. apply Z.compare_antisym.
  - intros x y z Hxy. apply Z.compare_eq in Hxy. congruence.
  - intros x y z. rewrite !Z.compare_lt_iff. lia.
Qed.

Lemma CmpOrder_nat : CmpOrder Nat.compare.
Proof.
  split.
  - intros x y. apply Nat.compare_antisym.
  - intros x y z Hxy. apply Nat.compare_eq in Hxy. congruence.
  - intros x y z. rewrite !Nat.compare_lt_iff. lia.
Qed.


Lemma list_compare_eq (a b : list Z) : list_compare a b = Eq -> a = b.
Proof.
  revert b. induction a as [|x a IH]; intros [|y b]; simpl; try discriminate.
  - reflexivity.
  - destruct (Z.compare_spec x y); try discriminate.
    intros Hab. f_equal; auto.
Qed.

Lemma CmpOrder_list : CmpOrder list_compare.
Proof.
  split.
  - intros a. induction a as [|x a IH]; intros [|y b]; simpl; try reflexivity.
    rewrite (Z.compare_antisym y x).
    destruct (y ?= x); simpl; auto.
  - intros x y z Hxy. apply list_compare_eq in Hxy. congruence.
  - intros a. induction a as [|x a IH]; intros [|y b] [|z c]; simpl;
      try discriminate; try reflexivity.
    destruct (Z.compare_spec x y), (Z.compare_spec y z); try discriminate;
      subst; intros Hab Hbc.
    + rewrite Z.compare_refl. eauto.
    + destruct (Z.compare_spec y z); try lia. reflexivity.
    + destruct (Z.compare_spec x z); try lia. reflexivity.
    + destruct (Z.compare_spec x z); try lia. reflexivity.
Qed.

(** Comparing through a key. *)
Lemma CmpOrder_on {A B} (cmp : A -> A -> comparison) (k : B -> A) :
  CmpOrder cmp -> CmpOrder (fun x y => cmp (k x) (k y)).
Proof.
  intros H. split; intros.
  - apply (cmp_opp _ H).
  - apply (cmp_eq_l _ H); assumption.
  - eapply (cmp_lt_trans _ H); eassumption.
Qed.

(** Comparing tuples component by component. *)
Lemma CmpOrder_lex {A} (f g : A -> A -> comparison) :
  CmpOrder f -> CmpOrder g -> CmpOrder (fun x y => lex (f x y) (g x y)).
Proof.
  intros Hf Hg. split.
  - intros x y. rewrite (cmp_opp _ Hf x y), (cmp_opp _ Hg x y).
    destruct (f x y); reflexivity.
  - intros x y z Hxy.
    assert (f x y = Eq /\ g x y = Eq) as [Hf1 Hg1]
      by (unfold lex in Hxy; destruct (f x y); try discriminate; auto).
    rewrite (cmp_eq_l _ Hf x y z Hf1), (cmp_eq_l _ Hg x y z Hg1). reflexivity.
  - intros x y z Hxy Hyz. unfold lex in *.
    destruct (f x y) eqn:Hfxy; try discriminate.
    + rewrite (cmp_eq_l _ Hf x y z Hfxy).
      destruct (f y z) eqn:Hfyz; try discriminate; try reflexivity.
      eapply (cmp_lt_trans _ Hg); eassumption.
    + destruct (f y z) eqn:Hfyz; try discriminate.
      * rewrite (cmp_eq_r _ Hf x y z Hfyz), Hfxy. reflexivity.
      * rewrite (cmp_lt_trans _ Hf x y z Hfxy Hfyz). reflexivity.
Qed.

Context {A : Type} (cmp : A -> A -> comparison) (Hcmp : CmpOrder cmp).

Let le (x y : A) : bool := not_gt (cmp x y).

Lemma not_gt_total x y : le x y = true \/ le y x = true.
Proof.
  unfold le. rewrite (cmp_opp _ Hcmp x y).
  destruct (cmp x y); simpl; auto.
Qed.

Lemma not_gt_trans x y z : le x y = true -> le y z = true -> le x z = true.
Proof.
  unfold le. intros Hxy Hyz.
  destruct (cmp x y) eqn:Exy; try discriminate.
  - rewrite (cmp_eq_l _ Hcmp x y z Exy). exact Hyz.
  - destruct (cmp y z) eqn:Eyz; try discriminate.
    + rewrite (cmp_eq_r _ Hcmp x y z Eyz), Exy. reflexivity.
    + rewrite (cmp_lt_trans _ Hcmp x y z Exy Eyz). reflexivity.
Qed.

Lemma insert_sorted_perm x (l : list A) :
  Permutation (insert_sorted le x l) (x :: l).
Proof.
  induction l as [|y l IH]; simpl; [reflexivity|].
  destruct (le x y); [reflexivity|].
  rewrite IH. apply perm_swap.
Qed.

Lemma stable_sort_perm (l : list A) : Permutation (stable_sort le l) l.
Proof.
  induction l as [|x l IH]; simpl; [reflexivity|].
  rewrite insert_sorted_perm, IH. reflexivity.
Qed.

Lemma stable_sort_length (l : list A) : length (stable_sort le l) = length l.
Proof. apply Permutation_length, stable_sort_perm. Qed.

Lemma insert_sorted_sorted x (l : list A) :
  sorted_by le l -> sorted_by le (insert_sorted le x l).
Proof.
  unfold sorted_by. induction 1 as [|y l Hl IH Hy]; simpl.
  - repeat constructor.
  - destruct (le x y) eqn:Hxy.
    + constructor; [constructor; assumption|].
      constructor; [assumption|].
      eapply Forall_impl; [exact Hy|].
      intros z Hz. eapply not_gt_trans; eassumption.
    + constructor; [assumption|].
      rewrite insert_sorted_perm. constructor; [|assumption].
      destruct (not_gt_total x y); congruence.
Qed.

Lemma stable_sort_sorted (l : list A) : sorted_by le (stable_sort le l).
Proof.
  induction l as [|x l IH]; simpl; [constructor|].
  apply insert_sorted_sorted, IH.
Qed.





End Orders.

(** Splits a goal [CmpOrder] along the shape of the comparison. *)
Ltac cmp_order :=
  repeat lazymatch goal with
  | |- CmpOrder (fun x y => lex (@?f x y) (@?g x y)) =>
      apply (CmpOrder_lex f g)
  | |- CmpOrder (fun x y => Nat.compare (@?k x) (@?k' y)) =>
      apply (CmpOrder_on Nat.compare k CmpOrder_nat)
  | |- CmpOrder (fun x y => Z.compare (@?k x) (@?k' y)) =>
      apply (CmpOrder_on Z.compare k CmpOrder_Z)
  | |- CmpOrder (fun x y => list_compare (@?k x) (@?k' y)) =>
      apply (CmpOrder_on list_compare k CmpOrder_list)
  end.

(** ** Query parsing *)

Section QueryParsing.
Import CsigCore.

(** The two scenarios of the test suite, with its stand-ins for the
    normalisation collaborator. *)
Example parse_query_builds_fake_signature :
  @parse_query ascii_tables (fun _ _ => Some (lit "int __q__ ( int , int ) ;"))
    (lit "int (int, int)")
  = {| calls := [(LangC, lit "int __q__ (int, int);")];
       returned := Some {| name := None;
                           normalised_signature := Some (lit "int ( int , int )") |} |}.
Proof. vm_compute. reflexivity. Qed.

Example parse_query_name_and_blank_signature :
  @parse_query ascii_tables (fun _ _ => Some (lit "ignored")) (lit "foo ::   ")
  = {| calls := [];
       returned := Some {| name := Some (lit "foo");
                           normalised_signature := None |} |}.
Proof. vm_compute. reflexivity. Qed.

Lemma lstrip_blank (s : list Z) :
  Forall (fun c => is_space c = true) s -> lstrip s = [].
Proof.
  induction 1 as [|c s Hc _ IH]; [reflexivity|].
  simpl. rewrite Hc. exact IH.
Qed.

Lemma strip_blank (s : list Z) :
  Forall (fun c => is_space c = true) s -> strip s = [].
Proof. intros Hs. unfold strip. rewrite lstrip_blank by assumption. reflexivity. Qed.

Lemma starts_with_app (p s : list Z) : starts_with p (p ++ s) = true.
Proof.
  induction p as [|a p IH]; [reflexivity|].
  simpl. rewrite Z.eqb_refl. exact IH.
Qed.

(** A text without colon, then the separator: the separator found is the
    one written. *)
Lemma split_once_first (pre post : list Z) :
  58 ∉ pre ->
  split_once (lit "::") (pre ++ lit "::" ++ post) = Some (pre, post).
Proof.
  intros Hpre. unfold split_once.
  assert (Hfind : find (lit "::") (pre ++ lit "::" ++ post) = Some (length pre)).
  { induction pre as [|c pre IH]; [reflexivity|].
    apply not_elem_of_cons in Hpre as [Hc Hpre].
    cbn [app find]. change (lit "::") with [58; 58] at 1.
    cbn [starts_with].
    destruct (Z.eqb_spec 58 c); [congruence|].
    cbn [andb]. rewrite IH by assumption. reflexivity. }
  rewrite Hfind. cbn [mbind option_bind]. f_equal. f_equal.
  - rewrite take_app_length. reflexivity.
  - rewrite drop_app_add'  by reflexivity. reflexivity.
Qed.

(** C8. When the text after the [::] separator is blank, [parse_query]
    returns the query with the stripped name (or no name when that is empty)
    and no normalised signature, and makes no call to the normalisation
    collaborator; for the text ["foo ::   "] the name is ["foo"]. *)
Theorem parse_query_blank_signature `{UnicodeTables}
    (normalise : Language -> list Z -> option (list Z))
    (query_str name_part sig_part : list Z) :
  split_once (lit "::") query_str = Some (name_part, sig_part) ->
  Forall (fun c => is_space c = true) sig_part ->
  parse_query normalise query_str
  = {| calls := [];
       returned := Some {| name := or_none (strip name_part);
                           normalised_signature := None |} |}.
Proof.
  intros Hsplit Hblank. unfold parse_query.
  rewrite Hsplit, strip_blank by assumption. reflexivity.
Qed.

Lemma parse_query_blank_signature_witness :
  split_once (lit "::") (lit "foo ::   ") = Some (lit "foo ", lit "   ")
  /\ Forall (fun c => is_space c = true) (lit "   ")
  /\ @parse_query ascii_tables (fun _ _ => None) (lit "foo ::   ")
     = {| calls := [];
          returned := Some {| name := Some (lit "foo");
                              normalised_signature := None |} |}.
Proof.
  assert (Hs : split_once (lit "::") (lit "foo ::   ") = Some (lit "foo ", lit "   "))
    by reflexivity.
  assert (Hb : Forall (fun c => is_space c = true) (lit "   "))
    by (repeat constructor).
  split; [exact Hs|]. split; [exact Hb|].
  exact (@parse_query_blank_signature ascii_tables (fun _ _ => None)
           (lit "foo ::   ") (lit "foo ") (lit "   ") Hs Hb).
Defined.

End QueryParsing.

(** ** Edit distance *)

Section Levenshtein.
Import CsigCore.

Lemma for_each_app {S A} (body : S -> A -> option S) (xs ys : list A) (s : S) :
  for_each body (xs ++ ys) s = s' ← for_each body xs s; for_each body ys s'.
Proof.
  revert s. induction xs as [|x xs IH]; intros s; simpl.
  - reflexivity.
  - destruct (body s x) as [s'|]; simpl; [apply IH | reflexivity].
Qed.

Lemma lev_rec_0 a b j : lev_rec a b 0 j = j.
Proof. reflexivity. Qed.

Lemma lev_rec_S0 a b i : lev_rec a b (S i) 0 = S i.
Proof. reflexivity. Qed.

Lemma lev_rec_SS a b i j :
  lev_rec a b (S i) (S j) =
  min3 (lev_rec a b (S i) j + 1) (lev_rec a b i (S j) + 1)
    (lev_rec a b i j + (if decide (a !! i = b !! j) then 0 else 1))%nat.
Proof. reflexivity. Qed.

Lemma lev_rec_col0 a b i : lev_rec a b i 0 = i.
Proof. destruct i; reflexivity. Qed.

Lemma min3_swap x y z : min3 x y z = min3 y x z.
Proof. unfold min3. lia. Qed.

(** The recurrence is symmetric. *)
Lemma lev_rec_sym a b i j : lev_rec a b i j = lev_rec b a j i.
Proof.
  revert j. induction i as [|i IHi]; intros j.
  - rewrite lev_rec_0, lev_rec_col0. reflexivity.
  - induction j as [|j IHj].
    + reflexivity.
    + rewrite !lev_rec_SS, IHj, !IHi, min3_swap.
      destruct (decide (a !! i = b !! j)), (decide (b !! j = a !! i));
        congruence.
Qed.

(** The diagonal of the table of a string against itself is zero. *)
Lemma lev_rec_diag a i : lev_rec a a i i = 0%nat.
Proof.
  induction i as [|i IH]; [reflexivity|].
  rewrite lev_rec_SS, IH. rewrite decide_True by reflexivity.
  unfold min3. lia.
Qed.

Lemma lev_row_length a b i k : length (lev_row a b i k) = k.
Proof. unfold lev_row. rewrite length_fmap, length_seq. reflexivity. Qed.

Lemma lev_row_lookup a b i k j :
  (j < k)%nat -> lev_row a b i k !! j = Some (lev_rec a b i j).
Proof.
  intros Hj. unfold lev_row. rewrite list_lookup_fmap, lookup_seq_lt by lia.
  reflexivity.
Qed.

Lemma lev_row_S a b i k :
  lev_row a b i (S k) = lev_row a b i k ++ [lev_rec a b i k].
Proof. unfold lev_row. rewrite seq_S, fmap_app. reflexivity. Qed.

Lemma lev_row_0 a b k : lev_row a b 0 k = seq 0 k.
Proof.
  unfold lev_row. induction (seq 0 k) as [|x xs IH]; [reflexivity|].
  rewrite fmap_cons, IH. reflexivity.
Qed.

#[local] Opaque lev_rec lev_row.

(** The inner loop fills the current row from left to right. *)
Lemma lev_inner_loop a b i ai cur0 k :
  a !! i = Some ai ->
  length cur0 = S (length b) ->
  cur0 !! 0%nat = Some (S i) ->
  (k <= length b)%nat ->
  for_each (lev_inner ai b (lev_row a b i (S (length b)))) (seq 1 k) cur0
  = Some (lev_row a b (S i) (S k) ++ drop (S k) cur0).
Proof.
  intros Hai Hlen H0. induction k as [|k IH]; intros Hk.
  - simpl. f_equal. destruct cur0 as [|c cur0]; [discriminate|].
    simpl in H0. injection H0 as ->. reflexivity.
  - rewrite seq_S, for_each_app, IH by lia. simpl.
    unfold lev_inner. replace (S k - 1)%nat with k by lia.
    destruct (lookup_lt_is_Some_2 b k) as [bj Hbj]; [lia|].
    rewrite Hbj. simpl.
    rewrite lookup_app_l by (rewrite lev_row_length; lia).
    rewrite !lev_row_lookup by lia. simpl.
    unfold set_item. rewrite decide_True
      by (rewrite length_app, lev_row_length, length_drop; lia).
    f_equal.
    rewrite insert_app_r_alt by (rewrite lev_row_length; lia).
    rewrite lev_row_length. replace (S k - S k)%nat with 0%nat by lia.
    destruct (drop (S k) cur0) as [|c rest] eqn:Hd.
    { apply (f_equal length) in Hd. rewrite length_drop in Hd.
      simpl in Hd. lia. }
    assert (Hrest : drop (S (S k)) cur0 = rest).
    { replace (S (S k)) with (S k + 1)%nat by lia.
      rewrite <- drop_drop, Hd. reflexivity. }
    simpl. rewrite (lev_row_S a b (S i) (S k)), <- app_assoc, Hrest. simpl.
    rewrite lev_rec_SS, Hai, Hbj.
    destruct (decide (ai = bj)), (decide (Some ai = Some bj));
      congruence.
Qed.

(** One turn of the outer loop turns row [i] into row [i+1]. *)
Lemma lev_outer_step a b i cur :
  (i < length a)%nat ->
  length cur = S (length b) ->
  lev_outer a b (length b) (lev_row a b i (S (length b)), cur) (S i)
  = Some (lev_row a b (S i) (S (length b)), lev_row a b i (S (length b))).
Proof.
  intros Hi Hlen. unfold lev_outer, set_item.
  rewrite decide_True by lia. simpl.
  replace (i - 0)%nat with i by lia.
  destruct (lookup_lt_is_Some_2 a i Hi) as [ai Hai]. rewrite Hai. simpl.
  rewrite (lev_inner_loop a b i ai) with (k := length b);
    [| assumption | rewrite length_insert; assumption
     | destruct cur; [discriminate | reflexivity] | lia ].
  simpl. rewrite drop_ge by (rewrite length_insert; lia).
  rewrite app_nil_r. reflexivity.
Qed.

Lemma lev_outer_loop a b k cur :
  (k <= length a)%nat ->
  length cur = S (length b) ->
  exists cur',
    for_each (lev_outer a b (length b)) (seq 1 k)
      (lev_row a b 0 (S (length b)), cur)
    = Some (lev_row a b k (S (length b)), cur')
    /\ length cur' = S (length b).
Proof.
  intros Hk Hlen. induction k as [|k IH].
  - exists cur. split; [reflexivity | assumption].
  - destruct IH as (cur' & Hrun & Hlen'); [lia|].
    rewrite seq_S, for_each_app, Hrun.
    cbn [mbind option_bind for_each Nat.add].
    rewrite lev_outer_step by (assumption || lia).
    cbn [mbind option_bind].
    eexists. split; [reflexivity | apply lev_row_length].
Qed.

(** The rolling-row program computes the table entry [(n, m)] and never
    indexes out of range. *)
Lemma lev_bytes_rec a b :
  lev_bytes a b = Some (lev_rec a b (length a) (length b)).
Proof.
  unfold lev_bytes.
  destruct (decide (length a = 0%nat)) as [Ha|Ha].
  { rewrite Ha. reflexivity. }
  destruct (decide (length b = 0%nat)) as [Hb|Hb].
  { rewrite Hb, lev_rec_col0. reflexivity. }
  destruct (lev_outer_loop a b (length a) (replicate (length b + 1) 0%nat))
    as (cur' & Hrun & _); [lia | rewrite length_replicate; lia |].
  replace (length b + 1)%nat with (S (length b)) by lia.
  replace (length b + 1)%nat with (S (length b)) in Hrun by lia.
  rewrite <- (lev_row_0 a b), Hrun. simpl. apply lev_row_lookup. lia.
Qed.


Lemma levenshtein_distance_rec `{UnicodeTables} (a b : list Z) :
  levenshtein_distance a b =
  Some (lev_rec (utf8_encode (str_lower a)) (utf8_encode (str_lower b))
          (length (utf8_encode (str_lower a)))
          (length (utf8_encode (str_lower b)))).
Proof. apply lev_bytes_rec. Qed.

Lemma str_lower_nil `{UnicodeTables} : str_lower [] = [].
Proof. rewrite str_lower_ascii by constructor. reflexivity. Qed.

Lemma ascii_lower_cp_ascii c : is_ascii c -> is_ascii (ascii_lower_cp c).
Proof. unfold is_ascii, ascii_lower_cp. case_match; lia. Qed.

Lemma utf8_encode_ascii (s : list Z) :
  Forall is_ascii s -> utf8_encode s = s.
Proof.
  induction 1 as [|c s Hc _ IH]; [reflexivity|].
  unfold utf8_encode in *. cbn [mbind list_bind]. rewrite IH.
  unfold utf8_encode_cp. destruct (Z.ltb_spec c 128); [reflexivity|].
  unfold is_ascii in Hc. lia.
Qed.

(** C9. For all strings [a] and [b] the edit distance is returned (no index
    is out of range), [edit_distance(a, b) == edit_distance(b, a)], and
    [edit_distance(a, a) == 0]. *)
Theorem levenshtein_distance_symmetric_zero `{UnicodeTables} (a b : list Z) :
  (exists d, levenshtein_distance a b = Some d
             /\ levenshtein_distance b a = Some d)
  /\ levenshtein_distance a a = Some 0%nat.
Proof.
  split.
  - eexists. split; [apply levenshtein_distance_rec|].
    rewrite levenshtein_distance_rec. f_equal. apply lev_rec_sym.
  - rewrite levenshtein_distance_rec. f_equal. apply lev_rec_diag.
Qed.

(** C5, as the code has it. [edit_distance("", b)] is the number of bytes of
    the UTF-8 encoding of the lowercased [b]; when [b] is ASCII text this is
    [len(b)]. *)
Theorem levenshtein_distance_empty_left `{UnicodeTables} (b : list Z) :
  levenshtein_distance [] b = Some (length (utf8_encode (str_lower b)))
  /\ (Forall is_ascii b -> levenshtein_distance [] b = Some (length b)).
Proof.
  assert (Hgen : levenshtein_distance [] b
                 = Some (length (utf8_encode (str_lower b)))).
  { unfold levenshtein_distance. rewrite str_lower_nil. reflexivity. }
  split; [exact Hgen|].
  intros Hb. rewrite Hgen, str_lower_ascii by assumption.
  rewrite utf8_encode_ascii, length_fmap; [reflexivity|].
  apply Forall_fmap. eapply Forall_impl; [exact Hb|].
  intros c Hc. apply ascii_lower_cp_ascii, Hc.
Qed.

Lemma levenshtein_distance_empty_left_witness :
  Forall is_ascii (lit "abc")
  /\ @levenshtein_distance ascii_tables [] (lit "abc") = Some 3%nat.
Proof.
  assert (Ha : Forall is_ascii (lit "abc")).
  { repeat constructor; unfold is_ascii; simpl; lia. }
  split; [exact Ha|].
  exact (proj2 (@levenshtein_distance_empty_left ascii_tables (lit "abc")) Ha).
Defined.

(** C5, as stated, fails: the one-character string "é" (U+00E9, its own lower
    case) is two bytes long in UTF-8, so its distance to the empty string is
    2 while [len] is 1. *)
Lemma levenshtein_distance_empty_left_not_len :
  @levenshtein_distance ascii_tables [] [233] = Some 2%nat
  /\ length [233] = 1%nat
  /\ ~ (forall b : list Z,
          @levenshtein_distance ascii_tables [] b = Some (length b)).
Proof.
  split; [vm_compute; reflexivity|]. split; [reflexivity|].
  intros Hall. specialize (Hall [233]). vm_compute in Hall. discriminate.
Qed.

Example lev_kitten :
  @levenshtein_distance ascii_tables (lit "kitten") (lit "sitting") = Some 3%nat.
Proof. vm_compute. reflexivity. Qed.

Example lev_foo :
  @levenshtein_distance ascii_tables (lit "Foo") (lit "foo") = Some 0%nat.
Proof. vm_compute. reflexivity. Qed.

End Levenshtein.

(** ** The comparisons of the code and the orders of the specification *)

Section SpecifiedOrders.










End SpecifiedOrders.

(** ** Ranking *)

Section Ranking.
Import CsigCore CsigDb Csig.
Context `{UnicodeTables}.

Lemma key_compare_order : CmpOrder key_compare.
Proof. unfold key_compare. cmp_order. Qed.



Lemma score_returns (query : Query) (row : Candidate) :
  score query row = Some (score_value query row).
Proof.
  unfold score_value, score.
  destruct (truthy (name query)), (truthy (normalised_signature query));
    rewrite ?levenshtein_distance_rec; reflexivity.
Qed.

Lemma score_all (query : Query) (candidates : list Candidate) :
  mapM (fun row => s ← score query row; Some (s, row)) candidates
  = Some (scored_row query <$> candidates).
Proof.
  induction candidates as [|row rows IH]; [reflexivity|].
  cbn [mapM]. rewrite IH, score_returns. reflexivity.
Qed.

Lemma rank_candidates_eq (candidates : list Candidate) (query : Query) (top : Z) :
  rank_candidates candidates query top
  = Some (snd <$> take (Z.to_nat (Z.max 0 top))
                    (stable_sort key_le (scored_row query <$> candidates))).
Proof. unfold rank_candidates. rewrite score_all. reflexivity. Qed.




End Ranking.



(** ** The store and the writer *)

Section Store.
Import CsigCore CsigDb CsigIndexer.


Lemma filter_none {A} (P : A -> Prop) `{forall x, Decision (P x)} (l : list A) :
  Forall (fun x => ~ P x) l -> filter P l = [].
Proof.
  induction 1 as [|x l Hx _ IH]; [reflexivity|].
  rewrite filter_cons_False, IH by assumption. reflexivity.
Qed.

Lemma get_or_create_file_functions db path mtime size :
  functions (get_or_create_file db path mtime size).1 = functions db
  /\ functions_seq (get_or_create_file db path mtime size).1 = functions_seq db.
Proof.
  unfold get_or_create_file. destruct (List.find _ _); split; reflexivity.
Qed.

Lemma insert_functions_spec file_id seq fs :
  Forall (fun r => f_file_id r = file_id /\ seq < f_id r)
    (insert_functions file_id seq fs)
  /\ length (insert_functions file_id seq fs) = length fs.
Proof.
  revert seq. induction fs as [|f fs IH]; intros seq; simpl.
  - split; [constructor | reflexivity].
  - destruct (IH (seq + 1)) as [Hall Hlen]. split; [|rewrite Hlen; reflexivity].
    constructor; [simpl; split; [reflexivity | lia]|].
    eapply Forall_impl; [exact Hall|]. simpl. intros r [? ?]. split; [assumption|lia].
Qed.




Lemma find_fmap_keep {A} (f : A -> bool) (g : A -> A) (l : list A) :
  (forall x, f (g x) = f x) ->
  List.find f (g <$> l) = g <$> List.find f l.
Proof.
  intros Hfg. induction l as [|x l IH]; [reflexivity|].
  rewrite fmap_cons. cbn [List.find]. rewrite Hfg.
  destruct (f x); [reflexivity | exact IH].
Qed.

Lemma find_app_none {A} (f : A -> bool) (l l' : list A) :
  List.find f l = None -> List.find f (l ++ l') = List.find f l'.
Proof.
  induction l as [|x l IH]; [reflexivity|].
  cbn [List.find app]. destruct (f x); [discriminate | exact IH].
Qed.

Lemma file_of_update_files db file_id upd path :
  (forall r, fi_path (upd r) = fi_path r) ->
  file_of (update_files db file_id upd) path
  = (fun r => if decide (fi_id r = file_id) then upd r else r) <$> file_of db path.
Proof.
  intros Hupd. unfold file_of, update_files. cbn [files].
  apply find_fmap_keep. intros r.
  destruct (decide (fi_id r = file_id)); [rewrite Hupd|]; reflexivity.
Qed.

(** After the upsert the row of the path exists, carries the number that
    was returned and the new modification time and size. *)
Lemma file_of_get_or_create db path mtime size :
  exists row,
    file_of (get_or_create_file db path mtime size).1 path = Some row
    /\ fi_id row = (get_or_create_file db path mtime size).2
    /\ fi_path row = path /\ fi_mtime row = mtime /\ fi_size row = size.
Proof.
  unfold get_or_create_file.
  destruct (List.find _ (files db)) as [row|] eqn:Hfind.
  - cbn [fst snd]. rewrite file_of_update_files by reflexivity.
    unfold file_of. rewrite Hfind. cbn [fmap option_fmap option_map].
    rewrite decide_True by reflexivity.
    eexists. split; [reflexivity|]. cbn.
    apply find_some in Hfind as [_ Hp]. apply bool_decide_eq_true in Hp. auto.
  - cbn [fst snd]. unfold file_of. cbn [files].
    rewrite find_app_none by assumption. cbn [List.find fi_path].
    rewrite bool_decide_eq_true_2 by reflexivity.
    eexists. split; [reflexivity|]. cbn. auto.
Qed.

Lemma inc_two p k1 d1 k2 d2 :
  inc p [(k1, d1); (k2, d2)] = add_counter (add_counter p (k1, d1)) (k2, d2).
Proof. reflexivity. Qed.

(** The writer's turn on a result at the head of the queue: the body of
    the loop runs to its end when the store can bind the texts of the
    result, and otherwise the statement raises and the thread ends. *)
Lemma writer_takes_result (R : Run) (s : System) (item : Result)
    (rest : list (option Result)) (now : Z) :
  closed (writer s) = false ->
  (finished_workers (writer s) < workers R)%nat ->
  result_queue s = Some item :: rest ->
  exists s',
    move R (MWriter now) s = Some s' /\ step R s s' /\ result_queue s' = rest
    /\ if binds_result item
       then db s' = (apply_result (db s) (tracker s) item now).1
            /\ tracker s' = (apply_result (db s) (tracker s) item now).2
            /\ writer s' = writer s
       else db s' = db s /\ tracker s' = tracker s
            /\ closed (writer s') = true /\ crashed (writer s') = true.
Proof.
  intros Hopen Hlt Hq. cbn [move]. rewrite Hopen, Hq.
  destruct (decide _) as [_|Hge]; [|contradiction].
  destruct (binds_result item) eqn:Hbinds.
  - eexists. split; [reflexivity|].
    split; [eapply step_writer_result; eassumption|]. cbn. auto.
  - eexists. split; [reflexivity|].
    split; [eapply step_writer_raise; eassumption|]. cbn. auto.
Qed.

(** The row that the writer leaves for a result whose error is set. *)
Lemma apply_result_failed_row (store : Db) (progress : Progress)
    (item : Result) (now : Z) :
  truthy (r_error item) = true ->
  exists row,
    file_of (apply_result store progress item now).1 (r_path item) = Some row
    /\ fi_last_error row = r_error item /\ fi_parsed_at row = Some now.
Proof.
  intros Herr. unfold apply_result.
  destruct (file_of_get_or_create store (r_path item) (r_mtime item) (r_size item))
    as (row & Hrow & Hid & _ & _ & _).
  destruct (get_or_create_file store (r_path item) (r_mtime item) (r_size item))
    as [db1 file_id]. cbn [fst snd] in *.
  rewrite Herr. cbn [fst]. unfold mark_file_error.
  rewrite file_of_update_files by reflexivity.
  rewrite Hrow. cbn [fmap option_fmap option_map].
  rewrite decide_True by assumption.
  eexists. split; [reflexivity|]. cbn.
  destruct (r_error item) as [[|c e]|]; try discriminate. auto.
Qed.

(** The row that the writer leaves for a result without error. *)
Lemma apply_result_indexed_row (store : Db) (progress : Progress)
    (item : Result) (now : Z) :
  truthy (r_error item) = false ->
  exists row,
    file_of (apply_result store progress item now).1 (r_path item) = Some row
    /\ fi_last_error row = None.
Proof.
  intros Herr. unfold apply_result.
  destruct (file_of_get_or_create store (r_path item) (r_mtime item) (r_size item))
    as (row & Hrow & Hid & _ & _ & _).
  destruct (get_or_create_file store (r_path item) (r_mtime item) (r_size item))
    as [db1 file_id]. cbn [fst snd] in *.
  rewrite Herr. cbn [fst]. unfold mark_file_parsed.
  rewrite file_of_update_files by reflexivity.
  unfold file_of in *. cbn [files replace_functions_for_file] in *.
  rewrite Hrow. cbn [fmap option_fmap option_map].
  rewrite decide_True by assumption.
  eexists. split; [reflexivity|]. reflexivity.
Qed.




(** *** The snapshot of file states *)

Lemma iter_file_states_snoc (fs : list FileRow) (r : FileRow) seq1 seq2 fns :
  iter_file_states {| files := fs ++ [r]; functions := fns;
                      files_seq := seq1; functions_seq := seq2 |}
  = <[fi_path r := (fi_mtime r, fi_size r)]>
      (iter_file_states {| files := fs; functions := fns;
                           files_seq := seq1; functions_seq := seq2 |}).
Proof. unfold iter_file_states. cbn [files]. rewrite foldl_app. reflexivity. Qed.

Lemma find_snoc {A} (f : A -> bool) (l : list A) (x : A) :
  List.find f (l ++ [x])
  = match List.find f l with
    | Some y => Some y
    | None => if f x then Some x else None
    end.
Proof.
  induction l as [|y l IH]; cbn [List.find app]; [reflexivity|].
  destruct (f y); [reflexivity | exact IH].
Qed.

Lemma find_path_none (fs : list FileRow) (path : list Z) :
  List.find (fun r => bool_decide (fi_path r = path)) fs = None
  <-> path ∉ fi_path <$> fs.
Proof.
  induction fs as [|r fs IH]; cbn [List.find].
  - split; [intros _; apply not_elem_of_nil | reflexivity].
  - rewrite fmap_cons, not_elem_of_cons. case_bool_decide as Hp.
    + split; [discriminate | intros [Hne _]; congruence].
    + rewrite IH. split; [intros ?; split; [congruence | assumption] | intros [_ ?]; assumption].
Qed.

(** With unique paths, the snapshot holds for each path the time and size of
    its row. *)
Lemma iter_file_states_lookup (db : Db) (path : list Z) :
  NoDup (fi_path <$> files db) ->
  iter_file_states db !! path
  = (fun r => (fi_mtime r, fi_size r)) <$> file_of db path.
Proof.
  destruct db as [fs fns seq1 seq2]. unfold file_of. cbn [files].
  induction fs as [|r fs IH] using rev_ind; intros Hnd; [reflexivity|].
  rewrite iter_file_states_snoc, find_snoc.
  rewrite fmap_app in Hnd. apply NoDup_app in Hnd as (Hnd & Hdisj & _).
  specialize (IH Hnd). cbn [files] in IH.
  case_bool_decide as Hp.
  - subst path. rewrite lookup_insert_eq.
    assert (Hnone : List.find (fun r0 => bool_decide (fi_path r0 = fi_path r)) fs = None).
    { apply find_path_none. intros Hin. apply (Hdisj _ Hin). cbn. left. }
    rewrite Hnone. reflexivity.
  - rewrite lookup_insert_ne by assumption. rewrite IH.
    destruct (List.find _ fs); reflexivity.
Qed.

Lemma find_elem {A} (f : A -> bool) (l : list A) (x : A) :
  List.find f l = Some x -> x ∈ l /\ f x = true.
Proof.
  intros Hf. apply find_some in Hf as [Hin Hx].
  split; [apply list_elem_of_In; exact Hin | exact Hx].
Qed.

Lemma NoDup_fmap_eq {A B} (f : A -> B) (l : list A) (x y : A) :
  NoDup (f <$> l) -> x ∈ l -> y ∈ l -> f x = f y -> x = y.
Proof.
  induction l as [|z l IH]; intros Hnd Hx Hy Hxy.
  - apply elem_of_nil in Hx as [].
  - rewrite fmap_cons in Hnd. apply NoDup_cons in Hnd as [Hz Hnd].
    apply elem_of_cons in Hx as [->|Hx]; apply elem_of_cons in Hy as [->|Hy].
    + reflexivity.
    + exfalso. apply Hz. rewrite Hxy. apply list_elem_of_fmap_2. exact Hy.
    + exfalso. apply Hz. rewrite <- Hxy. apply list_elem_of_fmap_2. exact Hx.
    + apply IH; assumption.
Qed.

Lemma fmap_update_keep {B} (g : FileRow -> B) (upd : FileRow -> FileRow)
    (file_id : Z) (fs : list FileRow) :
  (forall r, g (upd r) = g r) ->
  g <$> ((fun r => if decide (fi_id r = file_id) then upd r else r) <$> fs)
  = g <$> fs.
Proof.
  intros Hg. rewrite <- list_fmap_compose. apply list_fmap_ext.
  intros _ r _. cbn. destruct (decide (fi_id r = file_id)); [apply Hg | reflexivity].
Qed.

(** An update that keeps paths and numbers keeps the store well formed. *)
Lemma well_formed_update_files (db : Db) (file_id : Z) (upd : FileRow -> FileRow) :
  (forall r, fi_path (upd r) = fi_path r) ->
  (forall r, fi_id (upd r) = fi_id r) ->
  well_formed db -> well_formed (update_files db file_id upd).
Proof.
  intros Hpath Hid (Hp & Hi & Hseq). unfold well_formed, update_files.
  cbn [files files_seq].
  rewrite !fmap_update_keep by assumption. split; [exact Hp|]. split; [exact Hi|].
  apply Forall_fmap. eapply Forall_impl; [exact Hseq|].
  intros r Hr. cbn. destruct (decide (fi_id r = file_id)); [rewrite Hid|]; exact Hr.
Qed.

(** With unique numbers, an update by number that sets time and size
    changes the snapshot at the path of the row with that number only. *)
Lemma iter_file_states_update_files (db : Db) (row : FileRow)
    (upd : FileRow -> FileRow) (mtime size : Z) :
  (forall r, fi_path (upd r) = fi_path r) ->
  (forall r, fi_mtime (upd r) = mtime /\ fi_size (upd r) = size) ->
  well_formed db -> row ∈ files db ->
  iter_file_states (update_files db (fi_id row) upd)
  = <[fi_path row := (mtime, size)]> (iter_file_states db).
Proof.
  intros Hpath Hval Hwf Hrow. pose proof Hwf as (Hp & Hi & _).
  assert (Hfile : file_of db (fi_path row) = Some row).
  { unfold file_of. destruct (List.find _ (files db)) as [r|] eqn:Hfind.
    - apply find_elem in Hfind as [Hr Heq]. apply bool_decide_eq_true in Heq.
      f_equal. eapply (NoDup_fmap_eq fi_path); eauto.
    - apply find_path_none in Hfind. exfalso. apply Hfind.
      apply list_elem_of_fmap_2. exact Hrow. }
  apply map_eq. intros path.
  rewrite iter_file_states_lookup
    by (unfold update_files; cbn [files]; rewrite fmap_update_keep; assumption).
  rewrite file_of_update_files by assumption.
  destruct (decide (path = fi_path row)) as [->|Hne].
  - rewrite lookup_insert_eq, Hfile. cbn. rewrite decide_True by reflexivity.
    destruct (Hval row) as [-> ->]. reflexivity.
  - rewrite lookup_insert_ne by congruence.
    rewrite iter_file_states_lookup by assumption.
    destruct (file_of db path) as [r|] eqn:Hr; [|reflexivity]. cbn.
    apply find_elem in Hr as [Hin Heq]. apply bool_decide_eq_true in Heq.
    rewrite decide_False; [reflexivity|].
    intros Hid. apply Hne. rewrite <- Heq. f_equal.
    eapply (NoDup_fmap_eq fi_id); eauto.
Qed.

Lemma iter_file_states_functions (fs : list FileRow) fns fns' s1 s2 s2' :
  iter_file_states {| files := fs; functions := fns; files_seq := s1; functions_seq := s2 |}
  = iter_file_states {| files := fs; functions := fns'; files_seq := s1; functions_seq := s2' |}.
Proof. reflexivity. Qed.

(** The upsert keeps the store well formed, returns the number of a row of
    the path, and sets the snapshot at the path. *)
Lemma get_or_create_file_states (db : Db) (path : list Z) (mtime size : Z) :
  well_formed db ->
  well_formed (get_or_create_file db path mtime size).1
  /\ iter_file_states (get_or_create_file db path mtime size).1
     = <[path := (mtime, size)]> (iter_file_states db)
  /\ exists row, row ∈ files (get_or_create_file db path mtime size).1
                 /\ fi_id row = (get_or_create_file db path mtime size).2
                 /\ fi_path row = path.
Proof.
  intros Hwf. unfold get_or_create_file.
  destruct (List.find _ (files db)) as [row|] eqn:Hfind; cbn [fst snd].
  - apply find_elem in Hfind as [Hrow Heq]. apply bool_decide_eq_true in Heq.
    split; [apply well_formed_update_files; auto|]. split.
    + rewrite (iter_file_states_update_files db row _ mtime size); auto.
      rewrite Heq. reflexivity.
    + exists (set_mtime_size mtime size row). split; [|split; [reflexivity | exact Heq]].
      unfold update_files. cbn [files].
      apply list_elem_of_fmap. exists row. split; [|exact Hrow].
      rewrite decide_True by reflexivity. reflexivity.
  - apply find_path_none in Hfind. destruct Hwf as (Hp & Hi & Hseq).
    split; [|split].
    + unfold well_formed. cbn [files files_seq]. rewrite !fmap_app. cbn [fmap list_fmap].
      split; [|split].
      * apply NoDup_app. split; [exact Hp|]. split; [|apply NoDup_singleton].
        intros p Hin Hp'. apply list_elem_of_singleton in Hp'. subst p. exact (Hfind Hin).
      * apply NoDup_app. split; [exact Hi|]. split; [|apply NoDup_singleton].
        intros i Hin Hi'. apply list_elem_of_singleton in Hi'. subst i.
        apply list_elem_of_fmap in Hin as (r & Hr & Hin).
        rewrite Forall_forall in Hseq. specialize (Hseq r Hin). cbn in Hr. lia.
      * apply Forall_app. split.
        -- eapply Forall_impl; [exact Hseq|]. intros r Hr. cbn in *. lia.
        -- constructor; [cbn; lia | constructor].
    + destruct db as [fs fns s1 s2]. cbn [files functions files_seq functions_seq].
      rewrite iter_file_states_snoc. cbn [fi_path fi_mtime fi_size].
      f_equal.
    + eexists. split; [cbn [files]; apply elem_of_app; right; apply list_elem_of_singleton; reflexivity|].
      split; reflexivity.
Qed.

Lemma well_formed_replace (db : Db) (file_id : Z) (fs : list Function) :
  well_formed db -> well_formed (replace_functions_for_file db file_id fs).
Proof. intros Hwf. exact Hwf. Qed.

(** Applying a result keeps the store well formed and sets the snapshot at
    the path of the result to its modification time and size, whether the
    parse succeeded or failed. *)
Lemma apply_result_states (db : Db) (progress : Progress) (item : Result) (now : Z) :
  well_formed db ->
  well_formed (apply_result db progress item now).1
  /\ iter_file_states (apply_result db progress item now).1
     = <[r_path item := (r_mtime item, r_size item)]> (iter_file_states db).
Proof.
  intros Hwf.
  destruct (get_or_create_file_states db (r_path item) (r_mtime item) (r_size item) Hwf)
    as (Hwf1 & Hstates1 & row & Hrow & Hid & Hpath).
  unfold apply_result.
  destruct (get_or_create_file db (r_path item) (r_mtime item) (r_size item))
    as [db1 file_id]. cbn [fst snd] in *. subst file_id.
  destruct (truthy (r_error item)); cbn [fst].
  - split; [apply well_formed_update_files; auto|].
    unfold mark_file_error.
    rewrite (iter_file_states_update_files db1 row _ (r_mtime item) (r_size item)); auto.
    rewrite Hstates1, Hpath, insert_insert_eq. reflexivity.
  - pose proof (well_formed_replace db1 (fi_id row) (r_functions item) Hwf1) as Hwf2.
    split; [apply well_formed_update_files; auto|].
    unfold mark_file_parsed.
    rewrite (iter_file_states_update_files _ row _ (r_mtime item) (r_size item)); auto.
    unfold replace_functions_for_file. destruct db1 as [fs fns s1 s2].
    cbn [files functions files_seq functions_seq] in *.
    rewrite (iter_file_states_functions fs _ fns s1 _ s2).
    rewrite Hstates1, Hpath, insert_insert_eq. reflexivity.
Qed.




(** *** Candidate fetch *)


Lemma where_clause_applied (query : Query) :
  is_Some (where_clause query)
  <-> truthy (name query) || truthy (normalised_signature query) = true.
Proof.
  unfold where_clause.
  destruct (truthy (name query)), (truthy (normalised_signature query)); cbn;
    split; intros Hq; try reflexivity; try (eexists; reflexivity);
    try discriminate; destruct Hq; discriminate.
Qed.






Example fetch_candidates_by_name :
  c_name <$> fetch_candidates example_db
               {| name := Some (lit "BA"); normalised_signature := None |} 50
  = [lit "bar"].
Proof. vm_compute. reflexivity. Qed.

Example fetch_candidates_order :
  c_name <$> fetch_candidates example_db example_query_nomatch 50
  = [lit "bar"; lit "foo"].
Proof. vm_compute. reflexivity. Qed.

End Store.

(** ** The pipeline *)

Section Pipeline.
Import CsigCore CsigDb CsigIndexer.

(** A property of the start state that every step keeps holds throughout
    the run. *)
Lemma reachable_ind (R : Run) (db0 : Db) (cancel : bool) (now : Z)
    (P : System -> Prop) :
  P (start R db0 cancel now) ->
  (forall s s', reachable R db0 cancel now s -> P s -> step R s s' -> P s') ->
  forall s, reachable R db0 cancel now s -> P s.
Proof.
  intros Hstart Hstep. unfold reachable in *.
  apply rtc_ind_r; [exact Hstart|].
  intros s s' Hs Hss' IH. eapply Hstep; eauto.
Qed.

(** A move of the scheduler is a step of the run. *)
Lemma move_step (R : Run) (m : Move) (s s' : System) :
  move R m s = Some s' -> step R s s'.
Proof.
  intros Hm. destruct m as [| |i|i parsed|i|now']; cbn [move] in Hm.
  - injection Hm as <-. apply step_cancel.
  - destruct (discover_step _ _ _ _) as [[[|incs|item] d']|] eqn:Hd; try discriminate.
    + injection Hm as <-. apply step_discovery_local. exact Hd.
    + injection Hm as <-. apply step_discovery_inc. exact Hd.
    + destruct (decide _) as [Hroom|]; [|discriminate].
      injection Hm as <-. apply step_discovery_put; assumption.
  - destruct (worker_threads s !! i) as [[| | |]|] eqn:Hw; try discriminate.
    destruct (task_queue s) as [|item rest] eqn:Hq; [discriminate|].
    injection Hm as <-. eapply step_worker_get; eassumption.
  - destruct (worker_threads s !! i) as [[|task| |]|] eqn:Hw; try discriminate.
    destruct (worker_task _ _ _) as [result|] eqn:Hr; injection Hm as <-.
    + eapply step_worker_result; eassumption.
    + eapply step_worker_cancelled; eassumption.
  - destruct (worker_threads s !! i) as [[| | |]|] eqn:Hw; try discriminate.
    injection Hm as <-. apply step_worker_sentinel. exact Hw.
  - destruct (closed (writer s)) eqn:Hopen; [discriminate|].
    destruct (decide _) as [Hlt|Hge].
    + destruct (result_queue s) as [|[item|] rest] eqn:Hq; [discriminate| |].
      * destruct (binds_result item) eqn:Hbinds; injection Hm as <-.
        -- eapply step_writer_result; eassumption.
        -- eapply step_writer_raise; eassumption.
      * injection Hm as <-. eapply step_writer_sentinel; eassumption.
    + injection Hm as <-. apply step_writer_close; assumption.
Qed.

Lemma moves_rtc (R : Run) (schedule : list Move) (s s' : System) :
  moves R schedule s = Some s' -> rtc (step R) s s'.
Proof.
  revert s. induction schedule as [|m schedule IH]; intros s; cbn [moves].
  - intros [= <-]. apply rtc_refl.
  - destruct (move R m s) as [s1|] eqn:Hm; [|discriminate]. cbn. intros Hrest.
    eapply rtc_l; [eapply move_step; exact Hm | apply IH, Hrest].
Qed.

(** The state that a schedule leads to from the start is a state of the
    run. *)
Lemma schedule_reachable (R : Run) (db0 : Db) (cancel : bool) (now : Z)
    (schedule : list Move) (s : System) :
  moves R schedule (start R db0 cancel now) = Some s ->
  reachable R db0 cancel now s.
Proof. apply moves_rtc. Qed.

Lemma example_end1_reachable :
  reachable example_run1 init_db false 99 example_end1.
Proof.
  apply schedule_reachable with (schedule := example_schedule1).
  vm_compute. reflexivity.
Qed.

Lemma example_end2_reachable :
  reachable example_run2 (db example_end1) false 200 example_end2.
Proof.
  apply schedule_reachable with (schedule := example_schedule2).
  vm_compute. reflexivity.
Qed.

Lemma example_end1_joined : joined example_end1.
Proof.
  split; [exists false; reflexivity|]. split; [|reflexivity].
  repeat constructor.
Qed.

Lemma example_end2_joined : joined example_end2.
Proof.
  split; [exists false; reflexivity|]. split; [|reflexivity].
  repeat constructor.
Qed.





Lemma count_if_app {A} (f : A -> bool) (l1 l2 : list A) :
  count_if f (l1 ++ l2) = (count_if f l1 + count_if f l2)%nat.
Proof. unfold count_if. rewrite filter_app, length_app. reflexivity. Qed.

Lemma count_if_cons {A} (f : A -> bool) (x : A) (l : list A) :
  count_if f (x :: l) = ((if f x then 1 else 0) + count_if f l)%nat.
Proof.
  unfold count_if. rewrite filter_cons.
  destruct (f x); [rewrite decide_True by reflexivity
                  | rewrite decide_False by discriminate]; reflexivity.
Qed.

Lemma count_if_nil {A} (f : A -> bool) : count_if f [] = 0%nat.
Proof. reflexivity. Qed.

Lemma count_if_replicate {A} (f : A -> bool) (n : nat) (x : A) :
  count_if f (replicate n x) = if f x then n else 0%nat.
Proof.
  induction n as [|n IH]; cbn [replicate].
  - destruct (f x); reflexivity.
  - rewrite count_if_cons, IH. destruct (f x); reflexivity.
Qed.

Lemma count_if_insert {A} (f : A -> bool) (l : list A) (i : nat) (x y : A) :
  l !! i = Some x ->
  (count_if f (<[i:=y]> l) + (if f x then 1 else 0)
   = count_if f l + (if f y then 1 else 0))%nat.
Proof.
  intros Hi.
  rewrite <- (take_drop_middle l i x Hi) at 2.
  rewrite insert_take_drop by (eapply lookup_lt_Some; eassumption).
  rewrite !count_if_app, !count_if_cons. lia.
Qed.

Lemma count_if_le_length {A} (f : A -> bool) (l : list A) :
  (count_if f l <= length l)%nat.
Proof. apply length_filter. Qed.

Lemma apply_result_tracker store progress item now :
  (apply_result store progress item now).2
  = if truthy (r_error item)
    then inc progress [(FilesFailed, 1); (FilesDone, 1)]
    else inc progress [(FilesIndexed, 1); (FilesDone, 1);
                       (FunctionsTotal, Z.of_nat (length (r_functions item)))].
Proof.
  unfold apply_result.
  destruct (get_or_create_file store (r_path item) (r_mtime item) (r_size item)).
  destruct (truthy (r_error item)); reflexivity.
Qed.

(** What discovery can do, by the point it has reached. *)
Lemma discover_step_cases workers_ known cancel d act d' :
  discover_step workers_ known cancel d = Some (act, d') ->
  match d with
  | DWalk _ | DFinally O _ => act = DALocal /\ counted d' = 0
  | DFiles _ _ =>
      (act = DALocal /\ counted d' = 0)
      \/ (act = DAInc [(FilesTotal, 1)] /\ counted d' = 1)
  | DCounted task _ _ =>
      (act = DAInc [(FilesSkipped, 1); (FilesDone, 1)] /\ counted d' = 0)
      \/ (act = DAPut (Some task) /\ counted d' = 0)
  | DQueued _ _ => act = DAInc [(FilesQueued, 1)] /\ counted d' = 0
  | DFinally (S _) _ => act = DAPut None /\ counted d' = 0
  | DDone _ => False
  end.
Proof.
  intros Hstep. destruct d as [[|fs ds]|[|e fs] ds|[[p m] sz] fs ds|fs ds|[|k] r|r];
    cbn in Hstep; repeat case_match; simplify_eq; cbn; auto.
Qed.

(** The invariant behind C10: the counters add up, and every file counted in
    [files_total] is skipped, indexed, failed, on its way to the writer, or
    still in the hands of discovery. *)
Lemma progress_accounting (R : Run) (db0 : Db) (cancel : bool) (now : Z)
    (s : System) :
  reachable R db0 cancel now s ->
  files_done (tracker s)
    = files_skipped (tracker s) + files_indexed (tracker s) + files_failed (tracker s)
  /\ files_skipped (tracker s) + files_indexed (tracker s) + files_failed (tracker s)
     + in_flight s + counted (discovery s) <= files_total (tracker s).
Proof.
  revert s. apply reachable_ind.
  - unfold in_flight, start.
    cbn [task_queue worker_threads result_queue tracker discovery].
    rewrite count_if_replicate. cbn. lia.
  - intros s s' _ [Hsum Hle] Hstep. unfold in_flight in *.
    destruct Hstep as
      [ | d' Hd | incs d' Hd | item d' Hd Hroom | i item rest Hw Hq
      | i task parsed Hw Hcan | i task parsed result Hw Hr | i Hw
      | rest Hopen Hlt Hq | item rest now' Hopen Hlt Hq Hbinds
      | item rest Hopen Hlt Hq | Hopen Hge ];
      cbn [tracker discovery task_queue worker_threads result_queue] in *.
    + lia.
    + apply discover_step_cases in Hd.
      destruct (discovery s) as [| | | |[|k] ?|]; cbn [counted] in *;
        intuition (simplify_eq; cbn in *; lia).
    + apply discover_step_cases in Hd.
      destruct (discovery s) as [| | | |[|k] ?|]; cbn [counted] in *;
        intuition (simplify_eq; cbn in *; lia).
    + apply discover_step_cases in Hd. rewrite count_if_app, count_if_cons, count_if_nil.
      destruct (discovery s) as [| | | |[|k] ?|]; cbn [counted] in *;
        intuition (simplify_eq; cbn in *; lia).
    + rewrite Hq, count_if_cons in Hle.
      pose proof (count_if_insert holds_task _ i WGet (worker_get item) Hw) as Hc.
      destruct item; cbn in *; lia.
    + pose proof (count_if_insert holds_task _ i (WTask task) WGet Hw) as Hc.
      cbn in *; lia.
    + pose proof (count_if_insert holds_task _ i (WTask task) WGet Hw) as Hc.
      rewrite count_if_app, count_if_cons, count_if_nil. cbn in *; lia.
    + pose proof (count_if_insert holds_task _ i WSentinel WExit Hw) as Hc.
      rewrite count_if_app, count_if_cons, count_if_nil. cbn in *; lia.
    + rewrite Hq, count_if_cons in Hle. cbn in *; lia.
    + rewrite Hq, count_if_cons in Hle. rewrite apply_result_tracker.
      destruct (truthy (r_error item)); cbn in *; lia.
    + rewrite Hq, count_if_cons in Hle. cbn in *; lia.
    + lia.
Qed.

(** C10. After every mutation of the progress counters by discovery or by
    the writer, that is in every state of a run, [files_done] equals
    [files_skipped + files_indexed + files_failed] and is at most
    [files_total]. *)
Theorem progress_counters_invariant (R : Run) (db0 : Db) (cancel : bool)
    (now : Z) (s : System) :
  reachable R db0 cancel now s ->
  files_done (tracker s)
    = files_skipped (tracker s) + files_indexed (tracker s) + files_failed (tracker s)
  /\ files_done (tracker s) <= files_total (tracker s).
Proof.
  intros Hs. destruct (progress_accounting R db0 cancel now s Hs) as [Hsum Hle].
  split; [exact Hsum|].
  assert (0 <= in_flight s) by (unfold in_flight; lia).
  assert (0 <= counted (discovery s)) by (destruct (discovery s); cbn; lia).
  lia.
Qed.

Lemma progress_counters_invariant_witness :
  reachable example_run1 init_db false 99 example_end1
  /\ files_done (tracker example_end1)
     = files_skipped (tracker example_end1) + files_indexed (tracker example_end1)
       + files_failed (tracker example_end1)
  /\ files_done (tracker example_end1) <= files_total (tracker example_end1).
Proof.
  split; [exact example_end1_reachable|].
  exact (progress_counters_invariant example_run1 init_db false 99 example_end1
           example_end1_reachable).
Defined.

(** *** Sentinels *)

Lemma discover_step_sentinels workers_ known cancel d act d' :
  discover_step workers_ known cancel d = Some (act, d') ->
  (act = DAPut None /\ sentinels_due workers_ d = S (sentinels_due workers_ d'))
  \/ (act <> DAPut None /\ sentinels_due workers_ d' = sentinels_due workers_ d
      /\ (sentinels_due workers_ d <> workers_ -> forall t, act <> DAPut (Some t))).
Proof.
  intros Hstep. destruct d as [[|fs ds]|[|e fs] ds|[[p m] sz] fs ds|fs ds|[|k] r|r];
    cbn in Hstep; repeat case_match; simplify_eq; cbn;
    first [ left; split; [reflexivity | reflexivity]
          | right; split; [discriminate | split; [reflexivity | congruence]] ].
Qed.

(** Discovery is never stuck before its end, and each of its steps brings
    the end nearer. *)
Lemma discover_step_progress workers_ known cancel d :
  (forall raised, d <> DDone raised) ->
  exists act d',
    discover_step workers_ known cancel d = Some (act, d')
    /\ (discovery_measure workers_ d' < discovery_measure workers_ d)%nat.
Proof.
  intros Hnot. destruct d as [[|fs ds]|[|e fs] ds|[[p m] sz] fs ds|fs ds|[|k] r|r];
    cbn [discover_step]; repeat case_match;
    try (eexists _, _; split; [reflexivity | cbn; lia]).
  exfalso. eapply Hnot. reflexivity.
Qed.

Lemma replicate_snoc {A} (n : nat) (x : A) :
  replicate n x ++ [x] = replicate (S n) x.
Proof. induction n as [|n IH]; cbn; [|rewrite IH]; reflexivity. Qed.

(** The sentinels are the last things that discovery puts, and those put and
    those still due are one per worker. *)
Lemma task_puts_shape (R : Run) (db0 : Db) (cancel : bool) (now : Z) (s : System) :
  reachable R db0 cancel now s ->
  (exists tasks, task_puts s = (Some <$> tasks) ++ replicate (sentinels_put s) None)
  /\ (sentinels_put s + sentinels_due (workers R) (discovery s) = workers R)%nat.
Proof.
  revert s. apply reachable_ind.
  - split; [exists []; reflexivity | reflexivity].
  - intros s s' _ [[tasks Hshape] Hsum] Hstep. unfold sentinels_put in *.
    destruct Hstep as
      [ | d' Hd | incs d' Hd | item d' Hd Hroom | i item rest Hw Hq
      | i task parsed Hw Hcan | i task parsed result Hw Hr | i Hw
      | rest Hopen Hlt Hq | item rest now' Hopen Hlt Hq Hbinds
      | item rest Hopen Hlt Hq | Hopen Hge ];
      cbn [task_puts discovery] in *;
      try (split; [exists tasks; exact Hshape | exact Hsum]).
    + apply discover_step_sentinels in Hd as [[? ?]|(_ & Hdue & _)]; [discriminate|].
      split; [exists tasks; exact Hshape | lia].
    + apply discover_step_sentinels in Hd as [[? ?]|(_ & Hdue & _)]; [discriminate|].
      split; [exists tasks; exact Hshape | lia].
    + rewrite count_if_app, count_if_cons, count_if_nil.
      apply discover_step_sentinels in Hd as [[Hact Hdue]|(Hact & Hdue & Hsome)].
      * injection Hact as ->. cbn [is_none]. split; [|lia].
        exists tasks. rewrite Hshape at 1. rewrite <- app_assoc, replicate_snoc.
        f_equal. f_equal. lia.
      * destruct item as [t|]; [|congruence]. cbn [is_none]. split; [|lia].
        assert (Hzero : count_if is_none (task_puts s) = 0%nat).
        { destruct (decide (sentinels_due (workers R) (discovery s) = workers R)) as [?|Hne];
            [lia|]. exfalso. exact (Hsome Hne t eq_refl). }
        exists (tasks ++ [t]). rewrite Hshape at 1. rewrite Hzero.
        cbn [replicate Nat.add]. rewrite !app_nil_r, fmap_app. reflexivity.
Qed.

(** The workers: as many as configured, and each has put one completion
    sentinel if it has returned and none otherwise. *)
Lemma worker_sentinels_count (R : Run) (db0 : Db) (cancel : bool) (now : Z)
    (s : System) :
  reachable R db0 cancel now s ->
  length (worker_threads s) = workers R
  /\ (forall i w, worker_threads s !! i = Some w ->
        worker_sentinels i s = if has_exited w then 1%nat else 0%nat).
Proof.
  revert s. apply reachable_ind.
  - split; [apply length_replicate|]. intros i w Hi.
    apply lookup_replicate in Hi as [-> _]. reflexivity.
  - intros s s' _ [Hlen Hcount] Hstep. unfold worker_sentinels in *.
    destruct Hstep as
      [ | d' Hd | incs d' Hd | item d' Hd Hroom | j item rest Hw Hq
      | j task parsed Hw Hcan | j task parsed result Hw Hr | j Hw
      | rest Hopen Hlt Hq | item rest now' Hopen Hlt Hq Hbinds
      | item rest Hopen Hlt Hq | Hopen Hge ];
      cbn [worker_threads result_puts] in *;
      try (split; [exact Hlen | exact Hcount]);
      (split; [rewrite length_insert; exact Hlen|]); intros i w Hi;
      rewrite ?count_if_app, ?count_if_cons, ?count_if_nil; cbn [fst snd is_none];
      rewrite ?andb_false_r, ?andb_true_r, ?Nat.add_0_r;
      destruct (decide (i = j)) as [->|Hne];
      try (rewrite list_lookup_insert_ne in Hi by congruence;
           specialize (Hcount i w Hi);
           try (destruct (Nat.eqb_spec j i); [congruence|]); lia);
      rewrite list_lookup_insert_eq in Hi by (eapply lookup_lt_Some; eassumption);
      injection Hi as <-; specialize (Hcount j _ Hw); cbn [has_exited] in *;
      rewrite ?Nat.eqb_refl; try (destruct item; cbn [worker_get has_exited]); lia.
Qed.

(** The writer has counted the completion sentinels that are no longer in
    the result queue, and leaves its loop only when it has counted one per
    worker or when an exception ends it. *)
Lemma writer_counts (R : Run) (db0 : Db) (cancel : bool) (now : Z) (s : System) :
  reachable R db0 cancel now s ->
  (finished_workers (writer s) + count_if is_none (result_queue s)
   = count_if has_exited (worker_threads s))%nat
  /\ (finished_workers (writer s) <= workers R)%nat
  /\ (closed (writer s) = true -> crashed (writer s) = false ->
      finished_workers (writer s) = workers R)
  /\ (crashed (writer s) = true ->
      closed (writer s) = true /\ (finished_workers (writer s) < workers R)%nat).
Proof.
  intros Hs.
  assert (Hmain : (finished_workers (writer s) + count_if is_none (result_queue s)
                   = count_if has_exited (worker_threads s))%nat
                  /\ (closed (writer s) = true -> crashed (writer s) = false ->
                      finished_workers (writer s) = workers R)
                  /\ (crashed (writer s) = true ->
                      closed (writer s) = true
                      /\ (finished_workers (writer s) < workers R)%nat)).
  { revert s Hs. apply reachable_ind.
    - cbn [start writer result_queue worker_threads finished_workers closed crashed].
      rewrite count_if_replicate.
      split; [reflexivity|]. split; discriminate.
    - intros s s' Hs (Hsum & Hclosed & Hcrashed) Hstep.
      pose proof (worker_sentinels_count R db0 cancel now s Hs) as [Hlen _].
      pose proof (count_if_le_length has_exited (worker_threads s)) as Hle.
      destruct Hstep as
        [ | d' Hd | incs d' Hd | item d' Hd Hroom | j item rest Hw Hq
        | j task parsed Hw Hcan | j task parsed result Hw Hr | j Hw
        | rest Hopen Hlt Hq | item rest now' Hopen Hlt Hq Hbinds
      | item rest Hopen Hlt Hq | Hopen Hge ];
        cbn [writer result_queue worker_threads finished_workers closed crashed] in *;
        try (split; [exact Hsum | split; [exact Hclosed | exact Hcrashed]]);
        rewrite ?count_if_app, ?count_if_cons, ?count_if_nil; cbn [is_none].
      + pose proof (count_if_insert has_exited _ j WGet (worker_get item) Hw) as Hc.
        split; [|split; [exact Hclosed | exact Hcrashed]].
        destruct item; cbn [has_exited worker_get] in *; lia.
      + pose proof (count_if_insert has_exited _ j (WTask task) WGet Hw) as Hc.
        split; [|split; [exact Hclosed | exact Hcrashed]].
        cbn [has_exited worker_get] in *; lia.
      + pose proof (count_if_insert has_exited _ j (WTask task) WGet Hw) as Hc.
        split; [|split; [exact Hclosed | exact Hcrashed]].
        cbn [has_exited worker_get] in *; lia.
      + pose proof (count_if_insert has_exited _ j WSentinel WExit Hw) as Hc.
        split; [|split; [exact Hclosed | exact Hcrashed]].
        cbn [has_exited worker_get] in *; lia.
      + rewrite Hq, count_if_cons in Hsum. cbn [is_none] in Hsum.
        split; [lia|]. split; [discriminate|].
        intros Hc. apply Hcrashed in Hc as [Hc _]. congruence.
      + rewrite Hq, count_if_cons in Hsum. cbn [is_none] in Hsum.
        split; [lia|]. split; [congruence | exact Hcrashed].
      + rewrite Hq, count_if_cons in Hsum. cbn [is_none] in Hsum.
        split; [lia|]. split; [discriminate | auto].
      + split; [exact Hsum|]. split; [intros _ _; lia|].
        intros Hc. apply Hcrashed in Hc as [Hc _]. congruence. }
  destruct Hmain as (Hsum & Hclosed & Hcrashed).
  pose proof (worker_sentinels_count R db0 cancel now s Hs) as [Hlen _].
  pose proof (count_if_le_length has_exited (worker_threads s)) as Hle.
  split; [exact Hsum|]. split; [lia|]. split; [exact Hclosed | exact Hcrashed].
Qed.





(** *** Unchanged files *)

Lemma tasks_of_dirs_cons fs ds :
  tasks_of_dirs (fs :: ds) = tasks_of_files fs ++ tasks_of_dirs ds.
Proof. unfold tasks_of_dirs, tasks_of_files. cbn [concat]. apply omap_app. Qed.

Lemma tasks_of_files_cons e fs :
  tasks_of_files (e :: fs)
  = match valid_task e with Some t => t :: tasks_of_files fs | None => tasks_of_files fs end.
Proof. reflexivity. Qed.

(** How one step of discovery changes the files it has still to decide on. *)
Lemma discover_step_remaining workers_ known cancel d act d' :
  discover_step workers_ known cancel d = Some (act, d') ->
  (forall t, t ∈ remaining d' -> t ∈ remaining d)
  /\ (raised d = true -> raised d' = true)
  /\ (forall t, t ∈ remaining d ->
        t ∈ remaining d' \/ cancel = true \/ raised d' = true
        \/ act = DAPut (Some t)
        \/ (act = DAInc [(FilesSkipped, 1); (FilesDone, 1)]
            /\ known !! t.1.1 = Some (t.1.2, t.2)))
  /\ (forall t, act = DAPut (Some t) ->
        t ∈ remaining d /\ known !! t.1.1 <> Some (t.1.2, t.2))
  /\ (forall fs ds, d' = DQueued fs ds -> exists t, act = DAPut (Some t))
  /\ (act = DAInc [(FilesQueued, 1)] -> exists fs ds, d = DQueued fs ds)
  /\ (act = DAInc [(FilesSkipped, 1); (FilesDone, 1)] -> counted d = 1)
  /\ (forall incs, act = DAInc incs ->
        incs = [(FilesTotal, 1)] \/ incs = [(FilesSkipped, 1); (FilesDone, 1)]
        \/ incs = [(FilesQueued, 1)]).
Proof.
  intros Hstep.
  destruct d as [[|fs ds]|[|e fs] ds|[[p m] sz] fs ds|fs ds|[|k] r|r];
    cbn [discover_step] in Hstep.
  - simplify_eq. cbn. repeat split; try discriminate; eauto; intros; simplify_eq.
  - destruct cancel; simplify_eq; cbn [remaining raised counted];
      rewrite ?tasks_of_dirs_cons;
      repeat split; try discriminate; eauto; intros; simplify_eq;
      try (exfalso; eapply elem_of_nil; eassumption).
  - simplify_eq. cbn [remaining raised counted tasks_of_files omap app].
    repeat split; try discriminate; eauto; intros; simplify_eq.
  - cbn [remaining]. rewrite tasks_of_files_cons. unfold valid_task.
    destruct cancel; [|destruct (bool_decide (fe_suffix e ∈ source_extensions));
      cbn [negb] in Hstep;
      [destruct (fe_path e) as [file_path|]; [destruct (fe_stat e) as [mtime size|]|]|]];
      simplify_eq; cbn [remaining raised counted];
      repeat split; try discriminate; eauto; intros; simplify_eq; eauto;
      try (exfalso; eapply elem_of_nil; eassumption);
      try (apply elem_of_app; right; assumption).
  - case_bool_decide as Hknown; simplify_eq; cbn [remaining raised counted];
      repeat split; try discriminate; eauto; intros; simplify_eq; eauto.
    + apply elem_of_cons. right. assumption.
    + match goal with H : _ ∈ _ :: _ |- _ => apply elem_of_cons in H as [->|H] end;
        [right; right; right; right; split; [reflexivity | exact Hknown] | left; assumption].
    + apply elem_of_cons. right. assumption.
    + match goal with H : _ ∈ _ :: _ |- _ => apply elem_of_cons in H as [->|H] end;
        [right; right; right; left; reflexivity | left; assumption].
    + apply elem_of_cons. left. reflexivity.
  - simplify_eq. cbn [remaining raised counted].
    repeat split; try discriminate; eauto; intros; simplify_eq; eauto.
  - simplify_eq. cbn [remaining raised counted].
    repeat split; try discriminate; eauto; intros; simplify_eq;
      try (exfalso; eapply elem_of_nil; eassumption).
  - simplify_eq. cbn [remaining raised counted].
    repeat split; try discriminate; eauto; intros; simplify_eq;
      try (exfalso; eapply elem_of_nil; eassumption).
  - discriminate.
Qed.

Lemma omap_cons_list {A B} (f : A -> option B) (x : A) (l : list A) :
  omap f (x :: l) = option_list (f x) ++ omap f l.
Proof. cbn. destruct (f x); reflexivity. Qed.

Lemma omap_insert_perm {A B} (f : A -> option B) (l : list A) (i : nat) (x y : A) :
  l !! i = Some x ->
  option_list (f x) ++ omap f (<[i:=y]> l) ≡ₚ option_list (f y) ++ omap f l.
Proof.
  intros Hi.
  rewrite <- (take_drop_middle l i x Hi) at 2.
  rewrite insert_take_drop by (eapply lookup_lt_Some; eassumption).
  rewrite !omap_app, !omap_cons_list. solve_Permutation.
Qed.

Lemma worker_task_result cancel task parsed result :
  worker_task cancel task parsed = Some result ->
  cancel = false /\ task_of_result result = task.
Proof.
  unfold worker_task. destruct cancel; [discriminate|].
  destruct task as [[path mtime] size]. intros [= <-]. split; reflexivity.
Qed.

(** What one step of the run does to the tasks under way, to the store and
    to the tracker. *)
Lemma step_summary (R : Run) (s s' : System) :
  step R s s' ->
  (cancel_event s = true -> cancel_event s' = true)
  /\ ((exists act,
         discover_step (workers R) (known_states R) (cancel_event s) (discovery s)
           = Some (act, discovery s')
         /\ db s' = db s /\ cancel_event s' = cancel_event s
         /\ match act with
            | DALocal => tracker s' = tracker s /\ pending s' = pending s
            | DAInc incs => tracker s' = inc (tracker s) incs /\ pending s' = pending s
            | DAPut (Some t) => tracker s' = tracker s /\ pending s' ≡ₚ t :: pending s
            | DAPut None => tracker s' = tracker s /\ pending s' = pending s
            end)
      \/ (discovery s' = discovery s
          /\ ((db s' = db s /\ tracker s' = tracker s /\ pending s' ≡ₚ pending s)
              \/ (exists t, db s' = db s /\ tracker s' = tracker s
                            /\ pending s ≡ₚ t :: pending s'
                            /\ (cancel_event s = true \/ crashed (writer s') = true))
              \/ (exists item now,
                    pending s ≡ₚ task_of_result item :: pending s'
                    /\ db s' = (apply_result (db s) (tracker s) item now).1
                    /\ tracker s' = (apply_result (db s) (tracker s) item now).2)))).
Proof.
  intros Hstep. unfold pending.
  destruct Hstep as
    [ | d' Hd | incs d' Hd | item d' Hd Hroom | i item rest Hw Hq
    | i task parsed Hw Hcan | i task parsed result Hw Hr | i Hw
    | rest Hopen Hlt Hq | item rest now' Hopen Hlt Hq Hbinds
      | item rest Hopen Hlt Hq | Hopen Hge ];
    cbn [cancel_event discovery db tracker task_queue worker_threads result_queue];
    (split; [auto|]).
  - right. split; [reflexivity|]. left. auto.
  - left. exists DALocal. auto.
  - left. exists (DAInc incs). auto.
  - left. exists (DAPut item). repeat split; auto.
    rewrite omap_app, omap_cons_list.
    destruct item as [t|]; cbn [omap list_omap id option_list app];
      (split; [reflexivity|]).
    + solve_Permutation.
    + rewrite app_nil_r. reflexivity.
  - right. split; [reflexivity|]. left. repeat split; auto.
    rewrite Hq, omap_cons_list.
    pose proof (omap_insert_perm task_of_worker _ i WGet (worker_get item) Hw) as Hp.
    cbn [task_of_worker option_list app] in Hp. rewrite Hp.
    destruct item as [t|]; cbn [worker_get task_of_worker option_list id app];
      solve_Permutation.
  - right. split; [reflexivity|]. right. left. exists task.
    assert (cancel_event s = true)
      by (unfold worker_task in Hcan; destruct (cancel_event s), task as [[? ?] ?];
          [reflexivity | discriminate]).
    repeat split; auto.
    pose proof (omap_insert_perm task_of_worker _ i (WTask task) WGet Hw) as Hp.
    cbn [task_of_worker option_list app] in Hp. rewrite <- Hp.
    solve_Permutation.
  - right. split; [reflexivity|]. left. repeat split; auto.
    apply worker_task_result in Hr as [_ Htask].
    pose proof (omap_insert_perm task_of_worker _ i (WTask task) WGet Hw) as Hp.
    cbn [task_of_worker option_list app] in Hp. rewrite <- Hp.
    rewrite omap_app, omap_cons_list.
    cbn [omap list_omap fmap option_fmap option_map option_list]. rewrite Htask.
    solve_Permutation.
  - right. split; [reflexivity|]. left. repeat split; auto.
    pose proof (omap_insert_perm task_of_worker _ i WSentinel WExit Hw) as Hp.
    cbn [task_of_worker option_list app] in Hp. rewrite Hp.
    rewrite omap_app, omap_cons_list.
    cbn [omap list_omap fmap option_fmap option_map option_list]. rewrite !app_nil_r.
    reflexivity.
  - right. split; [reflexivity|]. left. repeat split; auto.
    rewrite Hq, omap_cons_list. reflexivity.
  - right. split; [reflexivity|]. right. right. exists item, now'.
    repeat split; auto. rewrite Hq, omap_cons_list.
    cbn [fmap option_fmap option_map option_list]. solve_Permutation.
  - right. split; [reflexivity|]. right. left. exists (task_of_result item).
    repeat split; auto. rewrite Hq, omap_cons_list.
    cbn [fmap option_fmap option_map option_list]. solve_Permutation.
  - right. split; [reflexivity|]. left. auto.
Qed.

(** A writer that an exception has ended stays ended. *)
Lemma step_crashed (R : Run) (s s' : System) :
  step R s s' ->
  crashed (writer s) = true -> closed (writer s) = true ->
  crashed (writer s') = true.
Proof.
  intros Hstep Hc Hclosed.
  destruct Hstep; cbn [writer crashed]; try exact Hc; congruence.
Qed.

Lemma stored_apply_result_self (store : Db) (progress : Progress) (item : Result)
    (now : Z) :
  well_formed store ->
  stored (apply_result store progress item now).1 (task_of_result item).
Proof.
  intros Hwf. unfold stored.
  destruct (apply_result_states store progress item now Hwf) as [_ ->].
  apply lookup_insert_eq.
Qed.

(** A file of the tree that the store knows stays known when the result of
    a file of the tree is applied. *)
Lemma stored_apply_result (tree : list (list FileEntry)) (store : Db)
    (progress : Progress) (item : Result) (now : Z) (t : Task) :
  well_formed store -> stat_functional tree ->
  t ∈ tasks_of_dirs tree -> task_of_result item ∈ tasks_of_dirs tree ->
  stored store t ->
  stored (apply_result store progress item now).1 t.
Proof.
  intros Hwf Hfun Ht Hitem Hstored.
  destruct (decide (t.1.1 = r_path item)) as [Hpath|Hpath].
  - assert (t = task_of_result item) as -> by (apply Hfun; assumption).
    apply stored_apply_result_self, Hwf.
  - unfold stored in *.
    destruct (apply_result_states store progress item now Hwf) as [_ ->].
    rewrite lookup_insert_ne by congruence. exact Hstored.
Qed.

Lemma pending_start (R : Run) (db0 : Db) (cancel : bool) (now : Z) :
  pending (start R db0 cancel now) = [].
Proof.
  unfold pending, start. cbn [task_queue worker_threads result_queue omap list_omap app].
  rewrite app_nil_r. induction (workers R) as [|n IH]; [reflexivity | exact IH].
Qed.

(** The invariant of a run over a tree whose paths have one time and size:
    the store stays well formed; what is under way is of the tree; what the
    store knew of the tree it still knows; and every file of the tree is
    still to be decided on, under way, or known to the store, unless the run
    was cancelled, the walk raised or an exception ended the writer. *)
Lemma run_covers_tree (tree : list (list FileEntry)) (workers_ : nat) (db0 : Db)
    (cancel : bool) (now : Z) (s : System) :
  well_formed db0 -> stat_functional tree ->
  reachable (run_of tree workers_ db0) db0 cancel now s ->
  well_formed (db s)
  /\ (forall t, t ∈ remaining (discovery s) -> t ∈ tasks_of_dirs tree)
  /\ (forall t, t ∈ pending s -> t ∈ tasks_of_dirs tree)
  /\ (forall t, t ∈ tasks_of_dirs tree -> stored db0 t -> stored (db s) t)
  /\ (forall t, t ∈ tasks_of_dirs tree ->
        t ∈ remaining (discovery s) \/ t ∈ pending s \/ stored (db s) t
        \/ cancel_event s = true \/ raised (discovery s) = true
        \/ crashed (writer s) = true).
Proof.
  intros Hwf0 Hfun. revert s. apply reachable_ind.
  - rewrite pending_start. cbn [start db discovery remaining].
    split; [exact Hwf0|]. split; [auto|]. split; [|split; [auto|auto]].
    intros t Ht. apply elem_of_nil in Ht as [].
  - intros s s' Hs (Hwf & Hrem & Hpend & Hkeep & Hcov) Hstep.
    assert (Hcr : crashed (writer s) = true -> crashed (writer s') = true).
    { intros Hcrashed. eapply step_crashed; [exact Hstep | exact Hcrashed|].
      apply (writer_counts _ db0 cancel now s Hs), Hcrashed. }
    apply step_summary in Hstep as [Hcancel [(act & Hd & Hdb & Hc & Hact)|[Hdisc Hrest]]].
    + apply discover_step_remaining in Hd
        as (Hsub & Hraise & Hmove & Hput & _).
      rewrite Hdb, Hc.
      assert (Hpend' : forall t, t ∈ pending s' ->
                t ∈ pending s \/ act = DAPut (Some t)).
      { intros t Ht. destruct act as [|incs|[t'|]]; destruct Hact as [_ Hp];
          rewrite Hp in Ht; auto.
        apply elem_of_cons in Ht as [->|Ht]; auto. }
      assert (Hpend'' : forall t, t ∈ pending s -> t ∈ pending s').
      { intros t Ht. destruct act as [|incs|[t'|]]; destruct Hact as [_ Hp];
          rewrite Hp; auto. apply elem_of_cons. auto. }
      split; [exact Hwf|]. split; [auto|]. split; [|split; [exact Hkeep|]].
      * intros t Ht. apply Hpend' in Ht as [Ht|Ht]; [auto|].
        apply Hrem, (Hput t Ht).
      * intros t Ht.
        destruct (Hcov t Ht) as [Hin|[Hin|[Hin|[Hin|[Hin|Hin]]]]].
        -- destruct (Hmove t Hin) as [H1|[H1|[H1|[H1|[_ Hknown]]]]].
           ++ left. exact H1.
           ++ right. right. right. left. exact H1.
           ++ right. right. right. right. left. exact H1.
           ++ right. left. subst act. destruct Hact as [_ Hp]. rewrite Hp.
              apply elem_of_cons. auto.
           ++ right. right. left. apply Hkeep; [exact Ht | exact Hknown].
        -- right. left. apply Hpend'', Hin.
        -- right. right. left. exact Hin.
        -- right. right. right. left. exact Hin.
        -- right. right. right. right. left. apply Hraise, Hin.
        -- right. right. right. right. right. apply Hcr, Hin.
    + rewrite Hdisc.
      destruct Hrest as [(Hdb & _ & Hp)|[(t0 & Hdb & _ & Hp & Hc)|(item & now' & Hp & Hdb & _)]].
      * rewrite Hdb. split; [exact Hwf|]. split; [exact Hrem|].
        split; [|split; [exact Hkeep|]].
        -- intros t Ht. rewrite Hp in Ht. auto.
        -- intros t Ht. rewrite Hp. specialize (Hcov t Ht). intuition auto.
      * rewrite Hdb. split; [exact Hwf|]. split; [exact Hrem|].
        split; [|split; [exact Hkeep|]].
        -- intros t Ht. apply Hpend. rewrite Hp. apply elem_of_cons. auto.
        -- intros t Ht. destruct Hc as [Hc|Hc]; [|auto 10].
           right. right. right. left. auto.
      * assert (Hitem : task_of_result item ∈ tasks_of_dirs tree)
          by (apply Hpend; rewrite Hp; apply elem_of_cons; auto).
        rewrite Hdb.
        split; [apply apply_result_states, Hwf|]. split; [exact Hrem|].
        split; [|split].
        -- intros t Ht. apply Hpend. rewrite Hp. apply elem_of_cons. auto.
        -- intros t Ht Hst. eapply stored_apply_result; eauto.
        -- intros t Ht. destruct (Hcov t Ht) as [Hin|[Hin|[Hin|[Hin|[Hin|Hin]]]]].
           ++ left. exact Hin.
           ++ rewrite Hp in Hin. apply elem_of_cons in Hin as [->|Hin].
              ** right. right. left. apply stored_apply_result_self, Hwf.
              ** right. left. exact Hin.
           ++ right. right. left. eapply stored_apply_result; eauto.
           ++ right. right. right. left. auto.
           ++ right. right. right. right. left. exact Hin.
           ++ right. right. right. right. right. apply Hcr, Hin.
Qed.

(** *** The queues at the end of a run *)

Lemma count_if_shape {A} (ts : list A) (n : nat) :
  count_if is_none ((Some <$> ts) ++ replicate n None) = n
  /\ count_if is_some ((Some <$> ts) ++ replicate n (@None A)) = length ts.
Proof.
  rewrite !count_if_app, !count_if_replicate. cbn [is_none is_some].
  induction ts as [|t ts [IH1 IH2]]; [split; reflexivity|].
  rewrite fmap_cons, !count_if_cons. cbn [is_none is_some length]. lia.
Qed.

Lemma count_if_lt_length {A} (f : A -> bool) (l : list A) (i : nat) (x : A) :
  l !! i = Some x -> f x = false -> (count_if f l < length l)%nat.
Proof.
  intros Hi Hx. rewrite <- (take_drop_middle l i x Hi).
  rewrite count_if_app, count_if_cons, Hx, length_app. cbn [length].
  pose proof (count_if_le_length f (take i l)).
  pose proof (count_if_le_length f (drop (S i) l)). lia.
Qed.

Lemma snoc_eq_middle {A} (l pre post : list A) (x y : A) :
  l ++ [x] = pre ++ y :: post ->
  (post = [] /\ pre = l /\ x = y)
  \/ (exists post', post = post' ++ [x] /\ l = pre ++ y :: post').
Proof.
  intros Heq. destruct post as [|z post] using rev_ind.
  - left. apply app_inj_tail in Heq as [-> ->]. auto.
  - right. exists post.
    change (pre ++ y :: post ++ [z]) with (pre ++ (y :: post) ++ [z]) in Heq.
    rewrite app_assoc in Heq. apply app_inj_tail in Heq as [-> ->].
    split; reflexivity.
Qed.

Lemma some_or_split {A} (l : list (option A)) :
  count_if is_some l = 0%nat \/ exists pre r post, l = pre ++ Some r :: post.
Proof.
  induction l as [|[r|] l IH].
  - left. reflexivity.
  - right. exists [], r, l. reflexivity.
  - rewrite count_if_cons. cbn [is_some]. destruct IH as [IH|(pre & r & post & ->)].
    + left. exact IH.
    + right. exists (None :: pre), r, post. reflexivity.
Qed.

Lemma omap_no_some {A B} (g : option A -> option B) (l : list (option A)) :
  g None = None -> count_if is_some l = 0%nat -> omap g l = [].
Proof.
  intros Hg. induction l as [|[r|] l IH]; rewrite ?count_if_cons; cbn [is_some].
  - reflexivity.
  - lia.
  - intros Hl. rewrite omap_cons_list, Hg. apply IH. exact Hl.
Qed.

(** The discipline of the two queues: in the task queue the sentinels come
    after the tasks; the sentinels put are taken or in the queue; once a
    worker has taken its sentinel no task is left; and while a result is in
    the result queue, the writer has not counted all the workers, also
    after counting the sentinels before that result. *)
Lemma queue_discipline (R : Run) (db0 : Db) (cancel : bool) (now : Z) (s : System) :
  reachable R db0 cancel now s ->
  (exists ts n, task_queue s = (Some <$> ts) ++ replicate n None)
  /\ (count_if took_sentinel (worker_threads s) + count_if is_none (task_queue s)
      = sentinels_put s)%nat
  /\ ((0 < count_if took_sentinel (worker_threads s))%nat ->
      count_if is_some (task_queue s) = 0%nat)
  /\ (forall pre r post,
        result_queue s = pre ++ Some r :: post ->
        (finished_workers (writer s) + count_if is_none pre < workers R)%nat).
Proof.
  revert s. apply reachable_ind.
  - unfold sentinels_put.
    cbn [start task_queue worker_threads result_queue task_puts writer finished_workers].
    rewrite count_if_replicate. cbn [took_sentinel].
    split; [exists [], 0%nat; reflexivity|]. split; [reflexivity|].
    split; [lia|]. intros pre r post Heq. destruct pre; discriminate.
  - intros s s' Hs ((ts & n & Hshape) & Hsent & Htook & Hres) Hstep.
    pose proof (task_puts_shape R db0 cancel now s Hs) as [_ Hdue].
    pose proof (worker_sentinels_count R db0 cancel now s Hs) as [Hlen _].
    pose proof (writer_counts R db0 cancel now s Hs) as (Hcount & _ & _).
    pose proof (count_if_shape ts n) as [Hnone Hsome].
    unfold sentinels_put in *.
    destruct Hstep as
      [ | d' Hd | incs d' Hd | item d' Hd Hroom | i item rest Hw Hq
      | i task parsed Hw Hcan | i task parsed result Hw Hr | i Hw
      | rest Hopen Hlt Hq | item rest now' Hopen Hlt Hq Hbinds
      | item rest Hopen Hlt Hq | Hopen Hge ];
      cbn [task_queue worker_threads result_queue task_puts writer finished_workers] in *.
    + split; [eauto|]. auto.
    + split; [eauto|]. auto.
    + split; [eauto|]. auto.
    + rewrite !count_if_app, !count_if_cons, !count_if_nil.
      apply discover_step_sentinels in Hd as [[Hact _]|(Hact & _ & Hnot)].
      * injection Hact as ->. cbn [is_none is_some].
        split; [|split; [lia|split; [intros ?; rewrite Nat.add_0_r; auto | exact Hres]]].
        exists ts, (S n). rewrite Hshape, <- app_assoc, replicate_snoc. reflexivity.
      * destruct item as [t|]; [|congruence]. cbn [is_none is_some].
        assert (Hzero : count_if is_none (task_puts s) = 0%nat).
        { destruct (decide (sentinels_due (workers R) (discovery s) = workers R)) as [?|Hne];
            [lia|]. exfalso. exact (Hnot Hne t eq_refl). }
        rewrite Hshape, Hnone in Hsent.
        assert (n = 0%nat) as -> by lia.
        split; [|split; [rewrite Hshape, Hnone; lia|split; [lia | exact Hres]]].
        exists (ts ++ [t]), 0%nat. rewrite Hshape. cbn [replicate].
        rewrite !app_nil_r, fmap_app. reflexivity.
    + pose proof (count_if_insert took_sentinel _ i WGet (worker_get item) Hw) as Hc.
      rewrite Hq in Hshape, Hsent, Htook. rewrite !count_if_cons in *.
      destruct item as [t|]; cbn [worker_get took_sentinel is_none is_some] in *.
      * destruct ts as [|t' ts]; [destruct n; discriminate|].
        rewrite fmap_cons in Hshape. injection Hshape as -> ->.
        split; [eauto|]. split; [lia|]. split; [lia | exact Hres].
      * destruct ts as [|t' ts]; [|discriminate].
        destruct n as [|n]; [discriminate|]. injection Hshape as ->.
        split; [exists [], n; reflexivity|]. split; [lia|].
        split; [|exact Hres]. intros _.
        rewrite count_if_replicate. reflexivity.
    + pose proof (count_if_insert took_sentinel _ i (WTask task) WGet Hw) as Hc.
      cbn [took_sentinel] in Hc.
      split; [eauto|]. split; [lia|]. split; [|exact Hres].
      intros ?. apply Htook. lia.
    + pose proof (count_if_insert took_sentinel _ i (WTask task) WGet Hw) as Hc.
      cbn [took_sentinel] in Hc.
      split; [eauto|]. split; [lia|]. split; [intros ?; apply Htook; lia|].
      intros pre r post Heq.
      apply snoc_eq_middle in Heq as [(_ & -> & _)|(post' & _ & Heq)];
        [|eapply Hres; exact Heq].
      pose proof (count_if_lt_length has_exited _ i (WTask task) Hw eq_refl). lia.
    + pose proof (count_if_insert took_sentinel _ i WSentinel WExit Hw) as Hc.
      cbn [took_sentinel] in Hc.
      split; [eauto|]. split; [lia|]. split; [intros ?; apply Htook; lia|].
      intros pre r post Heq.
      apply snoc_eq_middle in Heq as [(_ & _ & ?)|(post' & _ & Heq)];
        [discriminate | eapply Hres; exact Heq].
    + split; [eauto|]. split; [exact Hsent|]. split; [exact Htook|].
      intros pre r post Heq.
      specialize (Hres (None :: pre) r post). rewrite Hq, Heq in Hres.
      specialize (Hres eq_refl). rewrite count_if_cons in Hres. cbn [is_none] in Hres.
      lia.
    + split; [eauto|]. split; [exact Hsent|]. split; [exact Htook|].
      intros pre r post Heq.
      specialize (Hres (Some item :: pre) r post). rewrite Hq, Heq in Hres.
      specialize (Hres eq_refl). rewrite count_if_cons in Hres. cbn [is_none] in Hres.
      lia.
    + split; [eauto|]. split; [exact Hsent|]. split; [exact Htook|].
      intros pre r post Heq.
      specialize (Hres (Some item :: pre) r post). rewrite Hq, Heq in Hres.
      specialize (Hres eq_refl). rewrite count_if_cons in Hres. cbn [is_none] in Hres.
      lia.
    + split; [eauto|]. auto.
Qed.

(** When all the workers have returned, no task waits in the task queue or
    in the hands of a worker. *)
Lemma workers_exited_nothing_waits (R : Run) (db0 : Db) (cancel : bool) (now : Z)
    (s : System) :
  (1 <= workers R)%nat ->
  reachable R db0 cancel now s ->
  Forall (fun w => w = WExit) (worker_threads s) ->
  omap id (task_queue s) = [] /\ omap task_of_worker (worker_threads s) = [].
Proof.
  intros Hw Hs Hexit.
  pose proof (queue_discipline R db0 cancel now s Hs) as (_ & _ & Htook & _).
  pose proof (worker_sentinels_count R db0 cancel now s Hs) as [Hlen _].
  assert (Hall : count_if took_sentinel (worker_threads s) = length (worker_threads s)
                 /\ omap task_of_worker (worker_threads s) = []).
  { clear -Hexit. induction Hexit as [|w l -> _ [IH1 IH2]]; [split; reflexivity|].
    rewrite count_if_cons, omap_cons_list, IH1, IH2. split; reflexivity. }
  destruct Hall as [Hcount Hnone].
  split; [|exact Hnone].
  apply (omap_no_some id); [reflexivity | apply Htook; lia].
Qed.

(** When all threads have returned and no exception has ended the writer,
    nothing is under way. *)
Lemma joined_nothing_pending (R : Run) (db0 : Db) (cancel : bool) (now : Z)
    (s : System) :
  (1 <= workers R)%nat ->
  reachable R db0 cancel now s -> joined s -> crashed (writer s) = false ->
  pending s = [].
Proof.
  intros Hw Hs (_ & Hexit & Hclosed) Hok.
  pose proof (queue_discipline R db0 cancel now s Hs) as (_ & _ & _ & Hres).
  pose proof (writer_counts R db0 cancel now s Hs) as (_ & _ & Hfin & _).
  destruct (workers_exited_nothing_waits R db0 cancel now s Hw Hs Hexit) as [Hq Hnone].
  unfold pending. rewrite Hq, Hnone.
  rewrite (omap_no_some (fmap task_of_result)); [reflexivity | reflexivity |].
  destruct (some_or_split (result_queue s)) as [?|(pre & r & post & Heq)]; [assumption|].
  specialize (Hres pre r post Heq). specialize (Hfin Hclosed Hok). lia.
Qed.

(** *** The second run *)

Lemma step_task_puts (R : Run) (s s' : System) :
  step R s s' ->
  task_puts s' = task_puts s
  \/ exists item,
       discover_step (workers R) (known_states R) (cancel_event s) (discovery s)
         = Some (DAPut item, discovery s')
       /\ task_puts s' = task_puts s ++ [item].
Proof.
  intros Hstep. destruct Hstep; cbn [task_puts discovery]; eauto.
Qed.

(** A run that knows every file of its tree with its time and size skips
    them all: nothing is ever under way or enqueued, and the counters of
    indexed, failed and queued files stay at zero. *)
Lemma known_tree_is_skipped (R : Run) (db0 : Db) (cancel : bool) (now : Z)
    (s : System) :
  (forall t, t ∈ tasks_of_dirs (walk R) ->
     known_states R !! t.1.1 = Some (t.1.2, t.2)) ->
  reachable R db0 cancel now s ->
  (forall t, t ∈ remaining (discovery s) ->
     known_states R !! t.1.1 = Some (t.1.2, t.2))
  /\ pending s = []
  /\ (forall fs ds, discovery s <> DQueued fs ds)
  /\ count_if is_some (task_puts s) = 0%nat
  /\ files_indexed (tracker s) = 0
  /\ files_failed (tracker s) = 0
  /\ files_queued (tracker s) = 0
  /\ files_skipped (tracker s) + counted (discovery s) = files_total (tracker s).
Proof.
  intros Hknown. revert s. apply reachable_ind.
  - rewrite pending_start. cbn. repeat split; auto.
  - intros s s' _ (Hrem & Hpend & Hq & Hputs & Hidx & Hfail & Hqd & Hskip) Hstep.
    pose proof (step_task_puts R s s' Hstep) as Hlog.
    apply step_summary in Hstep as [_ [(act & Hd & _ & _ & Hact)|[Hdisc Hrest]]].
    + pose proof (discover_step_cases _ _ _ _ _ _ Hd) as Hcases.
      pose proof (discover_step_remaining _ _ _ _ _ _ Hd)
        as (Hsub & _ & _ & Hput & Hqueued & Hfromq & _).
      assert (Hnoput : forall t, act <> DAPut (Some t)).
      { intros t Heq. destruct (Hput t Heq) as [Hin Hne]. apply Hne, Hrem, Hin. }
      assert (Hputs' : count_if is_some (task_puts s') = 0%nat).
      { destruct Hlog as [->|(item & Hd' & ->)]; [exact Hputs|].
        rewrite Hd in Hd'. injection Hd' as ->.
        rewrite count_if_app, count_if_cons, count_if_nil, Hputs.
        destruct item as [t|]; [exfalso; exact (Hnoput t eq_refl) | reflexivity]. }
      split; [auto|]. split.
      { destruct act as [|incs|[t|]]; destruct Hact as [_ Hp];
          [rewrite Hp; exact Hpend | rewrite Hp; exact Hpend
          | exfalso; exact (Hnoput t eq_refl) | rewrite Hp; exact Hpend]. }
      split.
      { intros fs ds Heq. destruct (Hqueued fs ds Heq) as [t Ht].
        exact (Hnoput t Ht). }
      split; [exact Hputs'|].
      destruct (discovery s) as [| | | |[|k] ?|];
        try (exfalso; exact Hcases); cbn [counted] in *;
        try (exfalso; eapply Hq; reflexivity);
        repeat match goal with
               | H : _ /\ _ |- _ => destruct H
               | H : _ \/ _ |- _ => destruct H
               end; subst act;
        try (exfalso; eapply Hnoput; reflexivity);
        destruct Hact as [-> _]; cbn; repeat split; lia.
    + rewrite Hdisc.
      destruct Hrest as [(_ & Htr & Hp)|[(t0 & _ & _ & Hp & _)|(item & now' & Hp & _)]].
      * rewrite Hpend in Hp. apply Permutation_nil_r in Hp.
        assert (Hputs' : count_if is_some (task_puts s') = 0%nat).
        { destruct Hlog as [->|(item & Hd' & ->)]; [exact Hputs|].
          rewrite count_if_app, count_if_cons, count_if_nil, Hputs.
          destruct item as [t|]; [|reflexivity].
          apply discover_step_remaining in Hd' as (_ & _ & _ & Hput & _).
          destruct (Hput t eq_refl) as [Hin Hne]. exfalso. apply Hne, Hrem, Hin. }
        rewrite Htr. auto 10.
      * rewrite Hpend in Hp. apply Permutation_nil_cons in Hp as [].
      * rewrite Hpend in Hp. apply Permutation_nil_cons in Hp as [].
Qed.


Lemma example_tree_functional : stat_functional example_tree.
Proof.
  assert (Heq : tasks_of_dirs example_tree = [(lit "/src/a.c", 1, 10)])
    by (vm_compute; reflexivity).
  intros t1 t2 H1 H2 _. rewrite Heq in H1, H2.
  apply list_elem_of_singleton in H1, H2. congruence.
Qed.

Lemma init_db_well_formed : well_formed init_db.
Proof. repeat split; constructor. Qed.




End Pipeline.

(* ===================================================================== *)
(** * Part III: further properties of the code                            *)
(* ===================================================================== *)

(** ** The edit distance as a metric on the encoded texts *)

Section EditDistanceMetric.
Import CsigCore.

#[local] Opaque lev_rec.

Lemma min3_cases (x y z : nat) :
  (min3 x y z = x /\ (x <= y)%nat /\ (x <= z)%nat)
  \/ (min3 x y z = y /\ (y <= x)%nat /\ (y <= z)%nat)
  \/ (min3 x y z = z /\ (z <= x)%nat /\ (z <= y)%nat).
Proof. unfold min3. lia. Qed.

(** Each entry of the table lies between the difference and the larger of
    its two indices. *)
Lemma lev_rec_bounds a b i j :
  (i - j <= lev_rec a b i j)%nat /\ (j - i <= lev_rec a b i j)%nat
  /\ (lev_rec a b i j <= Nat.max i j)%nat.
Proof.
  revert j. induction i as [|i IHi]; intros j.
  - rewrite lev_rec_0. lia.
  - induction j as [|j IHj].
    + rewrite lev_rec_S0. lia.
    + rewrite lev_rec_SS.
      pose proof (IHi j) as H1. pose proof (IHi (S j)) as H2.
      destruct (decide (a !! i = b !! j)); unfold min3; lia.
Qed.

(** An entry is zero only where the two prefixes are equal. *)
Lemma lev_rec_zero a b i j :
  (i <= length a)%nat -> (j <= length b)%nat ->
  lev_rec a b i j = 0%nat -> i = j /\ take i a = take j b.
Proof.
  revert j. induction i as [|i IH]; intros j Hi Hj.
  - rewrite lev_rec_0. intros ->. split; reflexivity.
  - destruct j as [|j]; [rewrite lev_rec_S0; discriminate|].
    rewrite lev_rec_SS. intros Hzero.
    destruct (min3_cases (lev_rec a b (S i) j + 1) (lev_rec a b i (S j) + 1)
                (lev_rec a b i j + (if decide (a !! i = b !! j) then 0 else 1)))
      as [(Hm & _)|[(Hm & _)|(Hm & _)]]; rewrite Hm in Hzero; try lia.
    destruct (decide (a !! i = b !! j)) as [Heq|]; [|lia].
    destruct (IH j) as [-> Htake]; [lia | lia | lia |].
    split; [reflexivity|].
    destruct (lookup_lt_is_Some_2 a j) as [x Hx]; [lia|].
    rewrite (take_S_r a j x Hx), (take_S_r b j x) by congruence.
    rewrite Htake. reflexivity.
Qed.

(** The triangle inequality on the table, by induction on the sum of the
    three indices. *)
Lemma lev_rec_triangle a b c n :
  forall i j k, (i + j + k <= n)%nat ->
    (lev_rec a c i k <= lev_rec a b i j + lev_rec b c j k)%nat.
Proof.
  induction n as [|n IH]; intros i j k Hn.
  - assert (i = 0 /\ j = 0 /\ k = 0)%nat as (-> & -> & ->) by lia.
    rewrite !lev_rec_0. lia.
  - destruct i as [|i].
    { rewrite !lev_rec_0. pose proof (lev_rec_bounds b c j k). lia. }
    destruct k as [|k].
    { rewrite !lev_rec_col0. pose proof (lev_rec_bounds a b (S i) j). lia. }
    destruct j as [|j].
    { rewrite lev_rec_col0, lev_rec_0. pose proof (lev_rec_bounds a c (S i) (S k)). lia. }
    pose proof (IH i (S j) (S k)) as T1.
    pose proof (IH (S i) (S j) k) as T2.
    pose proof (IH (S i) j (S k)) as T3.
    pose proof (IH (S i) j k) as T4.
    pose proof (IH i j (S k)) as T5.
    pose proof (IH i j k) as T6.
    pose proof (lev_rec_SS a b i j) as Eab.
    pose proof (lev_rec_SS b c j k) as Ebc.
    pose proof (lev_rec_SS a c i k) as Eac.
    destruct (decide (a !! i = c !! k)), (decide (a !! i = b !! j)),
      (decide (b !! j = c !! k)); try congruence; unfold min3 in *; lia.
Qed.

(** X1. [levenshtein_distance] always returns; the distance is at least the
    difference and at most the larger of the numbers of bytes of the two
    lowercased, encoded texts. *)
Theorem levenshtein_distance_bounds `{UnicodeTables} (a b : list Z) :
  exists d,
    levenshtein_distance a b = Some d
    /\ (length (utf8_encode (str_lower a)) - length (utf8_encode (str_lower b)) <= d)%nat
    /\ (length (utf8_encode (str_lower b)) - length (utf8_encode (str_lower a)) <= d)%nat
    /\ (d <= Nat.max (length (utf8_encode (str_lower a)))
                     (length (utf8_encode (str_lower b))))%nat.
Proof.
  eexists. split; [apply levenshtein_distance_rec|]. apply lev_rec_bounds.
Qed.

(** X2. The distance is zero exactly when the lowercased texts have the same
    UTF-8 encoding. *)
Theorem levenshtein_distance_zero_iff `{UnicodeTables} (a b : list Z) :
  levenshtein_distance a b = Some 0%nat
  <-> utf8_encode (str_lower a) = utf8_encode (str_lower b).
Proof.
  rewrite levenshtein_distance_rec. split.
  - intros [= Hzero]. apply lev_rec_zero in Hzero as [Hlen Htake]; [|lia|lia].
    rewrite !take_ge in Htake by lia. exact Htake.
  - intros ->. f_equal. apply lev_rec_diag.
Qed.

(** X3. The triangle inequality: going through a third text is never
    shorter. *)
Theorem levenshtein_distance_triangle `{UnicodeTables} (a b c : list Z) :
  exists dab dbc dac,
    levenshtein_distance a b = Some dab
    /\ levenshtein_distance b c = Some dbc
    /\ levenshtein_distance a c = Some dac
    /\ (dac <= dab + dbc)%nat.
Proof.
  do 3 eexists. repeat split; try apply levenshtein_distance_rec.
  eapply lev_rec_triangle. reflexivity.
Qed.

(** X4. Two ASCII texts that differ only in the case of their letters are
    at the same distance from every text, and at distance zero from each
    other. *)
Theorem levenshtein_distance_ascii_case `{UnicodeTables} (a a' b : list Z) :
  Forall is_ascii a -> Forall is_ascii a' ->
  ascii_lower_cp <$> a = ascii_lower_cp <$> a' ->
  levenshtein_distance a b = levenshtein_distance a' b
  /\ levenshtein_distance a a' = Some 0%nat.
Proof.
  intros Ha Ha' Hcase.
  assert (Hlow : str_lower a = str_lower a')
    by (rewrite !str_lower_ascii by assumption; exact Hcase).
  split.
  - unfold levenshtein_distance. rewrite Hlow. reflexivity.
  - rewrite levenshtein_distance_rec, Hlow. f_equal. apply lev_rec_diag.
Qed.

Lemma levenshtein_distance_ascii_case_witness :
  Forall is_ascii (lit "Foo") /\ Forall is_ascii (lit "foo")
  /\ ascii_lower_cp <$> lit "Foo" = ascii_lower_cp <$> lit "foo"
  /\ @levenshtein_distance ascii_tables (lit "Foo") (lit "kitten")
     = @levenshtein_distance ascii_tables (lit "foo") (lit "kitten")
  /\ @levenshtein_distance ascii_tables (lit "Foo") (lit "foo") = Some 0%nat.
Proof.
  assert (H1 : Forall is_ascii (lit "Foo"))
    by (repeat constructor; unfold is_ascii; lia).
  assert (H2 : Forall is_ascii (lit "foo"))
    by (repeat constructor; unfold is_ascii; lia).
  assert (H3 : ascii_lower_cp <$> lit "Foo" = ascii_lower_cp <$> lit "foo")
    by reflexivity.
  split; [exact H1|]. split; [exact H2|]. split; [exact H3|].
  exact (@levenshtein_distance_ascii_case ascii_tables (lit "Foo") (lit "foo")
           (lit "kitten") H1 H2 H3).
Defined.

End EditDistanceMetric.

(** ** Texts: stripping, searching, white space *)

Section Texts.

Lemma lstrip_idem (s : list Z) : lstrip (lstrip s) = lstrip s.
Proof.
  induction s as [|c s IH]; [reflexivity|].
  cbn [lstrip]. destruct (is_space c) eqn:Hc; [exact IH|].
  cbn [lstrip]. rewrite Hc. reflexivity.
Qed.

Lemma lstrip_app (x y : list Z) :
  lstrip (x ++ y)
  = match lstrip x with [] => lstrip y | _ :: _ => lstrip x ++ y end.
Proof.
  induction x as [|c x IH]; [reflexivity|].
  cbn [app lstrip]. destruct (is_space c); [exact IH | reflexivity].
Qed.

(** [rstrip] by recursion from the left. *)
Lemma rstrip_cons (c : Z) (s : list Z) :
  rstrip (c :: s)
  = match rstrip s with
    | [] => if is_space c then [] else [c]
    | _ :: _ => c :: rstrip s
    end.
Proof.
  unfold rstrip. rewrite reverse_cons, lstrip_app.
  destruct (lstrip (reverse s)) as [|d l] eqn:Hl.
  - cbn [reverse lstrip]. destruct (is_space c); reflexivity.
  - rewrite reverse_app. change (reverse [c]) with [c]. cbn [app].
    destruct (reverse (d :: l)) eqn:Hr; [|reflexivity].
    apply (f_equal reverse) in Hr. rewrite reverse_involutive in Hr. discriminate.
Qed.

Lemma rstrip_nil : rstrip [] = [].
Proof. reflexivity. Qed.

Lemma rstrip_idem (s : list Z) : rstrip (rstrip s) = rstrip s.
Proof. unfold rstrip. rewrite reverse_involutive, lstrip_idem. reflexivity. Qed.

Lemma rstrip_snoc (s : list Z) (c : Z) :
  is_space c = false -> rstrip (s ++ [c]) = s ++ [c].
Proof.
  intros Hc. unfold rstrip. rewrite reverse_app. change (reverse [c]) with [c].
  cbn [app lstrip]. rewrite Hc, reverse_cons, reverse_involutive. reflexivity.
Qed.

Lemma lstrip_head (s : list Z) :
  match lstrip s with [] => True | c :: _ => is_space c = false end.
Proof.
  induction s as [|c s IH]; [exact I|].
  cbn [lstrip]. destruct (is_space c) eqn:Hc; [exact IH | exact Hc].
Qed.

(** Stripping a text that starts with a character that is no white space
    keeps that character at its head. *)
Lemma strip_head (c : Z) (s : list Z) :
  is_space c = false -> exists t, strip (c :: s) = c :: t.
Proof.
  intros Hc. unfold strip. cbn [lstrip]. rewrite Hc, rstrip_cons, Hc.
  destruct (rstrip s); eauto.
Qed.

(** [strip] is idempotent. *)
Lemma strip_idem (s : list Z) : strip (strip s) = strip s.
Proof.
  assert (Hs : strip s = rstrip (lstrip s)) by reflexivity.
  rewrite Hs. clear Hs. pose proof (lstrip_head s) as Hh.
  destruct (lstrip s) as [|c t]; [reflexivity|].
  rewrite rstrip_cons, Hh. unfold strip.
  destruct (rstrip t) as [|z l] eqn:Hr; cbn [lstrip]; rewrite Hh, rstrip_cons.
  - rewrite rstrip_nil, Hh. reflexivity.
  - rewrite <- Hr, rstrip_idem, Hr. reflexivity.
Qed.

Lemma elem_of_lstrip (c : Z) (s : list Z) :
  is_space c = false -> c ∈ s -> c ∈ lstrip s.
Proof.
  intros Hc. induction s as [|d s IH]; [intros Hin; exact Hin|].
  cbn [lstrip]. destruct (is_space d) eqn:Hd; [|intros Hin; exact Hin].
  intros Hin. apply elem_of_cons in Hin as [->|Hin]; [congruence | auto].
Qed.

Lemma elem_of_strip (c : Z) (s : list Z) :
  is_space c = false -> c ∈ s -> c ∈ strip s.
Proof.
  intros Hc Hin. unfold strip, rstrip.
  apply elem_of_reverse, elem_of_lstrip; [exact Hc|].
  apply elem_of_reverse, elem_of_lstrip; assumption.
Qed.

Lemma single_spaced_weaken (b : bool) (s : list Z) :
  single_spaced b s = true -> single_spaced false s = true.
Proof.
  destruct s as [|c s]; [reflexivity|]. cbn [single_spaced].
  destruct (is_space c); [|auto]. destruct b; [|auto].
  rewrite andb_false_r. discriminate.
Qed.

Lemma single_spaced_lstrip (b : bool) (s : list Z) :
  single_spaced b s = true -> single_spaced false (lstrip s) = true.
Proof.
  revert b. induction s as [|c s IH]; intros b; [reflexivity|].
  cbn [lstrip single_spaced]. destruct (is_space c) eqn:Hc.
  - intros Hs. apply andb_true_iff in Hs as [_ Hs]. eauto.
  - intros Hs. cbn [single_spaced]. rewrite Hc. exact Hs.
Qed.

Lemma single_spaced_rstrip (b : bool) (s : list Z) :
  single_spaced b s = true -> single_spaced b (rstrip s) = true.
Proof.
  revert b. induction s as [|c s IH]; intros b; [reflexivity|].
  rewrite rstrip_cons. cbn [single_spaced].
  destruct (rstrip s) as [|d t] eqn:Hr.
  - destruct (is_space c) eqn:Hc; [reflexivity|].
    intros _. cbn [single_spaced]. rewrite Hc. reflexivity.
  - cbn [single_spaced]. destruct (is_space c).
    + intros Hs. apply andb_true_iff in Hs as [Hs1 Hs2]. rewrite Hs1.
      cbn [andb]. apply (IH true Hs2).
    + apply (IH false).
Qed.

Lemma single_spaced_collapse (b : bool) (s : list Z) :
  single_spaced b (collapse_space b s) = true.
Proof.
  revert b. induction s as [|c s IH]; intros b; [reflexivity|].
  cbn [collapse_space]. destruct (is_space c) eqn:Hc.
  - destruct b; [apply IH|]. cbn [single_spaced].
    change (is_space 32) with true. cbn. apply IH.
  - cbn [single_spaced]. rewrite Hc. apply IH.
Qed.

(** What the last two steps of every normalisation leave: a text without
    white space at its ends, in which white space is single spaces. *)
Lemma strip_collapse_canonical (s : list Z) :
  strip (strip (collapse_space false s)) = strip (collapse_space false s)
  /\ single_spaced false (strip (collapse_space false s)) = true.
Proof.
  split; [apply strip_idem|].
  unfold strip. apply single_spaced_rstrip, (single_spaced_lstrip false).
  apply single_spaced_collapse.
Qed.

Lemma starts_with_app_l (p s t : list Z) :
  starts_with p s = true -> starts_with p (s ++ t) = true.
Proof.
  revert s. induction p as [|a p IH]; intros [|b s]; cbn; try discriminate; auto.
  intros Hs. apply andb_true_iff in Hs as [-> Hs]. cbn. auto.
Qed.

Lemma starts_with_snoc (p s : list Z) (c : Z) :
  p <> [] -> c ∉ p -> starts_with p (s ++ [c]) = starts_with p s.
Proof.
  revert s. induction p as [|a p IH]; intros s Hne Hc; [congruence|].
  apply not_elem_of_cons in Hc as [Hac Hc].
  destruct s as [|b s]; cbn [app starts_with].
  - destruct (Z.eqb_spec a c); [congruence | reflexivity].
  - destruct p as [|a' p]; [reflexivity|].
    rewrite IH by (assumption || discriminate). reflexivity.
Qed.

Lemma contains_true (sub s : list Z) :
  contains sub s = true <-> is_Some (find sub s).
Proof. unfold contains. apply bool_decide_eq_true. Qed.

Lemma find_cons_is_Some (sub : list Z) (c : Z) (s : list Z) :
  is_Some (find sub (c :: s))
  <-> starts_with sub (c :: s) = true \/ is_Some (find sub s).
Proof.
  cbn [find]. destruct (starts_with sub (c :: s)).
  - split; [auto | intros _; eexists; reflexivity].
  - rewrite fmap_is_Some. split; [auto | intros [?|?]; [discriminate | assumption]].
Qed.

Lemma contains_app_l (sub s t : list Z) :
  contains sub s = true -> contains sub (s ++ t) = true.
Proof.
  rewrite !contains_true. induction s as [|c s IH].
  - cbn [find app]. destruct (starts_with sub []) eqn:Hs; [|intros [? ?]; discriminate].
    destruct sub; [|discriminate]. intros _. destruct t; eexists; reflexivity.
  - rewrite <- app_comm_cons, !find_cons_is_Some. intros [Hs|Hs].
    + left. apply (starts_with_app_l sub (c :: s) t Hs).
    + right. auto.
Qed.

Lemma contains_app_r (sub s t : list Z) :
  contains sub t = true -> contains sub (s ++ t) = true.
Proof.
  rewrite !contains_true. intros Ht. induction s as [|c s IH]; [exact Ht|].
  rewrite <- app_comm_cons, find_cons_is_Some. auto.
Qed.

Lemma contains_prefix (sub t : list Z) : contains sub (sub ++ t) = true.
Proof.
  rewrite contains_true. destruct (sub ++ t) as [|c u] eqn:Hu.
  - destruct sub; [eexists; reflexivity | discriminate].
  - rewrite find_cons_is_Some. left. rewrite <- Hu. apply starts_with_app.
Qed.

(** A character that does not occur in the text searched for can be added
    at the end without changing the answer. *)
Lemma contains_snoc (sub s : list Z) (c : Z) :
  sub <> [] -> c ∉ sub -> contains sub (s ++ [c]) = contains sub s.
Proof.
  intros Hne Hc. unfold contains. apply bool_decide_ext.
  assert (Hnil : starts_with sub [] = false)
    by (destruct sub; [congruence | reflexivity]).
  induction s as [|d s IH].
  - pose proof (starts_with_snoc sub [] c Hne Hc) as Hs. cbn [app] in *.
    rewrite find_cons_is_Some. cbn [find]. rewrite Hs, Hnil.
    split; [intros [?|[? ?]]; discriminate | intros [? ?]; discriminate].
  - rewrite <- app_comm_cons, !find_cons_is_Some, IH.
    rewrite app_comm_cons, (starts_with_snoc sub (d :: s) c Hne Hc). reflexivity.
Qed.

Lemma contains_singleton (c : Z) (s : list Z) :
  contains [c] s = true <-> c ∈ s.
Proof.
  rewrite contains_true. induction s as [|d s IH].
  - cbn. split; [intros [? ?]; discriminate | intros Hin; inversion Hin].
  - rewrite find_cons_is_Some, IH, elem_of_cons. cbn [starts_with].
    rewrite andb_true_r, Z.eqb_eq. reflexivity.
Qed.

(** Where [find] finds the text, the text is. *)
Lemma find_Some_drop (sub s : list Z) (k : nat) :
  find sub s = Some k -> starts_with sub (drop k s) = true.
Proof.
  revert k. induction s as [|c s IH]; intros k; cbn [find].
  - destruct (starts_with sub []) eqn:Hs; [|discriminate].
    intros [= <-]. exact Hs.
  - destruct (starts_with sub (c :: s)) eqn:Hs.
    + intros [= <-]. exact Hs.
    + destruct (find sub s) as [k'|]; [|discriminate].
      intros [= <-]. cbn [drop]. auto.
Qed.

Lemma take_drop_elem (c : Z) (s : list Z) (k : nat) :
  c ∈ s -> c ∈ take k s \/ c ∈ drop k s.
Proof. rewrite <- (take_drop k s) at 1. apply elem_of_app. Qed.

End Texts.

(** ** The declaration given to the normaliser, and what comes back *)

Section Declarations.
Import CsigCore CsigDb CsigIndexer.
Context `{UnicodeTables}.

Lemma with_semicolon_ends (sig_part : list Z) :
  ends_with (lit ";") (rstrip (with_semicolon sig_part)) = true.
Proof.
  unfold with_semicolon.
  destruct (ends_with (lit ";") (rstrip sig_part)) eqn:He; [exact He|].
  change (lit ";") with [59]. rewrite rstrip_snoc by reflexivity.
  unfold ends_with. rewrite reverse_app. reflexivity.
Qed.

Lemma with_semicolon_fixed (r : list Z) :
  ends_with (lit ";") (rstrip r) = true -> with_semicolon r = r.
Proof. intros He. unfold with_semicolon. rewrite He. reflexivity. Qed.

Lemma search_word_paren_snoc (armed : bool) (s : list Z) :
  search_word_paren armed (s ++ [59]) = search_word_paren armed s.
Proof.
  revert armed. induction s as [|c s IH]; intros armed.
  - cbn [app search_word_paren]. unfold is_word.
    rewrite is_alnum_ascii by (unfold is_ascii; lia).
    rewrite andb_false_r. reflexivity.
  - cbn [app search_word_paren]. rewrite !IH. reflexivity.
Qed.

Lemma kept_as_written_snoc (s : list Z) :
  kept_as_written (s ++ [59]) = kept_as_written s.
Proof.
  unfold kept_as_written.
  rewrite search_word_paren_snoc, !contains_snoc; try discriminate; try reflexivity;
    change (lit "(") with [40]; change (lit ")") with [41];
    change (lit " (") with [32; 40]; change (lit "__q__") with [95; 95; 113; 95; 95];
    rewrite ?elem_of_cons, ?elem_of_nil; lia.
Qed.

Lemma build_fake_declaration_kept (s : list Z) :
  kept_as_written s = true -> _build_fake_declaration s = with_semicolon s.
Proof.
  unfold kept_as_written, _build_fake_declaration. intros Hk.
  destruct (negb (contains (lit "(") s) || negb (contains (lit ")") s));
    [reflexivity|].
  destruct (contains (lit "__q__") s); [reflexivity|].
  destruct (search_word_paren false s && negb (contains (lit " (") s));
    [reflexivity | discriminate].
Qed.

(** X5. The text that [_build_fake_declaration] returns ends with a
    semicolon, trailing white space apart, and building a declaration from
    it again returns it unchanged. *)
Theorem build_fake_declaration_closed (sig_part : list Z) :
  ends_with (lit ";") (rstrip (_build_fake_declaration sig_part)) = true
  /\ _build_fake_declaration (_build_fake_declaration sig_part)
     = _build_fake_declaration sig_part.
Proof.
  destruct (kept_as_written sig_part) eqn:Hk.
  - rewrite (build_fake_declaration_kept sig_part Hk).
    split; [apply with_semicolon_ends|].
    assert (Hk' : kept_as_written (with_semicolon sig_part) = true).
    { unfold with_semicolon. destruct (ends_with _ _); [exact Hk|].
      change (lit ";") with [59]. rewrite kept_as_written_snoc. exact Hk. }
    rewrite (build_fake_declaration_kept _ Hk').
    apply with_semicolon_fixed, with_semicolon_ends.
  - unfold kept_as_written in Hk. unfold _build_fake_declaration at 1 3 4.
    destruct (negb (contains (lit "(") sig_part) || negb (contains (lit ")") sig_part))
      eqn:H1; [discriminate|].
    destruct (contains (lit "__q__") sig_part) eqn:H2; [discriminate|].
    destruct (search_word_paren false sig_part && negb (contains (lit " (") sig_part))
      eqn:H3; [discriminate|].
    apply orb_false_iff in H1 as [H1 _]. apply negb_false_iff in H1.
    destruct (find (lit "(") sig_part) as [k|] eqn:Hfind.
    2:{ apply contains_true in H1. rewrite Hfind in H1. destruct H1; discriminate. }
    set (ret := strip (take k sig_part)).
    set (params := strip (drop k sig_part)).
    assert (Hend : ends_with (lit ";")
                     (rstrip (ret ++ lit " __q__ " ++ params ++ lit ";")) = true).
    { replace (ret ++ lit " __q__ " ++ params ++ lit ";")
        with ((ret ++ lit " __q__ " ++ params) ++ [59])
        by (rewrite <- !app_assoc; reflexivity).
      rewrite rstrip_snoc by reflexivity.
      unfold ends_with. rewrite reverse_app. reflexivity. }
    split; [exact Hend|].
    rewrite build_fake_declaration_kept; [apply with_semicolon_fixed, Hend|].
    unfold kept_as_written.
    replace (ret ++ lit " __q__ " ++ params ++ lit ";")
      with ((ret ++ [32]) ++ lit "__q__" ++ ([32] ++ params ++ lit ";"))
      by (rewrite <- !app_assoc; reflexivity).
    rewrite (contains_app_r (lit "__q__")) by apply contains_prefix.
    rewrite orb_true_r. reflexivity.
Qed.

Lemma or_none_Some (s n : list Z) : or_none s = Some n -> n = s /\ s <> [].
Proof. destruct s; [discriminate|]. intros [= <-]. split; [reflexivity | discriminate]. Qed.

Lemma truthy_or_none (s : list Z) : truthy (or_none s) = is_some (or_none s).
Proof. destruct s; reflexivity. Qed.

(** X6. The query that [parse_query] returns is in normal form: the name,
    when there is one, is not empty and has no white space at its ends; the
    normalised signature, when there is one, is not empty, has no white
    space at its ends, and its white space is single spaces. So no field
    is ever the empty text, and testing a field for truth is testing it for
    [None]. *)
Theorem parse_query_canonical
    (normalise : Language -> list Z -> option (list Z))
    (query_str : list Z) (q : Query) :
  returned (parse_query normalise query_str) = Some q ->
  (forall n, name q = Some n -> n <> [] /\ strip n = n)
  /\ (forall sig, normalised_signature q = Some sig ->
        sig <> [] /\ strip sig = sig /\ single_spaced false sig = true)
  /\ truthy (name q) = is_some (name q)
  /\ truthy (normalised_signature q) = is_some (normalised_signature q).
Proof.
  unfold parse_query.
  set (parts := match split_once (lit "::") query_str with
                | Some (name_part, sig_part) => (or_none (strip name_part), strip sig_part)
                | None => (None, strip query_str)
                end).
  assert (Hname : forall n, parts.1 = Some n -> n <> [] /\ strip n = n).
  { subst parts. destruct (split_once _ _) as [[name_part sig_part]|]; cbn [fst];
      [|discriminate].
    intros n Hn. apply or_none_Some in Hn as [-> Hne].
    split; [exact Hne | apply strip_idem]. }
  assert (Htruthy : truthy parts.1 = is_some parts.1).
  { subst parts. destruct (split_once _ _) as [[name_part sig_part]|]; cbn [fst];
      [apply truthy_or_none | reflexivity]. }
  destruct parts as [name_ sig_part]. cbn [fst] in *.
  destruct sig_part as [|c sig_part].
  { cbn [returned]. intros [= <-]. cbn [name normalised_signature].
    split; [exact Hname|]. split; [discriminate|]. split; [exact Htruthy | reflexivity]. }
  set (fake := _build_fake_declaration (c :: sig_part)).
  destruct (normalise LangC fake) as [norm|];
    [|destruct (normalise LangCpp fake) as [norm|]; [|discriminate]];
    cbn [returned]; intros [= <-]; cbn [name normalised_signature];
    (split; [exact Hname|]); (split; [|split; [exact Htruthy | apply truthy_or_none]]);
    intros sig Hsig; apply or_none_Some in Hsig as [-> Hne];
    (split; [exact Hne | apply strip_collapse_canonical]).
Qed.



(** The scenario of the test suite for [Function.normalised_signature]. *)
Example function_normalised_signature_param_types :
  @function_normalised_signature ascii_tables
    (fun _ proto =>
       if bool_decide (proto = lit "int __f__(int, const char *);")
       then Some (lit "int __f__ ( int , const char * ) ;") else None)
    {| fn_name := lit "f";
       fn_location := {| file_name := lit "x.c"; line := 1; column := 1 |};
       fn_return_type := lit "int";
       fn_parameters := [(lit "int", Some (lit "a")); (lit "const char *", Some (lit "b"))];
       fn_is_variadic := false;
       fn_signature_norm := None |}
    (lit "c")
  = Some (lit "int ( int , const char * )").
Proof. vm_compute. reflexivity. Qed.

End Declarations.

Lemma parse_query_canonical_witness :
  CsigCore.returned (@CsigCore.parse_query ascii_tables
              (fun _ _ => Some (lit "int __q__ ( int ,   int ) ;"))
              (lit " add :: int (int, int)"))
  = Some {| CsigCore.name := Some (lit "add");
            CsigCore.normalised_signature := Some (lit "int ( int , int )") |}
  /\ strip (lit "int ( int , int )") = lit "int ( int , int )"
  /\ single_spaced false (lit "int ( int , int )") = true.
Proof.
  assert (Hq : CsigCore.returned (@CsigCore.parse_query ascii_tables
                           (fun _ _ => Some (lit "int __q__ ( int ,   int ) ;"))
                           (lit " add :: int (int, int)"))
               = Some {| CsigCore.name := Some (lit "add");
                         CsigCore.normalised_signature := Some (lit "int ( int , int )") |})
    by (vm_compute; reflexivity).
  split; [exact Hq|].
  destruct (@parse_query_canonical ascii_tables _ _ _ Hq) as (_ & Hsig & _).
  destruct (Hsig (lit "int ( int , int )") eq_refl) as (_ & Hstrip & Hsingle).
  split; [exact Hstrip | exact Hsingle].
Defined.

(** ** The include paths of the default compiler *)

Section IncludePaths.
Import CsigCore.









(** The scenario of the test suite. *)
Example clang_c_include_path_args_parsing :
  clang_c_include_path_args
    (RunCompleted 0
       (lit "random" ++ [10] ++ start_marker ++ [10] ++ lit " /usr/include" ++ [10]
        ++ mid_marker ++ [10] ++ lit " /usr/local/include" ++ [10] ++ end_marker))
  = Some [lit "-isystem"; lit "/usr/include"; lit "-isystem"; lit "/usr/local/include"].
Proof. vm_compute. reflexivity. Qed.

(** A second line that is the start marker is returned as a directory. *)
Example clang_c_include_path_args_second_start :
  clang_c_include_path_args
    (RunCompleted 0
       (start_marker ++ [10] ++ start_marker ++ [10] ++ lit " /usr/include" ++ [10]
        ++ end_marker))
  = Some [lit "-isystem"; start_marker; lit "-isystem"; lit "/usr/include"].
Proof. vm_compute. reflexivity. Qed.


End IncludePaths.

(** ** Translation units and the parse of one file *)

Section TranslationUnits.
Import CsigCore CsigDb CsigIndexer.

(** Induction on a cursor, with the property for all its children. *)
Lemma Cursor_children_ind (P : Cursor -> Prop) :
  (forall node, Forall P (cu_children node) -> P node) -> forall node, P node.
Proof.
  intros Hstep. fix IH 1. intros node. apply Hstep.
  destruct node as [k f l c sp ts rs v children]. cbn [cu_children].
  induction children as [|x xs IHxs]; constructor; [apply IH | exact IHxs].
Qed.

Lemma visit_unfold (collect_ : Cursor -> list Function) (node : Cursor) :
  visit collect_ node = collect_ node ++ (cu_children node ≫= visit collect_).
Proof.
  destruct node as [k f l c sp ts rs v children]. reflexivity.
Qed.

Lemma visit_only_from_file (resolve : list Z -> option (list Z))
    (f only_path : list Z) (node : Cursor) :
  visit (collect resolve (Some (f, only_path))) node
  = filter (fun fn => in_file resolve f only_path (file_name (fn_location fn)) = true)
      (visit (collect resolve None) node).
Proof.
  induction node as [node IH] using Cursor_children_ind.
  rewrite !visit_unfold, filter_app. f_equal.
  - unfold collect. destruct (cu_kind node); try reflexivity.
    destruct (cu_file node) as [loc_file|]; [|reflexivity].
    destruct (in_file resolve f only_path loc_file) eqn:Hin.
    + rewrite filter_cons_True by exact Hin. reflexivity.
    + rewrite filter_cons_False by (cbn; congruence). reflexivity.
  - induction IH as [|x xs Hx _ IHxs]; [reflexivity|].
    cbn [mbind list_bind]. rewrite filter_app, Hx, IHxs. reflexivity.
Qed.

(** X9. Restricting [iter_functions] to one file only filters: it returns
    the functions of the unrestricted traversal whose file resolves to the
    resolved [only_from_file] (or, when resolving the file of a declaration
    raises, whose file is [only_from_file] as written), in the same order
    and unchanged. When [only_from_file] itself cannot be resolved, the
    exception leaves [iter_functions]. *)
Theorem iter_functions_only_from_file (resolve : list Z -> option (list Z))
    (tu : Cursor) (f : list Z) :
  exists all,
    iter_functions resolve tu None = Some all
    /\ iter_functions resolve tu (Some f)
       = match resolve f with
         | Some only_path =>
             Some (filter (fun fn => in_file resolve f only_path
                                       (file_name (fn_location fn)) = true) all)
         | None => None
         end.
Proof.
  eexists. split; [reflexivity|]. unfold iter_functions.
  destruct (resolve f) as [only_path|]; [|reflexivity].
  cbn [mbind option_bind]. rewrite visit_only_from_file. reflexivity.
Qed.

Context `{UnicodeTables}.

Lemma clang_language_arg_c : _clang_language_arg (lit "c") = lit "-xc".
Proof.
  unfold _clang_language_arg, is_cpp_language.
  replace (strip (lit "c")) with (lit "c") by reflexivity.
  rewrite str_lower_ascii by (repeat constructor; unfold is_ascii; lia).
  reflexivity.
Qed.

Lemma clang_language_arg_cpp : _clang_language_arg (lit "c++") = lit "-xc++".
Proof.
  unfold _clang_language_arg, is_cpp_language.
  replace (strip (lit "c++")) with (lit "c++") by reflexivity.
  rewrite str_lower_ascii by (repeat constructor; unfold is_ascii; lia).
  reflexivity.
Qed.

Lemma language_candidates_cases (suffix : list Z) :
  Forall (fun l => l = lit "c" \/ l = lit "c++") (_language_candidates_for_path suffix)
  /\ _language_candidates_for_path suffix <> [].
Proof.
  unfold _language_candidates_for_path.
  repeat case_bool_decide; (split; [|discriminate]);
    repeat first [ apply Forall_nil_2
                 | apply Forall_cons_2; [first [left; reflexivity | right; reflexivity]|] ].
Qed.

Lemma join_starts_with (p sep e : list Z) (es : list (list Z)) :
  starts_with p e = true -> starts_with p (join sep (e :: es)) = true.
Proof.
  intros He. cbn [join]. destruct es; [exact He | apply starts_with_app_l, He].
Qed.

Lemma parse_languages_outcome (parse : list Z -> ParseAttempt)
    (normalise : Language -> list Z -> option (list Z))
    (resolve : list Z -> option (list Z)) (path : list Z)
    (languages : list (list Z)) (parse_errors : list (list Z))
    (r : list Function * option (list Z)) :
  Forall (fun l => l = lit "c" \/ l = lit "c++") languages ->
  Forall (fun e => starts_with (lit "c") e = true) parse_errors ->
  languages <> [] \/ parse_errors <> [] ->
  parse_languages parse normalise resolve path languages parse_errors = Some r ->
  (r.2 = None
   /\ exists language tu functions earlier later,
        languages = earlier ++ language :: later
        /\ Forall (fun l => forall tu', parse (_clang_language_arg l) <> Parsed [] tu')
             earlier
        /\ parse (_clang_language_arg language) = Parsed [] tu
        /\ iter_functions resolve tu (Some path) = Some functions
        /\ r.1 = set_signature_norm normalise language <$> functions)
  \/ (r.1 = []
      /\ Forall (fun l => forall tu', parse (_clang_language_arg l) <> Parsed [] tu')
           languages
      /\ exists e, r.2 = Some e /\ starts_with (lit "c") e = true).
Proof.
  revert parse_errors. induction languages as [|language languages IH];
    intros parse_errors Hlang Herr Hne; cbn [parse_languages].
  - destruct parse_errors as [|e es]; [destruct Hne; congruence|].
    intros [= <-]. right. split; [reflexivity|]. split; [constructor|].
    eexists. split; [reflexivity|].
    apply Forall_cons in Herr as [He _].
    exact (join_starts_with (lit "c") [10] e es He).
  - apply Forall_cons in Hlang as [Hl Hlang].
    assert (Hnew : forall text, Forall (fun e => starts_with (lit "c") e = true)
                                  (parse_errors ++ [language ++ text])).
    { intros text. apply Forall_app. split; [exact Herr|]. constructor; [|constructor].
      destruct Hl as [->| ->]; reflexivity. }
    assert (Hgo : (forall tu', parse (_clang_language_arg language) <> Parsed [] tu') ->
              forall text,
              parse_languages parse normalise resolve path languages
                (parse_errors ++ [language ++ text]) = Some r ->
              (r.2 = None
               /\ exists language0 tu functions earlier later,
                    language :: languages = earlier ++ language0 :: later
                    /\ Forall (fun l => forall tu',
                                 parse (_clang_language_arg l) <> Parsed [] tu') earlier
                    /\ parse (_clang_language_arg language0) = Parsed [] tu
                    /\ iter_functions resolve tu (Some path) = Some functions
                    /\ r.1 = set_signature_norm normalise language0 <$> functions)
              \/ (r.1 = []
                  /\ Forall (fun l => forall tu',
                               parse (_clang_language_arg l) <> Parsed [] tu')
                       (language :: languages)
                  /\ exists e, r.2 = Some e /\ starts_with (lit "c") e = true)).
    { intros Hfailed text Hr0.
      destruct (IH (parse_errors ++ [language ++ text]) Hlang (Hnew text)) as
        [(Hnone & l0 & tu & fs & earlier & later & Hsplit & Hearlier & Hp & Hit & Hfs)
        |(Hnil & Hall & Hfail)]; [| exact Hr0 | |].
      - right. intros Heq. apply app_eq_nil in Heq as [_ Heq]. discriminate.
      - left. split; [exact Hnone|].
        exists l0, tu, fs, (language :: earlier), later.
        split; [rewrite Hsplit; reflexivity|].
        split; [constructor; assumption | auto].
      - right. split; [exact Hnil|]. split; [constructor; assumption | exact Hfail]. }
    destruct (parse (_clang_language_arg language)) as [exc|[|e errors] tu] eqn:Hparse.
    + apply Hgo. intros tu'. discriminate.
    + destruct (iter_functions resolve tu (Some path)) as [functions|] eqn:Hit;
        [|discriminate].
      intros [= <-]. left. split; [reflexivity|].
      exists language, tu, functions, [], languages.
      split; [reflexivity|]. split; [constructor | auto].
    + apply Hgo. intros tu'. discriminate.
Qed.

(** X10. When [parse_source_file] returns, it returns either no error and
    the functions of the first language, of those tried in order, that
    libclang parses without a diagnostic of severity [Error], every
    language before it in the list having raised or given such a
    diagnostic: the functions of the translation unit that are located in
    the parsed file, each with its signature set; or, when every language
    of the list has raised or given such a diagnostic, no function and an
    error text that is not empty. The text ["Unsupported file type"] is
    never returned, because no path is without a language to try. *)
Theorem parse_source_file_outcome (parse : list Z -> ParseAttempt)
    (normalise : Language -> list Z -> option (list Z))
    (resolve : list Z -> option (list Z)) (path suffix : list Z)
    (r : list Function * option (list Z)) :
  parse_source_file parse normalise resolve path suffix = Some r ->
  (r.2 = None
   /\ exists language flag tu only_path all earlier later,
        _language_candidates_for_path suffix = earlier ++ language :: later
        /\ Forall (fun l => forall tu', parse (_clang_language_arg l) <> Parsed [] tu')
             earlier
        /\ (language, flag) ∈ [(lit "c", lit "-xc"); (lit "c++", lit "-xc++")]
        /\ parse flag = Parsed [] tu
        /\ resolve path = Some only_path
        /\ iter_functions resolve tu None = Some all
        /\ r.1 = set_signature_norm normalise language
                 <$> filter (fun fn => in_file resolve path only_path
                                         (file_name (fn_location fn)) = true) all)
  \/ (r.1 = []
      /\ Forall (fun l => forall tu', parse (_clang_language_arg l) <> Parsed [] tu')
           (_language_candidates_for_path suffix)
      /\ exists e, r.2 = Some e /\ e <> [] /\ e <> lit "Unsupported file type").
Proof.
  unfold parse_source_file. intros Hr.
  destruct (language_candidates_cases suffix) as [Hlang Hne].
  destruct (parse_languages_outcome parse normalise resolve path _ [] r Hlang
              (Forall_nil_2 _) (or_introl Hne) Hr)
    as [(Hnone & language & tu & functions & earlier & later & Hsplit & Hearlier
         & Hparse & Hit & Hfs)
       |(Hnil & Hall & e & He & Hstart)].
  - left. split; [exact Hnone|].
    unfold iter_functions in Hit.
    destruct (resolve path) as [only_path|]; [|discriminate].
    cbn [mbind option_bind] in Hit. rewrite visit_only_from_file in Hit.
    injection Hit as <-.
    assert (Hin : language ∈ _language_candidates_for_path suffix)
      by (rewrite Hsplit; apply elem_of_app; right; left).
    rewrite Forall_forall in Hlang. specialize (Hlang language Hin).
    exists language, (_clang_language_arg language), tu, only_path,
      (visit (collect resolve None) tu), earlier, later.
    split; [exact Hsplit|]. split; [exact Hearlier|]. split.
    { destruct Hlang as [->| ->];
        rewrite ?clang_language_arg_c, ?clang_language_arg_cpp; set_solver. }
    auto.
  - right. split; [exact Hnil|]. split; [exact Hall|]. exists e. split; [exact He|].
    split; intros ->; discriminate.
Qed.

Lemma apply_result_failed_functions (store : Db) (progress : Progress)
    (item : Result) (now : Z) :
  truthy (r_error item) = true ->
  functions (apply_result store progress item now).1 = functions store.
Proof.
  intros Ht. unfold apply_result.
  pose proof (get_or_create_file_functions store (r_path item) (r_mtime item)
                (r_size item)) as [Hf _].
  destruct (get_or_create_file store (r_path item) (r_mtime item) (r_size item)).
  rewrite Ht. exact Hf.
Qed.

(** X11. A file is counted as failed exactly when its parse failed: if the
    index could not be created, [parse_source_file] raised, or it returned
    an error, the result that the worker puts has no function and an error
    that is not empty; the body of the writer's loop for it leaves that
    error as [last_error] of the row of the path, counts the file in
    [files_failed] and writes no function row. Otherwise the error is
    [None] and the body counts the file in [files_indexed] with the number
    of its functions. An empty error text, which the writer would take for
    a success, does not occur. The writer, taking the result from the
    queue, runs that body to its end when the store can bind the path and
    the error text or the texts of the functions; when it cannot, the
    statement raises, nothing is recorded or counted, and the writer
    thread ends. *)
Theorem failed_parse_is_counted_failed (parse : list Z -> ParseAttempt)
    (normalise : Language -> list Z -> option (list Z))
    (resolve : list Z -> option (list Z)) (suffix traceback : list Z)
    (create_exc : option (list Z)) (task : Task) (store : Db)
    (progress : Progress) (now : Z) :
  traceback <> [] ->
  exists item,
    worker_task false task
      (worker_parse create_exc
         (parse_source_file parse normalise resolve task.1.1 suffix) traceback)
    = Some item
    /\ task_of_result item = task
    /\ ((truthy (r_error item) = true /\ r_functions item = []
         /\ (create_exc <> None
             \/ parse_source_file parse normalise resolve task.1.1 suffix = None
             \/ exists e, parse_source_file parse normalise resolve task.1.1 suffix
                          = Some ([], Some e) /\ r_error item = Some e)
         /\ binds_result item
            = binds_text (r_path item) && binds_text (default [] (r_error item))
         /\ (exists row,
               file_of (apply_result store progress item now).1 (r_path item) = Some row
               /\ fi_last_error row = r_error item /\ fi_last_error row <> None
               /\ fi_last_error row <> Some [])
         /\ (apply_result store progress item now).2
            = inc progress [(FilesFailed, 1); (FilesDone, 1)]
         /\ functions (apply_result store progress item now).1 = functions store)
        \/ (r_error item = None /\ create_exc = None
            /\ parse_source_file parse normalise resolve task.1.1 suffix
               = Some (r_functions item, None)
            /\ binds_result item
               = binds_text (r_path item) && forallb binds_function (r_functions item)
            /\ (exists row,
                  file_of (apply_result store progress item now).1 (r_path item)
                  = Some row /\ fi_last_error row = None)
            /\ (apply_result store progress item now).2
               = inc progress [(FilesIndexed, 1); (FilesDone, 1);
                               (FunctionsTotal, Z.of_nat (length (r_functions item)))]))
    /\ (forall R s rest,
          db s = store -> tracker s = progress ->
          closed (writer s) = false ->
          (finished_workers (writer s) < workers R)%nat ->
          result_queue s = Some item :: rest ->
          exists s',
            move R (MWriter now) s = Some s' /\ step R s s'
            /\ result_queue s' = rest
            /\ if binds_result item
               then db s' = (apply_result store progress item now).1
                    /\ tracker s' = (apply_result store progress item now).2
                    /\ writer s' = writer s
               else db s' = store /\ tracker s' = progress
                    /\ closed (writer s') = true /\ crashed (writer s') = true).
Proof.
  intros Htb. destruct task as [[path mtime] size]. cbn [fst snd worker_task].
  eexists. split; [reflexivity|]. split; [reflexivity|].
  split.
  2:{ intros R s rest <- <- Hopen Hlt Hq.
      exact (writer_takes_result R s _ rest now Hopen Hlt Hq). }
  assert (Hfail : forall e, e <> [] ->
            forall item, r_error item = Some e -> r_functions item = [] ->
            truthy (r_error item) = true /\ r_functions item = []
            /\ binds_result item
               = binds_text (r_path item) && binds_text (default [] (r_error item))
            /\ (exists row,
                  file_of (apply_result store progress item now).1 (r_path item)
                  = Some row
                  /\ fi_last_error row = r_error item /\ fi_last_error row <> None
                  /\ fi_last_error row <> Some [])
            /\ (apply_result store progress item now).2
               = inc progress [(FilesFailed, 1); (FilesDone, 1)]
            /\ functions (apply_result store progress item now).1 = functions store).
  { intros e He item Hitem Hfs.
    assert (Ht : truthy (r_error item) = true)
      by (rewrite Hitem; destruct e; [congruence | reflexivity]).
    split; [exact Ht|]. split; [exact Hfs|].
    split; [unfold binds_result; rewrite Ht; reflexivity|].
    split.
    { destruct (apply_result_failed_row store progress item now Ht)
        as (row & Hrow & Hlast & _).
      exists row. split; [exact Hrow|]. split; [exact Hlast|].
      rewrite Hlast, Hitem. split; congruence. }
    split; [rewrite apply_result_tracker, Ht; reflexivity|].
    apply apply_result_failed_functions, Ht. }
  assert (Hcases : forall A B C D E F : Prop,
            A /\ B /\ D /\ E /\ F -> C -> A /\ B /\ C /\ D /\ E /\ F) by tauto.
  unfold worker_parse. destruct create_exc as [exc|].
  { left. apply Hcases; [|left; discriminate].
    eapply Hfail; [|reflexivity|reflexivity]. discriminate. }
  destruct (parse_source_file parse normalise resolve path suffix) as [r|] eqn:Hr.
  2:{ left. apply Hcases; [|right; left; reflexivity].
      eapply Hfail; [exact Htb|reflexivity|reflexivity]. }
  unfold parse_source_file in Hr.
  destruct (language_candidates_cases suffix) as [Hlang Hne].
  destruct (parse_languages_outcome parse normalise resolve path _ [] r Hlang
              (Forall_nil_2 _) (or_introl Hne) Hr)
    as [(Hnone & _)|(Hnil & _ & e & He & Hstart)].
  - right. destruct r as [fs err]. cbn [fst snd] in *. subst err.
    split; [reflexivity|]. split; [reflexivity|]. split; [reflexivity|].
    split; [reflexivity|]. split.
    { match goal with
      | |- context [apply_result store progress ?item now] =>
          destruct (apply_result_indexed_row store progress item now eq_refl)
            as (row & Hrow & Hlast)
      end.
      exists row. split; [exact Hrow | exact Hlast]. }
    rewrite apply_result_tracker. reflexivity.
  - left. destruct r as [fs err]. cbn [fst snd] in *. subst fs err.
    apply Hcases; [|right; right; exists e; split; reflexivity].
    eapply Hfail; [|reflexivity | reflexivity]. intros ->. discriminate.
Qed.

End TranslationUnits.

Lemma failed_parse_is_counted_failed_witness :
  lit "Traceback" <> []
  /\ exists item,
       CsigIndexer.worker_task false (lit "/src/a.h", 1, 10)
         (CsigIndexer.worker_parse None
            (@CsigIndexer.parse_source_file ascii_tables
               (fun _ => CsigIndexer.ParseRaised (lit "no such file"))
               (fun _ _ => None) (fun p => Some p) (lit "/src/a.h") (lit ".h"))
            (lit "Traceback"))
       = Some item
       /\ truthy (CsigIndexer.r_error item) = true
       /\ CsigIndexer.r_functions item = []
       /\ exists row,
            CsigDb.file_of
              (CsigIndexer.apply_result CsigDb.init_db CsigIndexer.new_tracker item 0).1
              (CsigIndexer.r_path item) = Some row
            /\ CsigDb.fi_last_error row = CsigIndexer.r_error item
            /\ CsigDb.fi_last_error row <> None.
Proof.
  assert (Htb : lit "Traceback" <> []) by discriminate.
  split; [exact Htb|].
  destruct (@failed_parse_is_counted_failed ascii_tables
              (fun _ => CsigIndexer.ParseRaised (lit "no such file"))
              (fun _ _ => None) (fun p => Some p) (lit ".h") (lit "Traceback")
              None (lit "/src/a.h", 1, 10) CsigDb.init_db CsigIndexer.new_tracker 0 Htb)
    as (item & Hitem
        & _ & [(Ht & Hfs & _ & _ & (row & Hrow & Hlast & Hset & _) & _)
              |(Hnone & _ & Hparse & _)] & _).
  - exists item. split; [exact Hitem|]. split; [exact Ht|]. split; [exact Hfs|].
    exists row. split; [exact Hrow|]. split; [exact Hlast | exact Hset].
  - exfalso. vm_compute in Hparse. discriminate.
Defined.

Lemma parse_source_file_outcome_witness :
  @CsigIndexer.parse_source_file ascii_tables
    (fun _ => CsigIndexer.ParseRaised (lit "no such file"))
    (fun _ _ => None) (fun p => Some p) (lit "/src/a.h") (lit ".h")
  = Some ([], Some (lit "c: libclang parse failed: no such file" ++ [10]
                    ++ lit "c++: libclang parse failed: no such file"))
  /\ lit "c: libclang parse failed: no such file" ++ [10]
     ++ lit "c++: libclang parse failed: no such file" <> lit "Unsupported file type"
  /\ @CsigIndexer.parse_source_file ascii_tables example_parse_cpp
       (fun _ _ => None) (fun p => Some p) (lit "/src/a.h") (lit ".h")
     = Some ([], None)
  /\ exists language later,
       CsigIndexer._language_candidates_for_path (lit ".h")
       = [lit "c"] ++ language :: later
       /\ language = lit "c++"
       /\ (forall tu, example_parse_cpp (@CsigCore._clang_language_arg ascii_tables
                                           (lit "c"))
                      <> CsigIndexer.Parsed [] tu).
Proof.
  assert (Hr : @CsigIndexer.parse_source_file ascii_tables
                 (fun _ => CsigIndexer.ParseRaised (lit "no such file"))
                 (fun _ _ => None) (fun p => Some p) (lit "/src/a.h") (lit ".h")
               = Some ([], Some (lit "c: libclang parse failed: no such file" ++ [10]
                                 ++ lit "c++: libclang parse failed: no such file")))
    by (vm_compute; reflexivity).
  assert (Hr2 : @CsigIndexer.parse_source_file ascii_tables example_parse_cpp
                  (fun _ _ => None) (fun p => Some p) (lit "/src/a.h") (lit ".h")
                = Some ([], None))
    by (vm_compute; reflexivity).
  split; [exact Hr|]. split.
  { destruct (@parse_source_file_outcome ascii_tables _ _ _ _ _ _ Hr)
      as [(Hnone & _)|(_ & _ & e & He & _ & Hne)].
    - discriminate.
    - cbn [snd] in He. injection He as <-. exact Hne. }
  split; [exact Hr2|].
  destruct (@parse_source_file_outcome ascii_tables _ _ _ _ _ _ Hr2)
    as [(_ & language & flag & tu & only_path & all & earlier & later & Hsplit
         & Hearlier & Hflag & Hparse & _)|(_ & _ & e & He & _)];
    [|discriminate].
  assert (Hc : forall tu', example_parse_cpp (@CsigCore._clang_language_arg ascii_tables
                                                (lit "c"))
                           <> CsigIndexer.Parsed [] tu')
    by (intros tu'; vm_compute; discriminate).
  change (CsigIndexer._language_candidates_for_path (lit ".h"))
    with [lit "c"; lit "c++"] in Hsplit |- *.
  destruct earlier as [|l1 [|l2 earlier]].
  - exfalso. injection Hsplit as <- _.
    apply elem_of_cons in Hflag as [Hflag|Hflag].
    + injection Hflag as ->. vm_compute in Hparse. discriminate.
    + apply list_elem_of_singleton in Hflag. vm_compute in Hflag. discriminate.
  - injection Hsplit as <- <- <-. exists (lit "c++"), [].
    split; [reflexivity|]. split; [reflexivity | exact Hc].
  - exfalso. injection Hsplit as _ _ Hsplit. destruct earlier; discriminate.
Defined.

(** ** The store as a whole *)

Section StoreIntegrity.
Import CsigCore CsigDb CsigIndexer.

Lemma insert_functions_ids (file_id seq : Z) (fs : list Function) :
  NoDup (f_id <$> insert_functions file_id seq fs)
  /\ Forall (fun r => seq < f_id r <= seq + Z.of_nat (length fs))
       (insert_functions file_id seq fs).
Proof.
  revert seq. induction fs as [|f fs IH]; intros seq.
  - split; constructor.
  - destruct (IH (seq + 1)) as [Hnd Hall].
    cbn [insert_functions fmap list_fmap].
    split.
    + apply NoDup_cons. split; [|exact Hnd]. intros Hin.
      apply list_elem_of_fmap in Hin as (r & Hr & Hin).
      rewrite Forall_forall in Hall. specialize (Hall r Hin). cbn in Hr. lia.
    + constructor; [cbn; lia|]. eapply Forall_impl; [exact Hall|].
      cbn. intros r ?. lia.
Qed.

Lemma get_or_create_file_ids (db : Db) (path : list Z) (mtime size : Z) :
  (forall i, i ∈ fi_id <$> files db ->
             i ∈ fi_id <$> files (get_or_create_file db path mtime size).1)
  /\ (get_or_create_file db path mtime size).2
     ∈ fi_id <$> files (get_or_create_file db path mtime size).1.
Proof.
  unfold get_or_create_file.
  destruct (List.find _ (files db)) as [row|] eqn:Hfind; cbn [fst snd].
  - unfold update_files. cbn [files]. rewrite fmap_update_keep by reflexivity.
    split; [auto|]. apply find_elem in Hfind as [Hrow _].
    apply list_elem_of_fmap_2. exact Hrow.
  - cbn [files]. rewrite fmap_app. split.
    + intros i Hi. apply elem_of_app. left. exact Hi.
    + apply elem_of_app. right. cbn. left.
Qed.

Lemma Forall_filter_keep {A} (P : A -> Prop) (Q : A -> Prop)
    `{forall x, Decision (Q x)} (l : list A) :
  Forall P l -> Forall P (filter Q l).
Proof.
  rewrite !Forall_forall. intros Hl x Hx.
  apply list_elem_of_filter in Hx as [_ Hx]. auto.
Qed.

Lemma NoDup_fmap_filter {A B} (f : A -> B) (Q : A -> Prop)
    `{forall x, Decision (Q x)} (l : list A) :
  NoDup (f <$> l) -> NoDup (f <$> filter Q l).
Proof.
  induction l as [|x l IH]; [intros Hnd; exact Hnd|].
  rewrite fmap_cons, NoDup_cons. intros [Hx Hnd].
  destruct (decide (Q x)) as [Hq|Hq].
  - rewrite filter_cons_True by exact Hq. rewrite fmap_cons, NoDup_cons.
    split; [|auto]. intros Hin. apply Hx.
    apply list_elem_of_fmap in Hin as (y & -> & Hy).
    apply list_elem_of_filter in Hy as [_ Hy]. apply list_elem_of_fmap_2, Hy.
  - rewrite filter_cons_False by exact Hq. auto.
Qed.

(** Applying a result keeps the integrity of the store. *)
Lemma store_integrity_apply_result (store : Db) (progress : Progress)
    (item : Result) (now : Z) :
  store_integrity store -> store_integrity (apply_result store progress item now).1.
Proof.
  intros (Hwf & Hnd & Hseq & Hfk).
  split; [apply apply_result_states, Hwf|].
  pose proof (get_or_create_file_functions store (r_path item) (r_mtime item)
                (r_size item)) as [Hf1 Hs1].
  pose proof (get_or_create_file_ids store (r_path item) (r_mtime item)
                (r_size item)) as [Hids Hid].
  unfold apply_result.
  destruct (get_or_create_file store (r_path item) (r_mtime item) (r_size item))
    as [db1 file_id]. cbn [fst snd] in *.
  assert (Hfk1 : Forall (fun r => f_file_id r ∈ fi_id <$> files db1) (functions store))
    by (eapply Forall_impl; [exact Hfk|]; intros r; apply Hids).
  destruct (truthy (r_error item)); cbn [fst].
  - unfold mark_file_error, update_files. cbn [functions functions_seq files].
    rewrite fmap_update_keep by reflexivity. rewrite Hf1, Hs1. auto.
  - unfold mark_file_parsed, update_files, replace_functions_for_file.
    cbn [functions functions_seq files].
    rewrite fmap_update_keep by reflexivity. rewrite Hf1, Hs1.
    destruct (insert_functions_ids file_id (functions_seq store) (r_functions item))
      as [Hnew Hrange].
    pose proof (insert_functions_spec file_id (functions_seq store) (r_functions item))
      as [Hfile _].
    split; [|split].
    + rewrite fmap_app. apply NoDup_app. split; [|split; [|exact Hnew]].
      * apply NoDup_fmap_filter, Hnd.
      * intros i Hold Hin.
        apply list_elem_of_fmap in Hold as (r & -> & Hr).
        apply list_elem_of_filter in Hr as [_ Hr].
        apply list_elem_of_fmap in Hin as (r' & Heq & Hr').
        rewrite Forall_forall in Hseq, Hrange.
        specialize (Hseq r Hr). specialize (Hrange r' Hr'). lia.
    + apply Forall_app. split.
      * eapply Forall_impl; [apply Forall_filter_keep, Hseq|].
        cbn. intros r ?. lia.
      * eapply Forall_impl; [exact Hrange|]. cbn. intros r ?. lia.
    + apply Forall_app. split.
      * apply Forall_filter_keep, Hfk1.
      * eapply Forall_impl; [exact Hfile|]. cbn. intros r [-> _]. exact Hid.
Qed.

Lemma filter_unique_id (fs : list FileRow) (id : Z) :
  NoDup (fi_id <$> fs) -> id ∈ fi_id <$> fs ->
  exists fi, filter (fun fi => fi_id fi = id) fs = [fi] /\ fi_id fi = id.
Proof.
  induction fs as [|x fs IH]; intros Hnd Hin; [inversion Hin|].
  rewrite fmap_cons in Hnd, Hin. apply NoDup_cons in Hnd as [Hx Hnd].
  destruct (decide (fi_id x = id)) as [Heq|Hne].
  - exists x. split; [|exact Heq]. rewrite filter_cons_True by exact Heq.
    rewrite filter_none; [reflexivity|]. apply Forall_forall. intros y Hy Hyid.
    apply Hx. rewrite Heq, <- Hyid. apply list_elem_of_fmap_2, Hy.
  - rewrite filter_cons_False by exact Hne. apply IH; [exact Hnd|].
    apply elem_of_cons in Hin as [Hin|Hin]; [congruence | exact Hin].
Qed.

(** In a store with integrity the join has one row for each row of
    [functions], in the same order, with the row of its file. *)
Lemma join_files_functions (db : Db) :
  store_integrity db ->
  fst <$> join_files db = functions db
  /\ Forall (fun x => fi_id x.2 = f_file_id x.1 /\ x.2 ∈ files db) (join_files db).
Proof.
  intros ((_ & Hids & _) & _ & _ & Hfk). unfold join_files.
  induction Hfk as [|r rs Hr _ [IH1 IH2]]; [split; [reflexivity | constructor]|].
  destruct (filter_unique_id (files db) (f_file_id r) Hids Hr) as (fi & Hfi & Hid).
  cbn [mbind list_bind]. rewrite Hfi. cbn [mbind list_bind app].
  rewrite fmap_cons, IH1. split; [reflexivity|].
  constructor; [|exact IH2]. cbn [fst snd]. split; [exact Hid|].
  assert (Hin : fi ∈ filter (fun fi0 => fi_id fi0 = f_file_id r) (files db))
    by (rewrite Hfi; left).
  apply list_elem_of_filter in Hin as [_ Hin]. exact Hin.
Qed.

(** X12. The integrity of the store is an invariant of every run: in every
    state the rows of [files] have unique paths and numbers, the rows of
    [functions] have unique numbers that [AUTOINCREMENT] never hands out
    again, and each of them refers to a row of [files]; so the join of
    [fetch_candidates] has exactly one row for each function row, with the
    row of its file. *)
Theorem store_integrity_invariant (R : Run) (db0 : Db) (cancel : bool) (now : Z)
    (s : System) :
  store_integrity db0 ->
  reachable R db0 cancel now s ->
  store_integrity (db s)
  /\ fst <$> join_files (db s) = functions (db s)
  /\ Forall (fun x => fi_id x.2 = f_file_id x.1 /\ x.2 ∈ files (db s))
       (join_files (db s)).
Proof.
  intros H0 Hs.
  assert (Hint : store_integrity (db s)).
  { revert s Hs. apply reachable_ind; [exact H0|].
    intros s s' _ IH Hstep. destruct Hstep; cbn [db]; try exact IH.
    apply store_integrity_apply_result, IH. }
  split; [exact Hint | apply join_files_functions, Hint].
Qed.

Lemma init_db_integrity : store_integrity init_db.
Proof. split; [apply init_db_well_formed|]. repeat split; constructor. Qed.

Lemma store_integrity_invariant_witness :
  store_integrity init_db
  /\ reachable example_run1 init_db false 99 example_end1
  /\ store_integrity (db example_end1)
  /\ fst <$> join_files (db example_end1) = functions (db example_end1).
Proof.
  split; [exact init_db_integrity|]. split; [exact example_end1_reachable|].
  destruct (store_integrity_invariant example_run1 init_db false 99 example_end1
              init_db_integrity example_end1_reachable) as (Hint & Hjoin & _).
  split; [exact Hint | exact Hjoin].
Defined.

End StoreIntegrity.

(** ** The rows of files *)

Section FileRows.
Import CsigCore CsigDb CsigIndexer.

Lemma file_of_elem (db : Db) (path : list Z) (row : FileRow) :
  file_of db path = Some row -> row ∈ files db /\ fi_path row = path.
Proof.
  unfold file_of. intros Hf. apply find_elem in Hf as [Hin Hp].
  apply bool_decide_eq_true in Hp. auto.
Qed.

Lemma file_of_Some (db : Db) (row : FileRow) :
  NoDup (fi_path <$> files db) -> row ∈ files db ->
  file_of db (fi_path row) = Some row.
Proof.
  intros Hnd Hrow. destruct (file_of db (fi_path row)) as [r|] eqn:Hf.
  - apply file_of_elem in Hf as [Hr Hp]. f_equal.
    eapply (NoDup_fmap_eq fi_path); eauto.
  - unfold file_of in Hf. apply find_path_none in Hf. exfalso. apply Hf.
    apply list_elem_of_fmap_2, Hrow.
Qed.

(** X13. [get_or_create_file] is an upsert by path. On a store whose paths
    and numbers are unique it keeps them unique; afterwards the snapshot
    has the new time and size at the path and is unchanged elsewhere; the
    same path gets the same number again, without a new row; another path
    gets another number; and a row is added, under the number after the
    largest ever used, exactly when the path was not in the store. *)
Theorem get_or_create_file_upsert (db : Db) (path : list Z) (mtime size : Z) :
  well_formed db ->
  let db1 := (get_or_create_file db path mtime size).1 in
  let id1 := (get_or_create_file db path mtime size).2 in
  well_formed db1
  /\ iter_file_states db1 !! path = Some (mtime, size)
  /\ (forall other, other <> path ->
        iter_file_states db1 !! other = iter_file_states db !! other)
  /\ (forall mtime' size',
        (get_or_create_file db1 path mtime' size').2 = id1
        /\ length (files (get_or_create_file db1 path mtime' size').1)
           = length (files db1))
  /\ (forall other mtime' size', other <> path ->
        (get_or_create_file db1 other mtime' size').2 <> id1)
  /\ (path ∈ fi_path <$> files db -> length (files db1) = length (files db))
  /\ (path ∉ fi_path <$> files db ->
      length (files db1) = S (length (files db)) /\ id1 = files_seq db + 1).
Proof.
  intros Hwf db1 id1.
  destruct (get_or_create_file_states db path mtime size Hwf)
    as (Hwf1 & Hstates & _).
  destruct (file_of_get_or_create db path mtime size)
    as (row & Hrow & Hid & Hpath & _).
  fold db1 in Hwf1, Hstates, Hrow. fold id1 in Hid.
  split; [exact Hwf1|]. split; [rewrite Hstates; apply lookup_insert_eq|].
  split; [intros other Hne; rewrite Hstates; apply lookup_insert_ne; congruence|].
  split; [|split; [|split]].
  - intros mtime' size'. unfold get_or_create_file at 1 2.
    change (List.find _ (files db1)) with (file_of db1 path). rewrite Hrow.
    cbn [fst snd]. split; [exact Hid|].
    unfold update_files. cbn [files]. apply length_fmap.
  - intros other mtime' size' Hne. unfold get_or_create_file.
    change (List.find _ (files db1)) with (file_of db1 other).
    apply file_of_elem in Hrow as [Hrow _].
    destruct Hwf1 as (_ & Hids & Hseq).
    destruct (file_of db1 other) as [row'|] eqn:Hother; cbn [snd].
    + apply file_of_elem in Hother as [Hrow' Hp']. intros Heq. apply Hne.
      rewrite <- Hp', <- Hpath. f_equal.
      eapply (NoDup_fmap_eq fi_id); eauto. congruence.
    + rewrite Forall_forall in Hseq. specialize (Hseq row Hrow). lia.
  - intros Hin. subst db1. unfold get_or_create_file.
    destruct (List.find _ (files db)) as [r|] eqn:Hfind.
    + cbn [fst]. unfold update_files. cbn [files]. apply length_fmap.
    + apply find_path_none in Hfind. contradiction.
  - intros Hnot. subst db1 id1. unfold get_or_create_file.
    apply find_path_none in Hnot. rewrite Hnot. cbn [fst snd files].
    rewrite length_app. cbn [length]. split; [lia | reflexivity].
Qed.

Lemma get_or_create_file_upsert_witness :
  well_formed example_db
  /\ (get_or_create_file example_db (lit "a.c") 5 50).2 = 1
  /\ length (files (get_or_create_file example_db (lit "a.c") 5 50).1) = 1%nat
  /\ iter_file_states (get_or_create_file example_db (lit "a.c") 5 50).1 !! lit "a.c"
     = Some (5, 50)
  /\ (get_or_create_file (get_or_create_file example_db (lit "a.c") 5 50).1
        (lit "b.c") 6 60).2 <> 1.
Proof.
  assert (Hwf : well_formed example_db).
  { apply (apply_result_states init_db new_tracker example_result_ok 100).
    apply init_db_well_formed. }
  split; [exact Hwf|]. split; [reflexivity|]. split; [reflexivity|].
  destruct (get_or_create_file_upsert example_db (lit "a.c") 5 50 Hwf)
    as (_ & Hlook & _ & _ & Hother & _).
  split; [exact Hlook|]. apply Hother. discriminate.
Defined.

Lemma filter_fmap_keep {A} (P : A -> Prop) `{forall x, Decision (P x)}
    (f : A -> A) (l : list A) :
  Forall (fun x => (P (f x) <-> P x) /\ (P x -> f x = x)) l ->
  filter P (f <$> l) = filter P l.
Proof.
  induction 1 as [|x l [Hiff Hid] _ IH]; [reflexivity|].
  rewrite fmap_cons. destruct (decide (P x)) as [Hp|Hp].
  - rewrite !filter_cons_True by tauto. rewrite IH, Hid by exact Hp. reflexivity.
  - rewrite !filter_cons_False by tauto. exact IH.
Qed.

(** Rows of other paths are left alone by an update of the row of a path. *)
Lemma filter_other_update (db : Db) (row : FileRow) (upd : FileRow -> FileRow)
    (P : FileRow -> Prop) `{forall r, Decision (P r)} :
  NoDup (fi_id <$> files db) -> row ∈ files db ->
  (forall r, fi_path (upd r) = fi_path r) ->
  filter (fun r => P r /\ fi_path r <> fi_path row)
    (files (update_files db (fi_id row) upd))
  = filter (fun r => P r /\ fi_path r <> fi_path row) (files db).
Proof.
  intros Hnd Hrow Hupd. unfold update_files. cbn [files].
  apply filter_fmap_keep, Forall_forall. intros r Hr.
  destruct (decide (fi_id r = fi_id row)) as [Heq|Hne]; [|tauto].
  assert (r = row) as -> by (eapply (NoDup_fmap_eq fi_id); eauto).
  rewrite Hupd. tauto.
Qed.

Lemma filter_path_unique (fs : list FileRow) (row : FileRow)
    (P : FileRow -> Prop) `{forall r, Decision (P r)} :
  NoDup (fi_path <$> fs) -> row ∈ fs ->
  filter (fun r => P r /\ fi_path r = fi_path row) fs
  = if decide (P row) then [row] else [].
Proof.
  induction fs as [|x fs IH]; intros Hnd Hrow; [inversion Hrow|].
  rewrite fmap_cons in Hnd. apply NoDup_cons in Hnd as [Hx Hnd].
  assert (Hrest : forall y, y ∈ fs -> fi_path y <> fi_path x).
  { intros y Hy Heq. apply Hx. rewrite <- Heq. apply list_elem_of_fmap_2, Hy. }
  apply elem_of_cons in Hrow as [->|Hrow].
  - destruct (decide (P x)) as [Hp|Hp];
      [rewrite filter_cons_True by tauto | rewrite filter_cons_False by tauto];
      rewrite filter_none; try reflexivity;
      apply Forall_forall; intros y Hy [_ Heq]; exact (Hrest y Hy Heq).
  - rewrite filter_cons_False; [apply IH; assumption|].
    intros [_ Heq]. exact (Hrest row Hrow (eq_sym Heq)).
Qed.

Lemma filter_split_path {A} (P Q : A -> Prop) `{forall x, Decision (P x)}
    `{forall x, Decision (Q x)} (l : list A) :
  length (filter P l)
  = (length (filter (fun x => P x /\ ~ Q x) l)
     + length (filter (fun x => P x /\ Q x) l))%nat.
Proof.
  induction l as [|x l IH]; [reflexivity|].
  destruct (decide (P x)) as [Hp|Hp], (decide (Q x)) as [Hq|Hq];
    repeat (first [rewrite filter_cons_True by tauto
                  | rewrite filter_cons_False by tauto]);
    cbn [length]; lia.
Qed.

(** X14. [get_error_file_count] after a result has been applied: the files
    of other paths that had an error before, and one more exactly when the
    result carries an error. A failed parse makes its file count until a
    later successful parse of the same path clears it; no other file is
    affected. *)
Theorem get_error_file_count_apply_result (store : Db) (progress : Progress)
    (item : Result) (now : Z) :
  well_formed store ->
  get_error_file_count (apply_result store progress item now).1
  = Z.of_nat (length (filter (fun r => fi_last_error r <> None
                                       /\ fi_path r <> r_path item) (files store)))
    + (if truthy (r_error item) then 1 else 0).
Proof.
  intros Hwf.
  destruct (get_or_create_file_states store (r_path item) (r_mtime item)
              (r_size item) Hwf) as (Hwf1 & _ & row & Hrow & Hid & Hpath).
  assert (Hother1 :
    filter (fun r => fi_last_error r <> None /\ fi_path r <> r_path item)
      (files (get_or_create_file store (r_path item) (r_mtime item) (r_size item)).1)
    = filter (fun r => fi_last_error r <> None /\ fi_path r <> r_path item)
        (files store)).
  { unfold get_or_create_file.
    destruct (List.find _ (files store)) as [row0|] eqn:Hfind; cbn [fst].
    - apply find_elem in Hfind as [Hrow0 Hp0]. apply bool_decide_eq_true in Hp0.
      rewrite <- Hp0. apply filter_other_update; [apply Hwf | exact Hrow0 | reflexivity].
    - cbn [files]. rewrite filter_app, filter_cons_False, app_nil_r; [reflexivity|].
      cbn. tauto. }
  unfold get_error_file_count.
  rewrite (filter_split_path _ (fun r => fi_path r = r_path item)).
  rewrite Nat2Z.inj_add. unfold apply_result.
  destruct (get_or_create_file store (r_path item) (r_mtime item) (r_size item))
    as [db1 file_id]. cbn [fst snd] in *. subst file_id.
  pose proof Hwf1 as (Hpaths & Hids & _).
  assert (Hpaths' : forall upd, (forall r, fi_path (upd r) = fi_path r) ->
            NoDup (fi_path <$> files (update_files db1 (fi_id row) upd))).
  { intros upd Hupd. unfold update_files. cbn [files].
    rewrite fmap_update_keep by exact Hupd. exact Hpaths. }
  assert (Hin' : forall upd, upd row ∈ files (update_files db1 (fi_id row) upd)).
  { intros upd. unfold update_files. cbn [files].
    apply list_elem_of_fmap. exists row. split; [|exact Hrow].
    rewrite decide_True by reflexivity. reflexivity. }
  destruct (truthy (r_error item)) eqn:Herr; cbn [fst].
  - unfold mark_file_error.
    set (upd := fun r => {| fi_id := fi_id r; fi_path := fi_path r;
                            fi_mtime := r_mtime item; fi_size := r_size item;
                            fi_parsed_at := Some now;
                            fi_last_error := Some (default [] (r_error item)) |}).
    pose proof (filter_other_update db1 row upd (fun r => fi_last_error r <> None)
                  Hids Hrow (fun _ => eq_refl)) as E1.
    pose proof (filter_path_unique _ (upd row) (fun r => fi_last_error r <> None)
                  (Hpaths' upd (fun _ => eq_refl)) (Hin' upd)) as E2.
    change (fi_path (upd row)) with (fi_path row) in E2.
    rewrite decide_True in E2 by discriminate.
    rewrite Hpath in E1, E2. rewrite E1, E2, Hother1. reflexivity.
  - unfold mark_file_parsed.
    set (upd := fun r => {| fi_id := fi_id r; fi_path := fi_path r;
                            fi_mtime := r_mtime item; fi_size := r_size item;
                            fi_parsed_at := Some now; fi_last_error := None |}).
    set (db2 := replace_functions_for_file db1 (fi_id row) (r_functions item)).
    pose proof (filter_other_update db2 row upd (fun r => fi_last_error r <> None)
                  Hids Hrow (fun _ => eq_refl)) as E1.
    pose proof (filter_path_unique _ (upd row) (fun r => fi_last_error r <> None)
                  (Hpaths' upd (fun _ => eq_refl)) (Hin' upd)) as E2.
    change (fi_path (upd row)) with (fi_path row) in E2.
    rewrite decide_False in E2 by (cbn; congruence).
    rewrite Hpath in E1, E2.
    change (files (update_files db2 (fi_id row) upd))
      with (files (update_files db1 (fi_id row) upd)).
    change (files (update_files db2 (fi_id row) upd))
      with (files (update_files db1 (fi_id row) upd)) in E1.
    change (files db2) with (files db1) in E1.
    rewrite E1, E2, Hother1. cbn [length]. lia.
Qed.

Lemma get_error_file_count_apply_result_witness :
  well_formed example_db
  /\ get_error_file_count example_db = 0
  /\ get_error_file_count (apply_result example_db new_tracker example_result_error 200).1
     = 1
  /\ get_error_file_count
       (apply_result (apply_result example_db new_tracker example_result_error 200).1
          new_tracker example_result_baz 300).1 = 0.
Proof.
  assert (Hwf : well_formed example_db).
  { apply (apply_result_states init_db new_tracker example_result_ok 100).
    apply init_db_well_formed. }
  split; [exact Hwf|]. split; [reflexivity|]. split.
  - rewrite (get_error_file_count_apply_result example_db new_tracker
               example_result_error 200 Hwf). reflexivity.
  - reflexivity.
Defined.

End FileRows.

(** ** The candidates of a query *)

Section Candidates.
Import CsigCore CsigDb Csig.














End Candidates.

(** ** The ranking and the search *)

Section Search.
Import CsigCore CsigDb Csig.
Context `{UnicodeTables}.

(** X17. Asking for more rows never reorders the rows already shown: the
    ranking for [top] is the beginning of the ranking for every larger
    [top']. For a [top] that is zero or negative the ranking is empty. *)
Theorem rank_candidates_prefix (candidates : list Candidate) (query : Query)
    (top top' : Z) :
  top <= top' ->
  exists ranked',
    rank_candidates candidates query top' = Some ranked'
    /\ rank_candidates candidates query top
       = Some (take (Z.to_nat (Z.max 0 top)) ranked')
    /\ (top <= 0 -> rank_candidates candidates query top = Some []).
Proof.
  intros Hle. rewrite !rank_candidates_eq. eexists. split; [reflexivity|]. split.
  - f_equal. rewrite <- fmap_take, take_take. f_equal. f_equal. lia.
  - intros Hneg. replace (Z.to_nat (Z.max 0 top)) with 0%nat by lia. reflexivity.
Qed.

Lemma key_le_score (x y : nat * Candidate) : key_le x y = true -> (x.1 <= y.1)%nat.
Proof.
  unfold key_le, key_compare, lex, not_gt.
  destruct (Nat.compare_spec x.1 y.1); [lia | lia | discriminate].
Qed.

Lemma score_value_zero (query : Query) (row : Candidate) :
  score_value query row = 0%nat
  <-> (truthy (name query) = true ->
       utf8_encode (str_lower (c_name row))
       = utf8_encode (str_lower (default [] (name query))))
      /\ (truthy (normalised_signature query) = true ->
          utf8_encode (str_lower (c_signature_norm row))
          = utf8_encode (str_lower (default [] (normalised_signature query)))).
Proof.
  unfold score_value, score.
  assert (Hzero : forall a b,
            lev_rec (utf8_encode (str_lower a)) (utf8_encode (str_lower b))
              (length (utf8_encode (str_lower a))) (length (utf8_encode (str_lower b)))
            = 0%nat
            <-> utf8_encode (str_lower a) = utf8_encode (str_lower b)).
  { intros a b. split.
    - intros Hz. apply lev_rec_zero in Hz as [Hlen Htake]; [|lia|lia].
      rewrite !take_ge in Htake by lia. exact Htake.
    - intros ->. apply lev_rec_diag. }
  destruct (truthy (name query)), (truthy (normalised_signature query));
    rewrite ?levenshtein_distance_rec; cbn [mbind option_bind from_option id];
    rewrite ?Nat.eq_add_0, ?Hzero; intuition congruence.
Qed.

(** X18. The best match comes first: the first row of a ranking is one of
    the candidates, and no candidate has a smaller score. Its score is zero
    exactly when it matches the query exactly, that is when its name and
    its signature have the lowercased encoding of those of the query that
    are set. *)
Theorem rank_candidates_best_first (candidates : list Candidate)
    (query : Query) (top : Z) (row : Candidate) (rest : list Candidate) :
  rank_candidates candidates query top = Some (row :: rest) ->
  row ∈ candidates
  /\ (forall c, c ∈ candidates -> (score_value query row <= score_value query c)%nat)
  /\ (score_value query row = 0%nat
      <-> (truthy (name query) = true ->
           utf8_encode (str_lower (c_name row))
           = utf8_encode (str_lower (default [] (name query))))
          /\ (truthy (normalised_signature query) = true ->
              utf8_encode (str_lower (c_signature_norm row))
              = utf8_encode (str_lower (default [] (normalised_signature query))))).
Proof.
  rewrite rank_candidates_eq. intros [= Hrank].
  set (scored := scored_row query <$> candidates) in *.
  assert (Hperm : Permutation (stable_sort key_le scored) scored)
    by apply (stable_sort_perm key_compare).
  assert (Hsorted : sorted_by key_le (stable_sort key_le scored))
    by apply (stable_sort_sorted key_compare key_compare_order).
  unfold sorted_by in Hsorted.
  destruct (stable_sort key_le scored) as [|x sorted] eqn:Hsort;
    [rewrite take_nil in Hrank; discriminate|].
  destruct (Z.to_nat (Z.max 0 top)) as [|n]; [discriminate|].
  cbn [take fmap list_fmap] in Hrank. injection Hrank as Hrow _.
  assert (Hx : x ∈ scored) by (rewrite <- Hperm; left).
  apply list_elem_of_fmap in Hx as (c0 & -> & Hc0). cbn [snd scored_row] in Hrow.
  subst c0. split; [exact Hc0|]. split; [|apply score_value_zero].
  intros c Hc.
  assert (Hin : scored_row query c ∈ scored_row query row :: sorted)
    by (rewrite Hperm; apply list_elem_of_fmap_2, Hc).
  apply elem_of_cons in Hin as [Heq|Hin].
  - injection Heq as Heq _. lia.
  - apply StronglySorted_inv in Hsorted as [_ Hall].
    rewrite Forall_forall in Hall.
    apply (key_le_score (scored_row query row) (scored_row query c)), Hall, Hin.
Qed.

Lemma sql_limit_all {A} (limit : Z) (rows : list A) :
  Z.of_nat (length rows) <= limit -> sql_limit limit rows = rows.
Proof.
  intros Hl. unfold sql_limit. destruct (limit <? 0); [reflexivity|].
  apply take_ge. lia.
Qed.

Lemma select_candidates_all (db : Db) (where_ : Joined -> bool) (limit : Z) :
  Z.of_nat (length (join_files db)) <= limit ->
  select_candidates db where_ limit = select_candidates db where_ (-1).
Proof.
  intros Hl. unfold select_candidates. rewrite sql_limit_all; [reflexivity|].
  assert (Hlen : length (stable_sort order_le
                           (filter (fun x => where_ x = true) (join_files db)))
                 = length (filter (fun x => where_ x = true) (join_files db)))
    by apply (stable_sort_length order_compare).
  rewrite Hlen.
  pose proof (length_filter (fun x => where_ x = true) (join_files db)). lia.
Qed.




End Search.

Lemma rank_candidates_prefix_witness :
  1 <= 2
  /\ @Csig.rank_candidates ascii_tables example_candidates example_query 2
     = Some (reverse example_candidates)
  /\ @Csig.rank_candidates ascii_tables example_candidates example_query 1
     = Some (take 1 (reverse example_candidates))
  /\ @Csig.rank_candidates ascii_tables example_candidates example_query (-3) = Some [].
Proof.
  assert (Hle : 1 <= 2) by lia.
  split; [exact Hle|].
  destruct (@rank_candidates_prefix ascii_tables example_candidates example_query 1 2 Hle)
    as (ranked' & Hall & Htop & _).
  destruct (@rank_candidates_prefix ascii_tables example_candidates example_query (-3) 2
              ltac:(lia)) as (_ & _ & _ & Hneg).
  assert (Hranked : ranked' = reverse example_candidates).
  { assert (Hc : @Csig.rank_candidates ascii_tables example_candidates example_query 2
                 = Some (reverse example_candidates)) by (vm_compute; reflexivity).
    rewrite Hc in Hall. injection Hall as <-. reflexivity. }
  subst ranked'. split; [exact Hall|]. split; [exact Htop|]. apply Hneg. lia.
Defined.

Lemma rank_candidates_best_first_witness :
  @Csig.rank_candidates ascii_tables example_candidates example_query 1
  = Some (drop 1 example_candidates)
  /\ Forall (fun row =>
               row ∈ example_candidates
               /\ forall c, c ∈ example_candidates ->
                    (@score_value ascii_tables example_query row
                     <= @score_value ascii_tables example_query c)%nat)
       (drop 1 example_candidates).
Proof.
  assert (Hrank : @Csig.rank_candidates ascii_tables example_candidates example_query 1
                  = Some (drop 1 example_candidates)) by (vm_compute; reflexivity).
  split; [exact Hrank|].
  destruct (@rank_candidates_best_first ascii_tables example_candidates example_query 1
              _ _ Hrank) as (Hin & Hmin & _).
  constructor; [split; [exact Hin | exact Hmin] | constructor].
Defined.


(** ** The run: no deadlock, an end, and what the summary adds up to *)

Section RunProperties.
Import CsigCore CsigDb CsigIndexer.

Lemma effective_workers_positive (workers_ : Z) (cpu_count : option Z) :
  (1 <= effective_workers workers_ cpu_count)%nat.
Proof.
  unfold effective_workers. destruct (Z.leb_spec workers_ 0); [|lia].
  destruct cpu_count as [n|]; [destruct (n =? 0)|]; lia.
Qed.




Lemma workers_exited_or (l : list Worker) :
  Forall (fun w => w = WExit) l \/ exists i w, l !! i = Some w /\ w <> WExit.
Proof.
  induction l as [|w l [IH|(i & w' & Hi & Hne)]].
  - left. constructor.
  - destruct w; try (right; exists 0%nat; eexists; split; [reflexivity | discriminate]).
    left. constructor; [reflexivity | exact IH].
  - right. exists (S i), w'. split; assumption.
Qed.

Lemma workers_all_exited (l : list Worker) :
  Forall (fun w => w = WExit) l ->
  count_if took_sentinel l = length l /\ count_if has_exited l = length l.
Proof.
  induction 1 as [|w l -> _ [IH1 IH2]]; [split; reflexivity|].
  rewrite !count_if_cons, IH1, IH2. split; reflexivity.
Qed.

Lemma count_some_none {A} (l : list (option A)) :
  (count_if is_some l + count_if is_none l = length l)%nat.
Proof.
  induction l as [|[x|] l IH]; [reflexivity| |];
    rewrite !count_if_cons; cbn [is_some is_none length]; lia.
Qed.

Lemma discover_move (R : Run) (s : System) :
  (forall raised, discovery s <> DDone raised) ->
  (length (task_queue s) < task_queue_maxsize (workers R))%nat ->
  exists s', move R MDiscover s = Some s'.
Proof.
  intros Hnot Hroom. cbn [move].
  destruct (discover_step_progress (workers R) (known_states R) (cancel_event s)
              (discovery s) Hnot) as (act & d' & -> & _).
  destruct act as [|incs|item]; [eauto | eauto |].
  rewrite decide_True by exact Hroom. eauto.
Qed.

(** While a thread of the run has not returned, some thread can move. *)
Lemma run_progress (R : Run) (db0 : Db) (cancel : bool) (now : Z) (s : System) :
  (1 <= workers R)%nat ->
  reachable R db0 cancel now s ->
  ~ joined s ->
  exists m s', m <> MCancel /\ move R m s = Some s'.
Proof.
  intros Hw Hs Hnj.
  pose proof (queue_discipline R db0 cancel now s Hs) as (_ & Hsent & Htook & _).
  pose proof (task_puts_shape R db0 cancel now s Hs) as [_ Hdue].
  pose proof (worker_sentinels_count R db0 cancel now s Hs) as [Hlen _].
  pose proof (writer_counts R db0 cancel now s Hs) as (Hcount & _ & _).
  pose proof (count_some_none (task_queue s)) as Htq.
  assert (Hmax : (0 < task_queue_maxsize (workers R))%nat)
    by (unfold task_queue_maxsize; lia).
  assert (Hdisc : (forall raised, discovery s <> DDone raised) \/
                  exists raised, discovery s = DDone raised).
  { destruct (discovery s); eauto; left; discriminate. }
  destruct (workers_exited_or (worker_threads s)) as [Hall|(i & w & Hi & Hne)].
  - destruct (workers_all_exited _ Hall) as [Htaken Hexited].
    assert (Hempty : length (task_queue s) = 0%nat) by lia.
    destruct Hdisc as [Hnot|Hdone].
    + destruct (discover_move R s Hnot) as [s' Hmove]; [lia|].
      exists MDiscover, s'. split; [discriminate | exact Hmove].
    + destruct (closed (writer s)) eqn:Hopen.
      { exfalso. apply Hnj. repeat split; assumption. }
      exists (MWriter 0). cbn [move]. rewrite Hopen.
      destruct (decide _) as [Hlt|Hge]; [|eexists; split; [discriminate | reflexivity]].
      destruct (result_queue s) as [|[item|] rest] eqn:Hq;
        [rewrite count_if_nil in Hcount; lia | destruct (binds_result item) |];
        eexists; (split; [discriminate | reflexivity]).
  - destruct w as [|task| |]; [| | |congruence].
    + destruct (task_queue s) as [|item rest] eqn:Hq.
      * destruct Hdisc as [Hnot|[raised Hdone]].
        -- destruct (discover_move R s Hnot) as [s' Hmove]; [rewrite Hq; exact Hmax|].
           exists MDiscover, s'. split; [discriminate | exact Hmove].
        -- exfalso. rewrite Hdone in Hdue. cbn [sentinels_due] in Hdue.
           rewrite count_if_nil in Hsent.
           pose proof (count_if_lt_length took_sentinel _ i WGet Hi eq_refl). lia.
      * exists (MWorkerGet i). cbn [move]. rewrite Hi, Hq.
        eexists. split; [discriminate | reflexivity].
    + exists (MWorkerTask i ([], None)). cbn [move]. rewrite Hi.
      destruct (worker_task _ _ _); eexists; (split; [discriminate | reflexivity]).
    + exists (MWorkerSentinel i). cbn [move]. rewrite Hi.
      eexists. split; [discriminate | reflexivity].
Qed.

Lemma task_queue_bounded (R : Run) (db0 : Db) (cancel : bool) (now : Z) (s : System) :
  reachable R db0 cancel now s ->
  (length (task_queue s) <= task_queue_maxsize (workers R))%nat.
Proof.
  revert s. apply reachable_ind; [cbn; lia|].
  intros s s' _ IH Hstep. destruct Hstep; cbn [task_queue]; try exact IH.
  - rewrite length_app. cbn [length]. lia.
  - match goal with Hq : task_queue s = _ :: _ |- _ => rewrite Hq in IH end.
    cbn [length] in IH. lia.
Qed.

(** X20. A run has no deadlock. Whatever number of workers [run_index] is
    called with, it runs at least one; the task queue never holds more
    than its [maxsize] items; and in every state of the run in which some
    thread has not returned, some thread can take a step, whether the run
    is cancelled or not. *)
Theorem run_has_no_deadlock (tree : list (list FileEntry)) (workers_ : Z)
    (cpu_count : option Z) (db0 : Db) (cancel : bool) (now : Z) (s : System) :
  let R := run_of tree (effective_workers workers_ cpu_count) db0 in
  reachable R db0 cancel now s ->
  (1 <= workers R)%nat
  /\ (0 < workers_ -> workers R = Z.to_nat workers_)
  /\ (length (task_queue s) <= task_queue_maxsize (workers R))%nat
  /\ (~ joined s ->
      exists m s', m <> MCancel /\ move R m s = Some s' /\ step R s s').
Proof.
  intros R Hs.
  assert (Hw : (1 <= workers R)%nat) by apply effective_workers_positive.
  split; [exact Hw|]. split; [|split].
  - intros Hpos. cbn [R run_of workers]. unfold effective_workers.
    destruct (Z.leb_spec workers_ 0); [lia | reflexivity].
  - eapply task_queue_bounded, Hs.
  - intros Hnj. destruct (run_progress R db0 cancel now s Hw Hs Hnj)
      as (m & s' & Hm & Hmove).
    exists m, s'. split; [exact Hm|]. split; [exact Hmove | eapply move_step, Hmove].
Qed.




End RunProperties.

(** ** The run: what the counters count *)

Section RunAccounting.
Import CsigCore CsigDb CsigIndexer.

Lemma counters_le_refl (p : Progress) : counters_le p p.
Proof. unfold counters_le. repeat split; lia. Qed.

Lemma counters_le_trans (p q r : Progress) :
  counters_le p q -> counters_le q r -> counters_le p r.
Proof. unfold counters_le. intuition (lia || congruence). Qed.

Lemma step_counters (R : Run) (s s' : System) :
  step R s s' -> counters_le (tracker s) (tracker s').
Proof.
  intros Hstep.
  destruct Hstep as
    [ | d' Hd | incs d' Hd | item d' Hd Hroom | i item rest Hw Hq
    | i task parsed Hw Hcan | i task parsed result Hw Hr | i Hw
    | rest Hopen Hlt Hq | item rest now' Hopen Hlt Hq Hbinds
      | item rest Hopen Hlt Hq | Hopen Hge ];
    cbn [tracker]; try apply counters_le_refl.
  - apply discover_step_remaining in Hd as (_ & _ & _ & _ & _ & _ & _ & Hincs).
    destruct (Hincs incs eq_refl) as [->|[->| ->]];
      unfold counters_le; cbn; repeat split; lia.
  - rewrite apply_result_tracker.
    destruct (truthy (r_error item)); unfold counters_le; cbn; repeat split; lia.
Qed.

(** X22. Progress never goes back: from any state of a run to any later
    one no counter of the tracker decreases (and [running], [canceled] and
    the times stay as they are until the run is over), and no counter is
    ever negative. *)
Theorem progress_never_goes_back (R : Run) (db0 : Db) (cancel : bool) (now : Z)
    (s s' : System) :
  reachable R db0 cancel now s ->
  rtc (step R) s s' ->
  counters_le (tracker s) (tracker s')
  /\ counters_le new_tracker
       (set_run (tracker s) false false None None).
Proof.
  intros Hs Hlater.
  assert (Hmono : forall a b, rtc (step R) a b -> counters_le (tracker a) (tracker b)).
  { induction 1 as [a|a b c Hab _ IH]; [apply counters_le_refl|].
    eapply counters_le_trans; [exact (step_counters R a b Hab) | exact IH]. }
  split; [apply Hmono, Hlater|].
  pose proof (Hmono _ _ Hs) as Hstart. unfold counters_le in *.
  cbn in Hstart |- *. intuition lia.
Qed.

Lemma progress_never_goes_back_witness :
  reachable example_run1 init_db false 99 example_start1
  /\ rtc (step example_run1) example_start1 example_end1
  /\ counters_le (tracker example_start1) (tracker example_end1).
Proof.
  assert (Hs : reachable example_run1 init_db false 99 example_start1)
    by apply rtc_refl.
  split; [exact Hs|]. split; [exact example_end1_reachable|].
  exact (proj1 (progress_never_goes_back example_run1 init_db false 99
                  example_start1 example_end1 Hs example_end1_reachable)).
Defined.

Lemma length_omap_count {A B} (f : A -> option B) (l : list A) :
  length (omap f l) = count_if (fun x => is_some (f x)) l.
Proof.
  induction l as [|x l IH]; [reflexivity|].
  rewrite count_if_cons, omap_cons_list, length_app, IH.
  destruct (f x); reflexivity.
Qed.

Lemma count_if_ext {A} (f g : A -> bool) (l : list A) :
  (forall x, f x = g x) -> count_if f l = count_if g l.
Proof.
  intros Hfg. induction l as [|x l IH]; [reflexivity|].
  rewrite !count_if_cons, IH, Hfg. reflexivity.
Qed.

(** The files on their way are as many as the tasks under way. *)
Lemma in_flight_pending (s : System) : in_flight s = Z.of_nat (length (pending s)).
Proof.
  unfold in_flight, pending. rewrite !length_app, !length_omap_count.
  rewrite (count_if_ext (fun w => is_some (task_of_worker w)) holds_task)
    by (intros []; reflexivity).
  rewrite (count_if_ext (fun x : option Result => is_some (task_of_result <$> x))
             is_some) by (intros []; reflexivity).
  change (fun x : option Task => is_some (id x)) with (@is_some Task).
  lia.
Qed.

(** What one step of discovery that is not cancelled does to the numbers:
    [p] is the tracker before the step. *)
Lemma discover_step_uncancelled workers_ known d act d' (p : Progress) :
  discover_step workers_ known false d = Some (act, d') ->
  let p' := match act with DAInc incs => inc p incs | _ => p end in
  let put := match act with DAPut (Some _) => 1 | _ => 0 end in
  files_skipped p' + files_indexed p' + files_failed p' + put + counted d'
    - files_total p'
  = files_skipped p + files_indexed p + files_failed p + counted d - files_total p
  /\ files_queued p' + enqueued d' - files_indexed p' - files_failed p'
     = files_queued p + enqueued d + put - files_indexed p - files_failed p
  /\ (raised d' = false ->
      files_total p' + Z.of_nat (length (remaining d')) - counted d'
      = files_total p + Z.of_nat (length (remaining d)) - counted d).
Proof.
  intros Hstep.
  destruct d as [[|fs ds]|[|e fs] ds|[[path mtime] size] fs ds|fs ds|[|k] r|r];
    cbn [discover_step] in Hstep.
  - injection Hstep as <- <-. cbn. repeat split; lia.
  - injection Hstep as <- <-. cbn [remaining raised counted enqueued].
    rewrite tasks_of_dirs_cons. repeat split; lia.
  - injection Hstep as <- <-. cbn. repeat split; lia.
  - cbn [remaining]. rewrite tasks_of_files_cons. unfold valid_task.
    destruct (bool_decide (fe_suffix e ∈ source_extensions)); cbn [negb] in Hstep.
    2:{ injection Hstep as <- <-. cbn. repeat split; lia. }
    destruct (fe_path e) as [file_path|].
    2:{ injection Hstep as <- <-. cbn. repeat split; (lia || discriminate). }
    destruct (fe_stat e) as [mtime size|].
    2:{ injection Hstep as <- <-. cbn. repeat split; lia. }
    injection Hstep as <- <-. cbn. repeat split; lia.
  - destruct (bool_decide _); injection Hstep as <- <-; cbn; repeat split; lia.
  - injection Hstep as <- <-. cbn. repeat split; lia.
  - injection Hstep as <- <-. cbn. repeat split; lia.
  - injection Hstep as <- <-. cbn. repeat split; lia.
  - discriminate.
Qed.

(** The accounts of a run that has not been cancelled and whose writer no
    exception has ended: every file counted is skipped, indexed, failed,
    on its way or in the hands of discovery; every file enqueued is
    indexed, failed or on its way; and, while the walk has not raised, the
    files counted and those still to be decided on are the files of the
    tree. *)
Lemma uncancelled_accounting (R : Run) (db0 : Db) (cancel : bool) (now : Z)
    (s : System) :
  reachable R db0 cancel now s ->
  cancel_event s = false ->
  crashed (writer s) = false ->
  files_skipped (tracker s) + files_indexed (tracker s) + files_failed (tracker s)
    + in_flight s + counted (discovery s) = files_total (tracker s)
  /\ files_queued (tracker s) + enqueued (discovery s)
     = files_indexed (tracker s) + files_failed (tracker s) + in_flight s
  /\ (raised (discovery s) = false ->
      files_total (tracker s) + Z.of_nat (length (remaining (discovery s)))
      = Z.of_nat (length (tasks_of_dirs (walk R))) + counted (discovery s)).
Proof.
  revert s.
  apply (reachable_ind R db0 cancel now (fun s =>
    cancel_event s = false ->
    crashed (writer s) = false ->
    files_skipped (tracker s) + files_indexed (tracker s) + files_failed (tracker s)
      + in_flight s + counted (discovery s) = files_total (tracker s)
    /\ files_queued (tracker s) + enqueued (discovery s)
       = files_indexed (tracker s) + files_failed (tracker s) + in_flight s
    /\ (raised (discovery s) = false ->
        files_total (tracker s) + Z.of_nat (length (remaining (discovery s)))
        = Z.of_nat (length (tasks_of_dirs (walk R))) + counted (discovery s)))).
  - intros _ _. unfold in_flight, start.
    cbn [task_queue worker_threads result_queue tracker discovery].
    rewrite count_if_replicate. cbn. repeat split; lia.
  - intros s s' _ IH Hstep Hcancel Hok. unfold in_flight in *.
    destruct Hstep as
      [ | d' Hd | incs d' Hd | item d' Hd Hroom | i item rest Hw Hq
      | i task parsed Hw Hcan | i task parsed result Hw Hr | i Hw
      | rest Hopen Hlt Hq | item rest now' Hopen Hlt Hq Hbinds
      | item rest Hopen Hlt Hq | Hopen Hge ];
      cbn [tracker discovery task_queue worker_threads result_queue cancel_event
           writer crashed] in *;
      try discriminate; specialize (IH Hcancel Hok); destruct IH as (IH1 & IH2 & IH3).
    + rewrite Hcancel in Hd.
      destruct (discover_step_uncancelled _ _ _ _ _ (tracker s) Hd) as (E1 & E2 & E3).
      cbn beta iota zeta in E1, E2, E3.
      assert (Hr : raised d' = false -> raised (discovery s) = false).
      { intros Hr'. apply discover_step_remaining in Hd as (_ & Hmono & _).
        destruct (raised (discovery s)); [rewrite Hmono in Hr' by reflexivity|];
          congruence. }
      repeat split; [lia | lia |]. intros Hr'. specialize (E3 Hr'). specialize (Hr Hr').
      specialize (IH3 Hr). lia.
    + rewrite Hcancel in Hd.
      destruct (discover_step_uncancelled _ _ _ _ _ (tracker s) Hd) as (E1 & E2 & E3).
      cbn beta iota zeta in E1, E2, E3.
      assert (Hr : raised d' = false -> raised (discovery s) = false).
      { intros Hr'. apply discover_step_remaining in Hd as (_ & Hmono & _).
        destruct (raised (discovery s)); [rewrite Hmono in Hr' by reflexivity|];
          congruence. }
      repeat split; [lia | lia |]. intros Hr'. specialize (E3 Hr'). specialize (Hr Hr').
      specialize (IH3 Hr). lia.
    + rewrite Hcancel in Hd.
      destruct (discover_step_uncancelled _ _ _ _ _ (tracker s) Hd) as (E1 & E2 & E3).
      cbn beta iota zeta in E1, E2, E3.
      assert (Hr : raised d' = false -> raised (discovery s) = false).
      { intros Hr'. apply discover_step_remaining in Hd as (_ & Hmono & _).
        destruct (raised (discovery s)); [rewrite Hmono in Hr' by reflexivity|];
          congruence. }
      rewrite count_if_app, count_if_cons, count_if_nil.
      destruct item as [t|]; cbn [is_some] in *;
        (repeat split; [lia | lia |]); intros Hr'; specialize (E3 Hr');
        specialize (Hr Hr'); specialize (IH3 Hr); lia.
    + rewrite Hq, count_if_cons in IH1, IH2.
      pose proof (count_if_insert holds_task _ i WGet (worker_get item) Hw) as Hc.
      destruct item; cbn in *; repeat split; try lia; exact IH3.
    + unfold worker_task in Hcan. rewrite Hcancel in Hcan.
      destruct task as [[? ?] ?]. discriminate.
    + pose proof (count_if_insert holds_task _ i (WTask task) WGet Hw) as Hc.
      rewrite count_if_app, count_if_cons, count_if_nil.
      cbn in *; repeat split; try lia; exact IH3.
    + pose proof (count_if_insert holds_task _ i WSentinel WExit Hw) as Hc.
      rewrite count_if_app, count_if_cons, count_if_nil.
      cbn in *; repeat split; try lia; exact IH3.
    + rewrite Hq, count_if_cons in IH1, IH2. cbn in *; repeat split; try lia; exact IH3.
    + rewrite Hq, count_if_cons in IH1, IH2. rewrite apply_result_tracker.
      destruct (truthy (r_error item)); cbn in *; repeat split; try lia; exact IH3.
    + repeat split; try lia; exact IH3.
Qed.

(** X23. The summary of a run that went to its end without cancellation,
    without an exception of the walk and without an exception in the
    writer accounts for every source file of the tree: [files_total] is
    the number of files with a source extension that could be resolved and
    stat'ed, every one of them is skipped, indexed or failed, so
    [files_done] equals [files_total], and [files_queued] is the number of
    those indexed or failed. The summary says that the run is over and was
    not cancelled. *)
Theorem complete_run_summary (R : Run) (db0 : Db) (cancel : bool) (now : Z)
    (s : System) (end_now : Z) :
  (1 <= workers R)%nat ->
  reachable R db0 cancel now s ->
  joined s ->
  cancel_event s = false ->
  raised (discovery s) = false ->
  crashed (writer s) = false ->
  let p := summary s end_now in
  files_total p = Z.of_nat (length (tasks_of_dirs (walk R)))
  /\ files_done p = files_total p
  /\ files_skipped p + files_indexed p + files_failed p = files_total p
  /\ files_queued p = files_indexed p + files_failed p
  /\ running p = false /\ canceled p = false /\ end_time p = Some end_now.
Proof.
  intros Hw Hs Hj Hcancel Hraised Hok p.
  destruct (uncancelled_accounting R db0 cancel now s Hs Hcancel Hok) as (E1 & E2 & E3).
  destruct (progress_accounting R db0 cancel now s Hs) as [Hdone _].
  pose proof (joined_nothing_pending R db0 cancel now s Hw Hs Hj Hok) as Hpending.
  pose proof (in_flight_pending s) as Hfl. rewrite Hpending in Hfl. cbn in Hfl.
  destruct Hj as ([r Hd] & _ & _). rewrite Hd in *.
  specialize (E3 Hraised). cbn [counted enqueued remaining length] in *.
  subst p. unfold summary. cbn. rewrite Hcancel. repeat split; lia.
Qed.

Lemma complete_run_summary_witness :
  (1 <= workers example_run1)%nat
  /\ reachable example_run1 init_db false 99 example_end1
  /\ joined example_end1
  /\ cancel_event example_end1 = false
  /\ raised (discovery example_end1) = false
  /\ crashed (writer example_end1) = false
  /\ files_total (summary example_end1 103) = 1
  /\ files_done (summary example_end1 103) = files_total (summary example_end1 103)
  /\ files_queued (summary example_end1 103)
     = files_indexed (summary example_end1 103) + files_failed (summary example_end1 103).
Proof.
  assert (Hw : (1 <= workers example_run1)%nat) by (cbn; lia).
  split; [exact Hw|]. split; [exact example_end1_reachable|].
  split; [exact example_end1_joined|]. split; [reflexivity|]. split; [reflexivity|].
  split; [reflexivity|].
  destruct (complete_run_summary example_run1 init_db false 99 example_end1 103 Hw
              example_end1_reachable example_end1_joined eq_refl eq_refl eq_refl)
    as (Htotal & Hdone & _ & Hqueued & _).
  split; [exact Htotal|]. split; [exact Hdone | exact Hqueued].
Defined.

End RunAccounting.

(** ** The run: cancellation, and each file once *)

Section RunTasks.
Import CsigCore CsigDb CsigIndexer.

(** X24. A run that is cancelled before it starts writes nothing: in every
    state of it the store is the one it started with, the tracker is as
    [run_index] set it at the start, no task is put on the queue and none
    is under way; and its summary says that it was cancelled, with all
    counters at zero. *)
Theorem cancelled_run_writes_nothing (R : Run) (db0 : Db) (now : Z) (s : System) :
  reachable R db0 true now s ->
  cancel_event s = true
  /\ db s = db0
  /\ tracker s = set_run new_tracker true false (Some now) None
  /\ pending s = []
  /\ queued_tasks s = []
  /\ forall end_now,
       canceled (summary s end_now) = true
       /\ running (summary s end_now) = false
       /\ files_total (summary s end_now) = 0
       /\ files_done (summary s end_now) = 0
       /\ functions_total (summary s end_now) = 0.
Proof.
  intros Hs.
  assert (Hinv : cancel_event s = true /\ db s = db0
                 /\ tracker s = set_run new_tracker true false (Some now) None
                 /\ pending s = [] /\ queued_tasks s = []
                 /\ match discovery s with
                    | DWalk _ | DFinally _ _ | DDone _ => True
                    | _ => False
                    end).
  { revert s Hs.
    apply (reachable_ind R db0 true now (fun s =>
      cancel_event s = true /\ db s = db0
      /\ tracker s = set_run new_tracker true false (Some now) None
      /\ pending s = [] /\ queued_tasks s = []
      /\ match discovery s with
         | DWalk _ | DFinally _ _ | DDone _ => True
         | _ => False
         end)).
    - split; [reflexivity|]. split; [reflexivity|]. split; [reflexivity|].
      split; [apply pending_start|]. split; [reflexivity | exact I].
    - intros s s' _ (Hc & Hdb & Htr & Hp & Hq & Hshape) Hstep.
      pose proof (step_summary R s s' Hstep) as (Hc' & Hsum).
      pose proof (step_task_puts R s s' Hstep) as Hputs.
      split; [exact (Hc' Hc)|].
      assert (Hdisc : forall act,
                discover_step (workers R) (known_states R) (cancel_event s) (discovery s)
                = Some (act, discovery s') ->
                (act = DALocal \/ act = DAPut None)
                /\ match discovery s' with
                   | DWalk _ | DFinally _ _ | DDone _ => True
                   | _ => False
                   end).
      { intros act Hd. rewrite Hc in Hd.
        destruct (discovery s) as [[|fs ds]| | | |[|k] r|r]; try contradiction;
          cbn [discover_step] in Hd; try discriminate;
          injection Hd as <- <-; auto. }
      assert (Hq' : queued_tasks s' = []).
      { unfold queued_tasks in *. destruct Hputs as [->|(item & Hd & ->)]; [exact Hq|].
        destruct (Hdisc _ Hd) as [[Hact|Hact] _]; [discriminate|].
        injection Hact as ->. rewrite omap_app, Hq. reflexivity. }
      destruct Hsum as [(act & Hd & Hdb' & _ & Hact)|(Hd & Hrest)].
      + destruct (Hdisc act Hd) as [[->| ->] Hshape'];
          destruct Hact as [Htr' Hp'];
          rewrite Hdb', Htr', Hp'; auto.
      + rewrite Hd.
        destruct Hrest as [(Hdb' & Htr' & Hp')|[(t & _ & _ & Hp' & _)|(item & now' & Hp' & _)]].
        * rewrite Hdb', Htr'. rewrite Hp in Hp'. apply Permutation_nil_r in Hp'.
          auto.
        * rewrite Hp in Hp'. apply Permutation_nil_cons in Hp'. contradiction.
        * rewrite Hp in Hp'. apply Permutation_nil_cons in Hp'. contradiction. }
  destruct Hinv as (Hc & Hdb & Htr & Hp & Hq & _).
  split; [exact Hc|]. split; [exact Hdb|]. split; [exact Htr|].
  split; [exact Hp|]. split; [exact Hq|].
  intros end_now. unfold summary. rewrite Htr, Hc. cbn. auto.
Qed.

Lemma cancelled_run_writes_nothing_witness :
  reachable example_run1 init_db true 99 example_end_cancelled
  /\ joined example_end_cancelled
  /\ db example_end_cancelled = init_db
  /\ canceled (summary example_end_cancelled 102) = true
  /\ files_total (summary example_end_cancelled 102) = 0.
Proof.
  assert (Hs : reachable example_run1 init_db true 99 example_end_cancelled).
  { apply schedule_reachable with (schedule := example_schedule_cancelled).
    vm_compute. reflexivity. }
  split; [exact Hs|]. split.
  - split; [exists false; reflexivity|]. split; [|reflexivity]. repeat constructor.
  - destruct (cancelled_run_writes_nothing example_run1 init_db 99 _ Hs)
      as (_ & Hdb & _ & _ & _ & Hsum).
    split; [exact Hdb|]. destruct (Hsum 102) as (Hc & _ & Ht & _).
    split; [exact Hc | exact Ht].
Defined.

(** What one step of discovery does to the files still to be decided on:
    it drops some from the front, and what it puts is what it drops. *)
Lemma discover_step_dropped workers_ known cancel d act d' :
  discover_step workers_ known cancel d = Some (act, d') ->
  exists dropped,
    remaining d = dropped ++ remaining d'
    /\ (forall t, act = DAPut (Some t) -> dropped = [t]).
Proof.
  intros Hstep.
  destruct d as [[|fs ds]|[|e fs] ds|[[path mtime] size] fs ds|fs ds|[|k] r|r];
    cbn [discover_step] in Hstep.
  - injection Hstep as <- <-. exists []. split; [reflexivity | discriminate].
  - destruct cancel; injection Hstep as <- <-.
    + eexists. split; [symmetry; apply app_nil_r | discriminate].
    + exists []. split; [apply tasks_of_dirs_cons | discriminate].
  - injection Hstep as <- <-. exists []. split; [reflexivity | discriminate].
  - cbn [remaining]. rewrite tasks_of_files_cons. unfold valid_task.
    destruct cancel.
    { injection Hstep as <- <-. eexists. split; [reflexivity | discriminate]. }
    destruct (bool_decide (fe_suffix e ∈ source_extensions)); cbn [negb] in Hstep.
    2:{ injection Hstep as <- <-. exists []. split; [reflexivity | discriminate]. }
    destruct (fe_path e) as [file_path|].
    2:{ injection Hstep as <- <-. eexists.
        split; [symmetry; apply app_nil_r | discriminate]. }
    destruct (fe_stat e) as [mtime size|]; injection Hstep as <- <-;
      exists []; (split; [reflexivity | discriminate]).
  - destruct (bool_decide _); injection Hstep as <- <-;
      exists [(path, mtime, size)]; (split; [reflexivity|]); [discriminate|].
    intros t [= <-]. reflexivity.
  - injection Hstep as <- <-. exists []. split; [reflexivity | discriminate].
  - injection Hstep as <- <-. exists []. split; [reflexivity | discriminate].
  - injection Hstep as <- <-. exists []. split; [reflexivity | discriminate].
  - discriminate.
Qed.

(** The tasks put on the queue are files of the tree, in the order of the
    walk and each entry of the walk at most once. *)
Lemma queued_tasks_of_tree (R : Run) (db0 : Db) (cancel : bool) (now : Z)
    (s : System) :
  reachable R db0 cancel now s ->
  exists pre,
    tasks_of_dirs (walk R) = pre ++ remaining (discovery s)
    /\ queued_tasks s `sublist_of` pre.
Proof.
  revert s.
  apply (reachable_ind R db0 cancel now (fun s =>
    exists pre, tasks_of_dirs (walk R) = pre ++ remaining (discovery s)
                /\ queued_tasks s `sublist_of` pre)).
  - exists []. split; [reflexivity | apply sublist_nil_l].
  - intros s s' _ (pre & Hpre & Hsub) Hstep.
    assert (Hdisc : forall act,
              discover_step (workers R) (known_states R) (cancel_event s) (discovery s)
              = Some (act, discovery s') ->
              queued_tasks s'
              = queued_tasks s ++ match act with DAPut (Some t) => [t] | _ => [] end ->
              exists pre', tasks_of_dirs (walk R) = pre' ++ remaining (discovery s')
                           /\ queued_tasks s' `sublist_of` pre').
    { intros act Hd Hq.
      destruct (discover_step_dropped _ _ _ _ _ _ Hd) as (dropped & Hrem & Hput).
      exists (pre ++ dropped). rewrite Hpre, Hrem, <- app_assoc.
      split; [reflexivity|]. rewrite Hq. apply sublist_app; [exact Hsub|].
      destruct act as [| |[t|]]; try apply sublist_nil_l.
      rewrite (Hput t eq_refl). reflexivity. }
    destruct Hstep; try (exists pre; split; [exact Hpre | exact Hsub]).
    + eapply Hdisc; [eassumption|]. symmetry. apply app_nil_r.
    + eapply Hdisc; [eassumption|]. symmetry. apply app_nil_r.
    + eapply Hdisc; [eassumption|]. unfold queued_tasks. cbn [task_puts].
      rewrite omap_app. destruct item; reflexivity.
Qed.

Lemma task_of_worker_get (item : option Task) :
  task_of_worker (worker_get item) = item.
Proof. destruct item; reflexivity. Qed.

(** The tasks put are those parsed and those that wait, unless a cancelled
    worker has dropped some. *)
Lemma tasks_accounted (R : Run) (db0 : Db) (cancel : bool) (now : Z) (s : System) :
  reachable R db0 cancel now s ->
  parsed_tasks s ++ waiting_tasks s ⊆+ queued_tasks s
  /\ (cancel_event s = false -> parsed_tasks s ++ waiting_tasks s ≡ₚ queued_tasks s).
Proof.
  revert s.
  apply (reachable_ind R db0 cancel now (fun s =>
    parsed_tasks s ++ waiting_tasks s ⊆+ queued_tasks s
    /\ (cancel_event s = false ->
        parsed_tasks s ++ waiting_tasks s ≡ₚ queued_tasks s))).
  - split; [|intros _]; unfold parsed_tasks, waiting_tasks, queued_tasks, start;
      cbn [result_puts task_queue worker_threads task_puts workers];
      (replace (omap task_of_worker (replicate (workers R) WGet)) with (@nil Task);
       [reflexivity|]);
      induction (workers R) as [|n IH]; [reflexivity | exact IH | reflexivity | exact IH].
  - intros s s' _ [IH1 IH2] Hstep.
    unfold parsed_tasks, waiting_tasks, queued_tasks in *.
    destruct Hstep as
      [ | d' Hd | incs d' Hd | item d' Hd Hroom | i item rest Hw Hq
      | i task parsed Hw Hcan | i task parsed result Hw Hr | i Hw
      | rest Hopen Hlt Hq | item rest now' Hopen Hlt Hq Hbinds
      | item rest Hopen Hlt Hq | Hopen Hge ];
      cbn [result_puts task_queue worker_threads task_puts cancel_event] in *;
      try (split; [exact IH1 | exact IH2]).
    + split; [exact IH1 | discriminate].
    + rewrite !omap_app.
      assert (Hperm : omap (fun put : nat * option Result => task_of_result <$> put.2)
                        (result_puts s)
                      ++ (omap id (task_queue s) ++ omap id [item])
                         ++ omap task_of_worker (worker_threads s)
                      ≡ₚ (omap (fun put : nat * option Result => task_of_result <$> put.2)
                            (result_puts s)
                          ++ omap id (task_queue s)
                          ++ omap task_of_worker (worker_threads s))
                         ++ omap id [item]) by solve_Permutation.
      rewrite Hperm. split; [apply submseteq_skips_r, IH1|].
      intros Hc. rewrite (IH2 Hc). reflexivity.
    + pose proof (omap_insert_perm task_of_worker _ i WGet (worker_get item) Hw) as Hp.
      rewrite task_of_worker_get in Hp. cbn [task_of_worker option_list option_rect app] in Hp.
      rewrite Hq in IH1, IH2. rewrite omap_cons_list in IH1, IH2.
      change (option_list (id item)) with (option_list item) in IH1, IH2.
      assert (Hperm : omap (fun put : nat * option Result => task_of_result <$> put.2)
                        (result_puts s)
                      ++ omap id rest
                         ++ omap task_of_worker (<[i:=worker_get item]> (worker_threads s))
                      ≡ₚ omap (fun put : nat * option Result => task_of_result <$> put.2)
                           (result_puts s)
                         ++ (option_list item ++ omap id rest)
                            ++ omap task_of_worker (worker_threads s))
        by (rewrite Hp; solve_Permutation).
      rewrite Hperm. split; [exact IH1 | exact IH2].
    + pose proof (omap_insert_perm task_of_worker _ i (WTask task) WGet Hw) as Hp.
      cbn [task_of_worker option_list option_rect app] in Hp.
      split.
      * etransitivity; [|exact IH1]. apply submseteq_skips_l, submseteq_skips_l.
        rewrite <- Hp. apply submseteq_cons. reflexivity.
      * intros Hc. unfold worker_task in Hcan. rewrite Hc in Hcan.
        destruct task as [[? ?] ?]. discriminate.
    + pose proof (omap_insert_perm task_of_worker _ i (WTask task) WGet Hw) as Hp.
      cbn [task_of_worker option_list option_rect app] in Hp.
      apply worker_task_result in Hr as [_ Hr].
      rewrite omap_app.
      change (omap (fun put : nat * option Result => task_of_result <$> put.2)
                [(i, Some result)]) with [task_of_result result].
      rewrite Hr.
      assert (Hperm : (omap (fun put : nat * option Result => task_of_result <$> put.2)
                         (result_puts s) ++ [task])
                      ++ omap id (task_queue s)
                         ++ omap task_of_worker (<[i:=WGet]> (worker_threads s))
                      ≡ₚ omap (fun put : nat * option Result => task_of_result <$> put.2)
                           (result_puts s)
                         ++ omap id (task_queue s)
                            ++ omap task_of_worker (worker_threads s))
        by (rewrite <- Hp; solve_Permutation).
      rewrite Hperm. split; [exact IH1 | exact IH2].
    + pose proof (omap_insert_perm task_of_worker _ i WSentinel WExit Hw) as Hp.
      cbn [task_of_worker option_list option_rect app] in Hp.
      rewrite omap_app.
      change (omap (fun put : nat * option Result => task_of_result <$> put.2)
                [(i, @None Result)]) with (@nil Task).
      rewrite app_nil_r, Hp. split; [exact IH1 | exact IH2].
Qed.

Lemma submseteq_NoDup_fmap {A B} (f : A -> B) (l k : list A) :
  l ⊆+ k -> NoDup (f <$> k) -> NoDup (f <$> l).
Proof.
  intros Hsub Hnd. apply submseteq_Permutation in Hsub as [k' Hk].
  rewrite Hk, fmap_app in Hnd. apply NoDup_app in Hnd as [Hl _]. exact Hl.
Qed.

(** X25. No file is parsed twice in a run, and none that was not enqueued.
    The tasks of the results that the workers put, together with the tasks
    that wait in the queue or in the hands of a worker, are among the
    tasks that discovery has put, each at most as often, and they are all
    of them unless a cancelled worker has dropped some; the tasks put are
    files of the tree in the order of the walk. So when the walk names no
    path twice, no two results of a run are for the same path, and when an
    uncancelled run is over every task put has its one result. *)
Theorem files_parsed_at_most_once (R : Run) (db0 : Db) (cancel : bool) (now : Z)
    (s : System) :
  reachable R db0 cancel now s ->
  parsed_tasks s ++ waiting_tasks s ⊆+ queued_tasks s
  /\ (cancel_event s = false -> parsed_tasks s ++ waiting_tasks s ≡ₚ queued_tasks s)
  /\ queued_tasks s `sublist_of` tasks_of_dirs (walk R)
  /\ (NoDup ((fun t : Task => t.1.1) <$> tasks_of_dirs (walk R)) ->
      NoDup ((fun t : Task => t.1.1) <$> parsed_tasks s))
  /\ ((1 <= workers R)%nat -> joined s -> cancel_event s = false ->
      parsed_tasks s ≡ₚ queued_tasks s).
Proof.
  intros Hs.
  destruct (tasks_accounted R db0 cancel now s Hs) as [Hsub Hperm].
  destruct (queued_tasks_of_tree R db0 cancel now s Hs) as (pre & Hpre & Hq).
  assert (Htree : queued_tasks s `sublist_of` tasks_of_dirs (walk R))
    by (rewrite Hpre; apply sublist_inserts_r, Hq).
  split; [exact Hsub|]. split; [exact Hperm|]. split; [exact Htree|]. split.
  - intros Hnd. eapply submseteq_NoDup_fmap; [|exact Hnd].
    etransitivity; [apply submseteq_inserts_r; reflexivity|].
    etransitivity; [exact Hsub | apply sublist_submseteq, Htree].
  - intros Hw Hj Hc. rewrite <- (Hperm Hc).
    destruct Hj as (_ & Hexit & _).
    destruct (workers_exited_nothing_waits R db0 cancel now s Hw Hs Hexit)
      as [Hp1 Hp2].
    unfold waiting_tasks. rewrite Hp1, Hp2, app_nil_r. reflexivity.
Qed.

Lemma files_parsed_at_most_once_witness :
  reachable example_run1 init_db false 99 example_end1
  /\ parsed_tasks example_end1 = [(lit "/src/a.c", 1, 10)]
  /\ queued_tasks example_end1 `sublist_of` tasks_of_dirs (walk example_run1)
  /\ NoDup ((fun t : Task => t.1.1) <$> parsed_tasks example_end1)
  /\ parsed_tasks example_end1 ≡ₚ queued_tasks example_end1.
Proof.
  split; [exact example_end1_reachable|]. split; [reflexivity|].
  destruct (files_parsed_at_most_once example_run1 init_db false 99 example_end1
              example_end1_reachable) as (_ & _ & Htree & Hnd & Hall).
  split; [exact Htree|]. split.
  - apply Hnd. vm_compute. repeat constructor. inversion 1.
  - apply Hall; [cbn; lia | exact example_end1_joined | reflexivity].
Defined.

Lemma run_has_no_deadlock_witness :
  reachable example_run1 init_db false 99 example_start1
  /\ ~ joined example_start1
  /\ exists m s', m <> MCancel /\ move example_run1 m example_start1 = Some s'.
Proof.
  assert (Hs : reachable example_run1 init_db false 99 example_start1)
    by apply rtc_refl.
  assert (Hnj : ~ joined example_start1) by (intros ([r Hr] & _); discriminate).
  split; [exact Hs|]. split; [exact Hnj|].
  destruct (run_has_no_deadlock example_tree 1 None init_db false 99 example_start1 Hs)
    as (_ & _ & _ & Hmove).
  destruct (Hmove Hnj) as (m & s' & Hm & Hmv & _). eauto.
Defined.


End RunTasks.

(** ** The run: indexing again *)

Section Reindex.
Import CsigCore CsigDb CsigIndexer.

(** A run that went to its end without cancellation, without an exception
    of the walk and without an exception in the writer has stored every
    file of its tree. *)
Lemma complete_run_stores_tree (tree : list (list FileEntry)) (workers_ : nat)
    (db0 : Db) (cancel : bool) (now : Z) (s : System) :
  well_formed db0 -> stat_functional tree -> (1 <= workers_)%nat ->
  reachable (run_of tree workers_ db0) db0 cancel now s ->
  joined s -> cancel_event s = false -> raised (discovery s) = false ->
  crashed (writer s) = false ->
  forall t, t ∈ tasks_of_dirs tree -> stored (db s) t.
Proof.
  intros Hwf Hfun Hw Hs Hj Hcancel Hraised Hok t Ht.
  destruct (run_covers_tree tree workers_ db0 cancel now s Hwf Hfun Hs)
    as (_ & _ & _ & _ & Hcov).
  pose proof (joined_nothing_pending (run_of tree workers_ db0) db0 cancel now s
                Hw Hs Hj Hok) as Hnone.
  destruct Hj as ([r Hd] & _ & _).
  destruct (Hcov t Ht) as [Hin|[Hin|[Hin|[Hin|[Hin|Hin]]]]].
  - rewrite Hd in Hin. apply elem_of_nil in Hin as [].
  - rewrite Hnone in Hin. apply elem_of_nil in Hin as [].
  - exact Hin.
  - congruence.
  - congruence.
  - congruence.
Qed.

(** A run that knows every file of its tree never writes to the store and
    counts no function. *)
Lemma known_tree_keeps_store (R : Run) (db0 : Db) (cancel : bool) (now : Z)
    (s : System) :
  (forall t, t ∈ tasks_of_dirs (walk R) ->
     known_states R !! t.1.1 = Some (t.1.2, t.2)) ->
  reachable R db0 cancel now s ->
  db s = db0 /\ functions_total (tracker s) = 0.
Proof.
  intros Hknown. revert s.
  apply (reachable_ind R db0 cancel now (fun s =>
    db s = db0 /\ functions_total (tracker s) = 0)).
  - split; reflexivity.
  - intros s s' Hs [Hdb Hfn] Hstep.
    destruct (known_tree_is_skipped R db0 cancel now s Hknown Hs)
      as (_ & Hpend & _).
    unfold pending in Hpend.
    destruct Hstep as
      [ | d' Hd | incs d' Hd | item d' Hd Hroom | i item rest Hw Hq
      | i task parsed Hw Hcan | i task parsed result Hw Hr | i Hw
      | rest Hopen Hlt Hq | item rest now' Hopen Hlt Hq Hbinds
      | item rest Hopen Hlt Hq | Hopen Hge ];
      cbn [db tracker] in *; try (split; [exact Hdb | exact Hfn]).
    + split; [exact Hdb|].
      apply discover_step_cases in Hd.
      destruct (discovery s) as [| | | |[|k] ?|];
        intuition (simplify_eq; cbn in *; lia).
    + exfalso. rewrite Hq in Hpend.
      apply app_eq_nil in Hpend as [_ Hpend].
      apply app_eq_nil in Hpend as [_ Hpend]. discriminate.
Qed.

(** X26. Indexing an unchanged tree again leaves the store as it is. After
    a run over a tree that went to its end without cancellation, without
    an exception of the walk and without an exception in the writer, a
    second run over the same tree, with any number of workers and
    cancelled or not, never writes to the store:
    in every state of it the store is the one the first run left, and it
    counts no indexed or failed file and no function, so that its summary
    reports [functions_total] 0 whatever the store holds. *)
Theorem reindex_unchanged_keeps_store (tree : list (list FileEntry))
    (workers1 workers2 : nat) (db0 : Db) (cancel1 : bool) (now1 : Z)
    (s1 : System) (cancel2 : bool) (now2 : Z) (s2 : System) :
  well_formed db0 ->
  stat_functional tree ->
  (1 <= workers1)%nat ->
  reachable (run_of tree workers1 db0) db0 cancel1 now1 s1 ->
  joined s1 ->
  cancel_event s1 = false ->
  raised (discovery s1) = false ->
  crashed (writer s1) = false ->
  reachable (run_of tree workers2 (db s1)) (db s1) cancel2 now2 s2 ->
  db s2 = db s1
  /\ forall end_now,
       functions_total (summary s2 end_now) = 0
       /\ files_indexed (summary s2 end_now) = 0
       /\ files_failed (summary s2 end_now) = 0.
Proof.
  intros Hwf Hfun Hw Hs1 Hj Hcancel Hraised Hok Hs2.
  pose proof (complete_run_stores_tree tree workers1 db0 cancel1 now1 s1
                Hwf Hfun Hw Hs1 Hj Hcancel Hraised Hok) as Hstored.
  destruct (known_tree_keeps_store (run_of tree workers2 (db s1)) (db s1)
              cancel2 now2 s2 Hstored Hs2) as [Hdb Hfn].
  destruct (known_tree_is_skipped (run_of tree workers2 (db s1)) (db s1)
              cancel2 now2 s2 Hstored Hs2)
    as (_ & _ & _ & _ & Hidx & Hfail & _).
  split; [exact Hdb|].
  intros end_now. unfold summary. cbn. auto.
Qed.

Lemma reindex_unchanged_keeps_store_witness :
  well_formed init_db
  /\ stat_functional example_tree
  /\ reachable (run_of example_tree 1 init_db) init_db false 99 example_end1
  /\ joined example_end1
  /\ crashed (writer example_end1) = false
  /\ reachable (run_of example_tree 1 (db example_end1)) (db example_end1) false 200
       example_end2
  /\ db example_end2 = db example_end1
  /\ functions_total (summary example_end2 201) = 0.
Proof.
  destruct (reindex_unchanged_keeps_store example_tree 1 1 init_db false 99
              example_end1 false 200 example_end2
              init_db_well_formed example_tree_functional (le_n 1)
              example_end1_reachable example_end1_joined eq_refl eq_refl eq_refl
              example_end2_reachable) as [Hdb Hsum].
  split; [exact init_db_well_formed|]. split; [exact example_tree_functional|].
  split; [exact example_end1_reachable|]. split; [exact example_end1_joined|].
  split; [reflexivity|].
  split; [exact example_end2_reachable|]. split; [exact Hdb|].
  exact (proj1 (Hsum 201)).
Defined.

End Reindex.

(** ** The search of the interactive UI *)

Section InteractiveSearch.
Import CsigCore CsigDb Csig CsigTui.
Context `{UnicodeTables}.

Lemma strip_cons_space (c : Z) (s : list Z) :
  is_space c = true -> strip (c :: s) = strip s.
Proof. intros Hc. unfold strip. cbn [lstrip]. rewrite Hc. reflexivity. Qed.

Lemma rstrip_snoc_space (s : list Z) (c : Z) :
  is_space c = true -> rstrip (s ++ [c]) = rstrip s.
Proof.
  intros Hc. unfold rstrip. rewrite reverse_app. change (reverse [c]) with [c].
  cbn [app lstrip]. rewrite Hc. reflexivity.
Qed.

Lemma strip_snoc_space (s : list Z) (c : Z) :
  is_space c = true -> strip (s ++ [c]) = strip s.
Proof.
  intros Hc. unfold strip. rewrite lstrip_app.
  destruct (lstrip s) as [|d t].
  - cbn [lstrip]. rewrite Hc. reflexivity.
  - apply rstrip_snoc_space, Hc.
Qed.

Lemma starts_with_length (p s : list Z) :
  starts_with p s = true -> (length p <= length s)%nat.
Proof.
  revert s. induction p as [|a p IH]; intros [|b s]; cbn; try discriminate; try lia.
  intros Hs. apply andb_true_iff in Hs as [_ Hs]. apply IH in Hs. lia.
Qed.

Lemma find_text_snoc (sub s : list Z) (c : Z) :
  sub <> [] -> c ∉ sub -> find sub (s ++ [c]) = find sub s.
Proof.
  intros Hne Hc.
  assert (Hnil : starts_with sub [] = false)
    by (destruct sub; [congruence | reflexivity]).
  induction s as [|d s IH].
  - pose proof (starts_with_snoc sub [] c Hne Hc) as Hs. cbn [app] in Hs.
    cbn [app find]. rewrite Hs, Hnil. reflexivity.
  - pose proof (starts_with_snoc sub (d :: s) c Hne Hc) as Hs.
    rewrite <- app_comm_cons in Hs. rewrite <- app_comm_cons.
    cbn [find]. rewrite Hs, IH. reflexivity.
Qed.

Lemma find_Some_bound (sub s : list Z) (k : nat) :
  sub <> [] -> find sub s = Some k -> (k + length sub <= length s)%nat.
Proof.
  intros Hne. revert k. induction s as [|c s IH]; intros k; cbn [find].
  - destruct sub; [congruence | discriminate].
  - destruct (starts_with sub (c :: s)) eqn:Hs.
    + intros [= <-]. apply starts_with_length in Hs. lia.
    + destruct (find sub s) as [j|]; [|discriminate].
      intros [= <-]. specialize (IH j eq_refl). cbn [length]. lia.
Qed.

Lemma space_not_colon (c : Z) : is_space c = true -> c <> 58.
Proof. intros Hc ->. discriminate. Qed.

Lemma split_once_cons_space (c : Z) (s : list Z) :
  is_space c = true ->
  split_once (lit "::") (c :: s)
  = (fun p => (c :: p.1, p.2)) <$> split_once (lit "::") s.
Proof.
  intros Hc. apply space_not_colon in Hc. unfold split_once. cbn [find].
  assert (Hs : starts_with (lit "::") (c :: s) = false).
  { change (lit "::") with [58; 58]. cbn [starts_with].
    destruct (Z.eqb_spec 58 c); [congruence | reflexivity]. }
  rewrite Hs. destruct (find (lit "::") s) as [i|]; reflexivity.
Qed.

Lemma split_once_snoc_space (s : list Z) (c : Z) :
  is_space c = true ->
  split_once (lit "::") (s ++ [c])
  = (fun p => (p.1, p.2 ++ [c])) <$> split_once (lit "::") s.
Proof.
  intros Hc. apply space_not_colon in Hc. unfold split_once.
  rewrite find_text_snoc.
  - destruct (find (lit "::") s) as [i|] eqn:Hf; [|reflexivity].
    apply find_Some_bound in Hf; [|discriminate].
    cbn [mbind option_bind fmap option_fmap option_map fst snd].
    rewrite take_app_le by lia. rewrite drop_app_le by lia. reflexivity.
  - discriminate.
  - change (lit "::") with [58; 58]. intros Hin.
    apply elem_of_cons in Hin as [Hin|Hin]; [congruence|].
    apply elem_of_cons in Hin as [Hin|Hin]; [congruence|]. inversion Hin.
Qed.

Lemma parse_query_cons_space (normalise : Language -> list Z -> option (list Z))
    (c : Z) (s : list Z) :
  is_space c = true -> parse_query normalise (c :: s) = parse_query normalise s.
Proof.
  intros Hc. unfold parse_query. rewrite split_once_cons_space by exact Hc.
  destruct (split_once (lit "::") s) as [[name_part sig_part]|];
    cbn [fmap option_fmap option_map fst snd];
    rewrite strip_cons_space by exact Hc; reflexivity.
Qed.

Lemma parse_query_snoc_space (normalise : Language -> list Z -> option (list Z))
    (s : list Z) (c : Z) :
  is_space c = true -> parse_query normalise (s ++ [c]) = parse_query normalise s.
Proof.
  intros Hc. unfold parse_query. rewrite split_once_snoc_space by exact Hc.
  destruct (split_once (lit "::") s) as [[name_part sig_part]|];
    cbn [fmap option_fmap option_map fst snd];
    rewrite strip_snoc_space by exact Hc; reflexivity.
Qed.

(** White space around the text of a query does not matter to
    [parse_query]. *)
Lemma parse_query_strip (normalise : Language -> list Z -> option (list Z))
    (query_str : list Z) :
  parse_query normalise (strip query_str) = parse_query normalise query_str.
Proof.
  assert (Hr : forall s, parse_query normalise (rstrip s) = parse_query normalise s).
  { induction s as [|c s IH] using rev_ind; [reflexivity|].
    destruct (is_space c) eqn:Hc.
    - rewrite rstrip_snoc_space, parse_query_snoc_space by exact Hc. exact IH.
    - rewrite rstrip_snoc by exact Hc. reflexivity. }
  assert (Hl : forall s, parse_query normalise (lstrip s) = parse_query normalise s).
  { induction s as [|c s IH]; [reflexivity|].
    cbn [lstrip]. destruct (is_space c) eqn:Hc; [|reflexivity].
    rewrite parse_query_cons_space by exact Hc. exact IH. }
  unfold strip. rewrite Hr. apply Hl.
Qed.

Lemma fetch_candidates_all (db : Db) (query : Query) (limit : Z) :
  Z.of_nat (length (join_files db)) <= limit ->
  fetch_candidates db query limit = fetch_candidates db query (-1).
Proof.
  intros Hsmall. unfold fetch_candidates.
  rewrite !(select_candidates_all db _ limit) by exact Hsmall. reflexivity.
Qed.

(** X27. The search of the interactive UI. A blank text gives no row, and
    nothing is parsed or read for it. Any other text is parsed as the
    search command parses it, the white space around it making no
    difference; the UI shows at most 50 rows, and while the store holds at
    most 300 function rows they are the rows that the search command
    prints for [--top 50]. The error row is returned exactly when libclang
    could not be set up, the query could not be parsed or the store could
    not be read: the ranking itself never fails. *)
Theorem search_sync_rows
    (clang_index : option (Language -> list Z -> option (list Z)))
    (store : option Db) (query_text : list Z) :
  (strip query_text = [] -> _search_sync clang_index store query_text = Rows [])
  /\ (forall rows,
        _search_sync clang_index store query_text = Rows rows ->
        (length rows <= 50)%nat)
  /\ (forall normalise db,
        clang_index = Some normalise -> store = Some db ->
        strip query_text <> [] ->
        Z.of_nat (length (join_files db)) <= 300 ->
        _search_sync clang_index store query_text
        = match returned (parse_query normalise query_text) with
          | Some query =>
              match search_rows db query 50 with
              | Some rows => Rows rows
              | None => ErrorRow
              end
          | None => ErrorRow
          end)
  /\ (_search_sync clang_index store query_text = ErrorRow
      <-> strip query_text <> []
          /\ (clang_index = None \/ store = None
              \/ exists normalise,
                   clang_index = Some normalise
                   /\ returned (parse_query normalise query_text) = None)).
Proof.
  assert (Hrank : forall candidates query top,
            _rank_candidates candidates query top
            = Some (snd <$> take (Z.to_nat (Z.max 0 top))
                              (stable_sort key_le (scored_row query <$> candidates))))
    by (intros; apply rank_candidates_eq).
  unfold _search_sync.
  destruct (strip query_text) as [|c value] eqn:Hvalue.
  - split; [reflexivity|]. split; [intros rows [= <-]; cbn; lia|].
    split; [intros normalise db _ _ Hne; congruence|].
    split; [discriminate | intros [Hne _]; congruence].
  - split; [discriminate|].
    destruct clang_index as [normalise|].
    + rewrite <- Hvalue, parse_query_strip.
      destruct (returned (parse_query normalise query_text)) as [query|] eqn:Hq.
      * destruct store as [db|].
        -- cbn zeta. rewrite Hrank. split.
           { intros rows [= <-]. rewrite length_fmap, length_take. lia. }
           split.
           { intros normalise' db' [= <-] [= <-] _ Hsmall. rewrite Hq.
             unfold search_rows.
             rewrite (fetch_candidates_all db query 300) by exact Hsmall.
             rewrite (fetch_candidates_all db query (Z.max 200 (50 * 20))) by lia.
             rewrite rank_candidates_eq. reflexivity. }
           split; [discriminate|].
           intros [_ [Hc|[Hs|(n & [= <-] & Hn)]]]; congruence.
        -- split; [discriminate|]. split; [intros; congruence|].
           split; [intros _ | reflexivity]. split; [congruence | auto].
      * split; [discriminate|]. split.
        { intros normalise' db' [= <-] _ _ _. rewrite Hq. reflexivity. }
        split; [intros _ | reflexivity]. split; [congruence | eauto 6].
    + split; [discriminate|]. split; [intros; congruence|].
      split; [intros _ | reflexivity]. split; [congruence | auto].
Qed.

End InteractiveSearch.

Lemma search_sync_rows_witness :
  strip (lit " a :: ") <> []
  /\ Z.of_nat (length (CsigDb.join_files (CsigIndexer.db example_end1))) <= 300
  /\ @CsigTui._search_sync ascii_tables (Some (fun _ text => Some text))
       (Some (CsigIndexer.db example_end1)) (lit " a :: ")
     = match CsigCore.returned
               (@CsigCore.parse_query ascii_tables (fun _ text => Some text)
                  (lit " a :: ")) with
       | Some query =>
           match @Csig.search_rows ascii_tables (CsigIndexer.db example_end1) query 50 with
           | Some rows => CsigTui.Rows rows
           | None => CsigTui.ErrorRow
           end
       | None => CsigTui.ErrorRow
       end
  /\ exists row,
       @CsigTui._search_sync ascii_tables (Some (fun _ text => Some text))
         (Some (CsigIndexer.db example_end1)) (lit " a :: ")
       = CsigTui.Rows [row].
Proof.
  assert (Hne : strip (lit " a :: ") <> []) by (vm_compute; discriminate).
  assert (Hsmall : Z.of_nat (length (CsigDb.join_files (CsigIndexer.db example_end1)))
                   <= 300) by (vm_compute; discriminate).
  destruct (@search_sync_rows ascii_tables (Some (fun _ text => Some text))
              (Some (CsigIndexer.db example_end1)) (lit " a :: "))
    as (_ & _ & Hsame & _).
  split; [exact Hne|]. split; [exact Hsmall|].
  split; [exact (Hsame _ _ eq_refl eq_refl Hne Hsmall)|].
  eexists. vm_compute. reflexivity.
Defined.
